(** * sheetsql: the query engine over sheet rows

    A shallow embedding of the query layer of sheetsql (a Go library that
    queries a spreadsheet as a table): the fluent builder, the WHERE-clause
    parser of [sql.go], the predicate evaluator, the pagination loop of
    [Query.Get], the record binder and the write operations.

    Go strings are byte sequences: they are modelled as [string] (a list
    of 8-bit [ascii]).  Go's [int] is taken to be 64 bits wide.  A slice
    is a [list]; the header map [map[string]int] is a [gmap string nat]. *)

From Stdlib Require Import ZArith Lia Bool List Ascii String.
From Stdlib Require Import Floats.SpecFloat Sorted.
From stdpp Require Import base option list strings gmap.

Local Open Scope string_scope.
Local Open Scope Z_scope.

(* [simpl] unfolds [append] on a string that starts with a byte. *)
#[local] Arguments String.append !s1 s2 : simpl nomatch.

(** Equality of Go strings, [==]. *)
Local Notation "a ==? b" := (String.eqb a b) (at level 70, no associativity).

(** ** Bytes and strings *)

Module Bytes.

Definition code (c : ascii) : N := N_of_ascii c.

Definition between (lo hi : N) (c : ascii) : bool :=
  (lo <=? code c)%N && (code c <=? hi)%N.

Definition isDigit (c : ascii) : bool := between 48 57 c.
Definition isUpper (c : ascii) : bool := between 65 90 c.
Definition isLower (c : ascii) : bool := between 97 122 c.

(** The class [\w] of Go's regexp syntax: [0-9A-Za-z_]. *)
Definition isWord (c : ascii) : bool :=
  isDigit c || isUpper c || isLower c || (code c =? 95)%N.

(** The class [\s] of Go's regexp syntax: [\t\n\f\r ]. *)
Definition isSpace (c : ascii) : bool :=
  (code c =? 9)%N || (code c =? 10)%N || (code c =? 12)%N
  || (code c =? 13)%N || (code c =? 32)%N.

(** What [.] matches without the [s] flag: any byte but a line feed. *)
Definition notNewline (c : ascii) : bool := negb (code c =? 10)%N.

Definition digitVal (c : ascii) : Z := Z.of_N (code c) - 48.

Definition lower (c : ascii) : ascii :=
  if isUpper c then ascii_of_N (code c + 32) else c.

(** The double quote, byte 34. *)
Definition dquote : ascii := ascii_of_N 34.
(** The single quote, byte 39. *)
Definition squote : ascii := ascii_of_N 39.

Fixpoint all (p : ascii -> bool) (s : string) : bool :=
  match s with
  | EmptyString => true
  | String c s' => p c && all p s'
  end.

Fixpoint rev_acc (s acc : string) : string :=
  match s with
  | EmptyString => acc
  | String c s' => rev_acc s' (String c acc)
  end.

Definition rev (s : string) : string := rev_acc s EmptyString.

Fixpoint map (f : ascii -> ascii) (s : string) : string :=
  match s with
  | EmptyString => EmptyString
  | String c s' => String (f c) (map f s')
  end.

Fixpoint dropWhile (p : ascii -> bool) (s : string) : string :=
  match s with
  | EmptyString => EmptyString
  | String c s' => if p c then dropWhile p s' else s
  end.

Fixpoint drop (n : nat) (s : string) : string :=
  match n, s with
  | O, _ => s
  | S n', String _ s' => drop n' s'
  | S _, EmptyString => EmptyString
  end.

Definition take (n : nat) (s : string) : string := String.substring 0 n s.

Fixpoint repeat (c : ascii) (n : nat) : string :=
  match n with O => EmptyString | S n' => String c (repeat c n') end.

End Bytes.

(** ** The Go standard library, as far as the engine calls it *)

(** [package strings]. *)
Module GoStrings.
Import Bytes.

(** [strings.Contains(s, substr)]: [substr] occurs in [s] as a run of
    bytes. *)
Fixpoint Contains (s substr : string) : bool :=
  String.prefix substr s ||
  match s with
  | EmptyString => false
  | String _ s' => Contains s' substr
  end.

Fixpoint inCutset (cutset : string) (c : ascii) : bool :=
  match cutset with
  | EmptyString => false
  | String k rest => Ascii.eqb c k || inCutset rest c
  end.

Definition TrimLeft (s cutset : string) : string := dropWhile (inCutset cutset) s.

Definition TrimRight (s cutset : string) : string :=
  rev (dropWhile (inCutset cutset) (rev s)).

(** [strings.Trim(s, cutset)] for a cutset of ASCII bytes: every leading
    and every trailing byte that belongs to the cutset is removed. *)
Definition Trim (s cutset : string) : string := TrimLeft (TrimRight s cutset) cutset.

(** The one-byte white space of [unicode.IsSpace]: [\t \n \v \f \r] and
    the blank. *)
Definition asciiSpace (c : ascii) : bool :=
  between 9 13 c || (code c =? 32)%N.

(** The two-byte encodings of white space: U+0085 and U+00A0. *)
Definition space2 (c1 c2 : ascii) : bool :=
  (code c1 =? 194)%N && ((code c2 =? 133)%N || (code c2 =? 160)%N).

(** The three-byte encodings of white space: U+1680, U+2000 to U+200A,
    U+2028, U+2029, U+202F, U+205F and U+3000. *)
Definition space3 (c1 c2 c3 : ascii) : bool :=
  ((code c1 =? 225)%N && (code c2 =? 154)%N && (code c3 =? 128)%N)
  || ((code c1 =? 226)%N && (code c2 =? 128)%N
      && (between 128 138 c3 || between 168 169 c3 || (code c3 =? 175)%N))
  || ((code c1 =? 226)%N && (code c2 =? 129)%N && (code c3 =? 159)%N)
  || ((code c1 =? 227)%N && (code c2 =? 128)%N && (code c3 =? 128)%N).

Fixpoint trimLeftSpace (s : string) : string :=
  match s with
  | EmptyString => s
  | String c1 s1 =>
    if asciiSpace c1 then trimLeftSpace s1 else
    match s1 with
    | EmptyString => s
    | String c2 s2 =>
      if space2 c1 c2 then trimLeftSpace s2 else
      match s2 with
      | EmptyString => s
      | String c3 s3 => if space3 c1 c2 c3 then trimLeftSpace s3 else s
      end
    end
  end.

(** The same scan over the reversed string: the bytes of an encoding
    come last byte first. *)
Fixpoint trimLeftSpaceRev (s : string) : string :=
  match s with
  | EmptyString => s
  | String c1 s1 =>
    if asciiSpace c1 then trimLeftSpaceRev s1 else
    match s1 with
    | EmptyString => s
    | String c2 s2 =>
      if space2 c2 c1 then trimLeftSpaceRev s2 else
      match s2 with
      | EmptyString => s
      | String c3 s3 => if space3 c3 c2 c1 then trimLeftSpaceRev s3 else s
      end
    end
  end.

(** [strings.TrimSpace(s)]: leading and trailing white space, as
    [unicode.IsSpace] defines it over the UTF-8 encoding, is removed. *)
Definition TrimSpace (s : string) : string :=
  rev (trimLeftSpaceRev (rev (trimLeftSpace s))).

(** [strings.ToLower] on a string of ASCII bytes. *)
Definition ToLowerASCII (s : string) : string := map lower s.

End GoStrings.

(** ** Errors

    A Go [error] is modelled by the call that made it: one constructor
    for each [fmt.Errorf] format of the package (its [%w] operand is the
    wrapped cause), for the errors of [strconv], and for whatever the
    remote service reports. *)

(** [reflect.Kind]. *)
Inductive Kind : Set :=
| Invalid | Bool | Int | Int8 | Int16 | Int32 | Int64
| Uint | Uint8 | Uint16 | Uint32 | Uint64 | Uintptr
| Float32 | Float64 | Complex64 | Complex128
| Array | Chan | Func | Interface | Map | Pointer | Slice
| String_ | Struct | UnsafePointer.

(** [strconv.ErrSyntax] and [strconv.ErrRange]. *)
Inductive numErr : Set := ErrSyntax | ErrRange.

Inductive error : Set :=
| NumError (fn num : string) (e : numErr)
    (* strconv.NumError{Func: fn, Num: num, Err: e} *)
| ServiceError (msg : string)
    (* an error returned by a call to the sheets service *)
| ErrInvalidSQL
    (* "invalid SQL syntax" *)
| ErrParseWhere (cause : error)
    (* "failed to parse WHERE clause: %w" *)
| ErrInvalidWhere (condition : string)
    (* "invalid WHERE condition: %s" *)
| ErrDestNotSlice
    (* "dest must be a pointer to a slice" *)
| ErrReadSheet (cause : error)
    (* "failed to read sheet: %w" *)
| ErrMapRow (cause : error)
    (* "failed to map row to struct: %w" *)
| ErrSetField (name : string) (cause : error)
    (* "failed to set field %s: %w" *)
| ErrUnsupportedKind (k : Kind)
    (* "unsupported field type: %s" *)
| ErrDataNotStruct
    (* "data must be a struct or pointer to struct" *)
| ErrNoData
    (* "no data found in sheet" *)
| ErrUpdateRow (row : Z) (cause : error)
    (* "failed to update row %d: %w" *)
| ErrNoRowsMatched
    (* "no rows matched the where conditions" *)
| ErrDeleteRow (row : Z) (cause : error)
    (* "failed to delete row %d: %w" *).

(** The result of a call that returns [(T, error)]. *)
Inductive result (A : Type) : Type :=
| Ok (a : A)
| Err (e : error).
Arguments Ok {A} a.
Arguments Err {A} e.

Definition isOk {A} (r : result A) : bool :=
  match r with Ok _ => true | Err _ => false end.

(** [package strconv]. *)
Module Strconv.
Import Bytes.

Definition maxUint64 : Z := 2 ^ 64 - 1.

(** The loop of [strconv.ParseUint(s, 10, 64)] over the bytes of [s]:
    a byte that is no digit is a syntax error; an accumulator that
    leaves 64 bits is a range error, reported at once. *)
Fixpoint parseUintLoop (n : Z) (s : string) : numErr + Z :=
  match s with
  | EmptyString => inr n
  | String c s' =>
    if negb (isDigit c) then inl ErrSyntax
    else if maxUint64 / 10 + 1 <=? n then inl ErrRange
    else
      let n1 := n * 10 + digitVal c in
      if maxUint64 <? n1 then inl ErrRange else parseUintLoop n1 s'
  end.

Definition ParseUint (s : string) : numErr + Z :=
  match s with
  | EmptyString => inl ErrSyntax
  | _ => parseUintLoop 0 s
  end.

Definition splitSign (s : string) : bool * string :=
  match s with
  | String c s' =>
    if (code c =? 43)%N then (false, s')
    else if (code c =? 45)%N then (true, s')
    else (false, s)
  | EmptyString => (false, s)
  end.

(** [strconv.ParseInt(s, 10, 64)], its error reported under the name
    [fn] of the calling function. *)
Definition parseInt64 (fn s : string) : result Z :=
  match s with
  | EmptyString => Err (NumError fn s ErrSyntax)
  | _ =>
    let '(neg, body) := splitSign s in
    match ParseUint body with
    | inl ErrSyntax => Err (NumError fn s ErrSyntax)
    | inl ErrRange => Err (NumError fn s ErrRange)
    | inr un =>
      let cutoff := 2 ^ 63 in
      if negb neg && (cutoff <=? un) then Err (NumError fn s ErrRange)
      else if neg && (cutoff <? un) then Err (NumError fn s ErrRange)
      else Ok (if neg then - un else un)
    end
  end.

Definition ParseInt (s : string) : result Z := parseInt64 "ParseInt" s.

(** [strconv.Atoi(s)]: [ParseInt(s, 10, 0)] where [int] has 64 bits. *)
Definition Atoi (s : string) : result Z := parseInt64 "Atoi" s.

(** [strconv.ParseBool(s)]. *)
Definition ParseBool (s : string) : result bool :=
  if existsb (String.eqb s) ("1" :: "t" :: "T" :: "TRUE" :: "true" :: "True" :: nil)
  then Ok true
  else if existsb (String.eqb s) ("0" :: "f" :: "F" :: "FALSE" :: "false" :: "False" :: nil)
  then Ok false
  else Err (NumError "ParseBool" s ErrSyntax).

Fixpoint digitsOf (fuel : nat) (n : Z) (acc : string) : string :=
  match fuel with
  | O => acc
  | S fuel' =>
    let acc' := String (ascii_of_N (Z.to_N (48 + n mod 10))) acc in
    if n <? 10 then acc' else digitsOf fuel' (n / 10) acc'
  end.

(** The decimal digits of a natural number, most significant first. *)
Definition FormatUint (n : Z) : string :=
  digitsOf (S (Z.to_nat (Z.log2 n))) n EmptyString.

(** [strconv.Itoa]: the decimal form of an integer, with a minus sign
    when it is negative. *)
Definition FormatInt (n : Z) : string :=
  if n <? 0 then String (ascii_of_N 45) (FormatUint (- n)) else FormatUint n.

End Strconv.

(** ** Values *)

(** A [float64] is an IEEE 754 binary64 number; [<] and [<=] are the
    IEEE comparisons, false whenever an operand is a NaN. *)
Definition float64 : Set := spec_float.

Module F64.
Definition prec : Z := 53.
Definition emax : Z := 1024.
Definition zero : float64 := S754_zero false.
Definition ltb (a b : float64) : bool := SFltb a b.
Definition leb (a b : float64) : bool := SFleb a b.
(** The conversion [float32(x)]: round to nearest even on 24 bits. *)
Definition toFloat32 (x : float64) : float64 :=
  match x with
  | S754_finite s m e => binary_normalize 24 128 (cond_Zopp s (Zpos m)) e s
  | _ => x
  end.
End F64.

(** The functions of the Go library that the engine calls and whose
    tables (correctly rounded decimal conversion, Unicode case mapping)
    lie outside the repository.  The engine is defined over any
    implementation of them; [RefRuntime] below implements them for
    decimal literals and ASCII text. *)
Class GoRuntime : Type := {
  (** [strconv.ParseFloat(s, 64)] *)
  ParseFloat : string -> result float64;
  (** [strconv.FormatFloat(f, 'g', -1, bitSize)], the [%v] form of a
      floating-point number *)
  FormatFloat : float64 -> Z -> string;
  (** [strings.ToLower(s)] *)
  ToLower : string -> string
}.

(** A Go value held in an [interface{}]: a cell of a fetched row, the
    value of a WHERE clause, a field of a record. *)
Inductive any : Set :=
| Nil
| Str (s : string)
| IntV (k : Kind) (n : Z)          (* int, int8, int16, int32, int64 *)
| FloatV (k : Kind) (f : float64)  (* float32, float64 *)
| BoolV (b : bool)
| Other (k : Kind) (form : string)
    (* a value of another kind, known by its [%v] form *).

Definition kindOf (v : any) : Kind :=
  match v with
  | Nil => Invalid
  | Str _ => String_
  | IntV k _ => k
  | FloatV k _ => k
  | BoolV _ => Bool
  | Other k _ => k
  end.

(** The width of a signed integer kind; [int] has 64 bits. *)
Definition intBits (k : Kind) : Z :=
  match k with
  | Int8 => 8 | Int16 => 16 | Int32 => 32 | _ => 64
  end.

(** The conversion [intN(x)] of an [int64]: the low [bits] bits, read
    in two's complement. *)
Definition wrapInt (bits x : Z) : Z :=
  (x + 2 ^ (bits - 1)) mod 2 ^ bits - 2 ^ (bits - 1).

(** A field of a record type, as [reflect] shows it: its name, the
    value of its [sheet] tag (empty when it has none), whether it is
    exported (an unexported field cannot be set), and the zero value of
    its type, whose kind is the kind of the field. *)
Record StructField : Set := {
  Name : string;
  Tag : string;
  Exported : bool;
  Zero : any
}.

(** ** The sheets service

    The remote service is outside the engine.  It is a state [W] (the
    spreadsheet and whatever else a call may depend on) and one
    transition per call that the engine makes; each call returns its
    response or an error, and the state afterwards. *)
Record Service (W : Type) : Type := {
  (** [Spreadsheets.Values.Get(id, range).Do()]: the rows of the range *)
  ValuesGet : string -> W -> result (list (list any)) * W;
  (** [Spreadsheets.Values.Update(id, range, values).ValueInputOption("RAW").Do()] *)
  ValuesUpdate : string -> list (list any) -> W -> option error * W;
  (** [Spreadsheets.Get(id).Do()]: the title and the id of each sheet *)
  SpreadsheetsGet : W -> result (list (string * Z)) * W;
  (** [Spreadsheets.BatchUpdate(id, request).Do()] with one
      [DeleteDimension] request over the rows [StartIndex, EndIndex) of
      the sheet [SheetId] *)
  DeleteRows : Z -> Z -> Z -> W -> option error * W
}.
Arguments ValuesGet {W} _ _ _.
Arguments ValuesUpdate {W} _ _ _ _.
Arguments SpreadsheetsGet {W} _ _.
Arguments DeleteRows {W} _ _ _ _ _.

(** What a call does: it returns, or it panics. *)
Inductive outcome (A : Type) : Type :=
| Returns (a : A)
| Panics.
Arguments Returns {A} a.
Arguments Panics {A}.

(** The destination of [Get]: a pointer to a slice of records, or
    anything else. *)
Inductive Dest : Set :=
| SlicePtr (fields : list StructField) (slice : list (list any))
| NotSlicePtr.

(** The data of a write: a record (or a pointer to one), or anything
    else. *)
Inductive Data : Set :=
| StructData (fields : list StructField) (values : list any)
| NotStruct.

Section Engine.
Context `{RT : GoRuntime}.

(** [fmt.Sprintf("%v", v)]. *)
Definition Sprint (v : any) : string :=
  match v with
  | Nil => "<nil>"
  | Str s => s
  | IntV _ n => Strconv.FormatInt n
  | FloatV k f => FormatFloat f (if k is Float32 then 32 else 64)
  | BoolV b => if b then "true" else "false"
  | Other _ form => form
  end.

(** ** The query and its builder *)

Record WhereClause : Set := {
  Column : string;
  Operator : string;
  Value : any
}.

(** [Query], without its client. *)
Record Query : Set := {
  sheetName : string;
  where_ : list WhereClause;
  limit : Z;
  offset : Z
}.

(** [Client.From]. *)
Definition From (name : string) : Query :=
  {| sheetName := name; where_ := nil; limit := 0; offset := 0 |}.

(** [Query.Where]: the clause is appended. *)
Definition Where (q : Query) (column operator : string) (value : any) : Query :=
  {| sheetName := sheetName q;
     where_ := where_ q ++ {| Column := column; Operator := operator; Value := value |} :: nil;
     limit := limit q;
     offset := offset q |}.

(** [Query.Limit]. *)
Definition Limit (q : Query) (n : Z) : Query :=
  {| sheetName := sheetName q; where_ := where_ q; limit := n; offset := offset q |}.

(** [Query.Offset]. *)
Definition Offset (q : Query) (n : Z) : Query :=
  {| sheetName := sheetName q; where_ := where_ q; limit := limit q; offset := n |}.

(** ** The predicate evaluator *)

(** [Query.compareValues]: the first [switch] runs when both strings
    parse as floats and returns for the four ordering operators; any
    other case falls to the second [switch], over the strings. *)
Definition compareValues (a b operator : string) : bool :=
  let numeric :=
    match ParseFloat a, ParseFloat b with
    | Ok aFloat, Ok bFloat =>
      if operator ==? ">" then Some (F64.ltb bFloat aFloat)
      else if operator ==? "<" then Some (F64.ltb aFloat bFloat)
      else if operator ==? ">=" then Some (F64.leb bFloat aFloat)
      else if operator ==? "<=" then Some (F64.leb aFloat bFloat)
      else None
    | _, _ => None
    end in
  match numeric with
  | Some r => r
  | None =>
    if operator ==? ">" then (b <? a)%string
    else if operator ==? "<" then (a <? b)%string
    else if operator ==? ">=" then (b <=? a)%string
    else if operator ==? "<=" then (a <=? b)%string
    else false
  end.

(** The [switch] of [matchesWhere] on the operator of a clause:
    [false] where the source returns false, [true] where the loop goes
    on to the next clause. *)
Definition clausePasses (operator cellValue expectedValue : string) : bool :=
  if (operator ==? "=") || (operator ==? "==") then (cellValue ==? expectedValue)
  else if operator ==? "!=" then negb (cellValue ==? expectedValue)
  else if operator ==? ">" then compareValues cellValue expectedValue ">"
  else if operator ==? "<" then compareValues cellValue expectedValue "<"
  else if operator ==? ">=" then compareValues cellValue expectedValue ">="
  else if operator ==? "<=" then compareValues cellValue expectedValue "<="
  else if operator ==? "LIKE" then
    GoStrings.Contains (ToLower cellValue) (ToLower expectedValue)
  else true.

(** The loop of [matchesWhere] over the clauses of the query. *)
Fixpoint matchesClauses (clauses : list WhereClause) (row : list any)
    (fieldMap : gmap string nat) : bool :=
  match clauses with
  | nil => true
  | clause :: rest =>
    match fieldMap !! Column clause with
    | None => matchesClauses rest row fieldMap
    | Some colIndex =>
      match row !! colIndex with
      | None => matchesClauses rest row fieldMap
      | Some cell =>
        if clausePasses (Operator clause) (Sprint cell) (Sprint (Value clause))
        then matchesClauses rest row fieldMap
        else false
      end
    end
  end.

(** [Query.matchesWhere]; the [headers] argument is not read. *)
Definition matchesWhere (q : Query) (row : list any) (headers : list string)
    (fieldMap : gmap string nat) : bool :=
  matchesClauses (where_ q) row fieldMap.

(** ** The record binder *)

Definition fieldKind (field : StructField) : Kind := kindOf (Zero field).

(** [reflect.New(elemType).Elem()]: a record with every field zero. *)
Definition zeroStruct (fields : list StructField) : list any := map Zero fields.

(** [Query.setFieldValue], on a field of kind [k]: the value the field
    holds afterwards, or the error returned. *)
Definition setFieldValue (k : Kind) (value : string) : result any :=
  match k with
  | String_ => Ok (Str value)
  | Int | Int8 | Int16 | Int32 | Int64 =>
    if value ==? "" then Ok (IntV k 0)
    else
      match Strconv.ParseInt value with
      | Err err => Err err
      | Ok intVal => Ok (IntV k (wrapInt (intBits k) intVal))
      end
  | Float32 | Float64 =>
    if value ==? "" then Ok (FloatV k F64.zero)
    else
      match ParseFloat value with
      | Err err => Err err
      | Ok floatVal =>
        Ok (FloatV k (if k is Float32 then F64.toFloat32 floatVal else floatVal))
      end
  | Bool =>
    if value ==? "" then Ok (BoolV false)
    else
      match Strconv.ParseBool value with
      | Err err => Err err
      | Ok boolVal => Ok (BoolV boolVal)
      end
  | _ => Err (ErrUnsupportedKind k)
  end.

(** The column a field is bound to: its tag, or its name when the tag
    is empty. *)
Definition boundColumn (field : StructField) : string :=
  if Tag field ==? "" then Name field else Tag field.

(** [Query.mapRowToStruct]: the loop over the fields of [dest].  The
    record is changed in place, so the fields set before an error stay
    set: the result is the record afterwards and the error, if any. *)
Fixpoint mapRowToStruct (row : list any) (fieldMap : gmap string nat)
    (fields : list StructField) (dest : list any) : list any * option error :=
  match fields, dest with
  | field :: fields', fieldValue :: dest' =>
    let continue :=
      let '(rest, err) := mapRowToStruct row fieldMap fields' dest' in
      (fieldValue :: rest, err) in
    if negb (Exported field) then continue
    else
      match fieldMap !! boundColumn field with
      | None => continue
      | Some colIndex =>
        match row !! colIndex with
        | None => continue
        | Some cell =>
          match setFieldValue (fieldKind field) (Sprint cell) with
          | Err err => (dest, Some (ErrSetField (Name field) err))
          | Ok v =>
            let '(rest, err) := mapRowToStruct row fieldMap fields' dest' in
            (v :: rest, err)
          end
        end
      end
  | _, _ => (dest, None)
  end.

(** ** Reading: [Query.Get] *)

(** The header map: [fieldMap[header] = i] for each header in turn, so
    the last of two equal headers wins. *)
Fixpoint buildFieldMap (i : nat) (headers : list string)
    (fieldMap : gmap string nat) : gmap string nat :=
  match headers with
  | nil => fieldMap
  | header :: rest => buildFieldMap (S i) rest (<[header := i]> fieldMap)
  end.

Definition headerMap (headers : list string) : gmap string nat :=
  buildFieldMap 0 headers ∅.

(** The loop of [Get] over the data rows, [resp.Values[1:]], from the
    row at index [rowIndex] on.  [slice] is the destination slice, of
    records of type [fields]; the result is the slice afterwards and
    the error returned, if any. *)
Fixpoint Get_loop (q : Query) (fields : list StructField) (headers : list string)
    (fieldMap : gmap string nat) (rowIndex : nat) (rows : list (list any))
    (slice : list (list any)) : list (list any) * option error :=
  match rows with
  | nil => (slice, None)
  | row :: rest =>
    if negb (matchesWhere q row headers fieldMap)
    then Get_loop q fields headers fieldMap (S rowIndex) rest slice
    else if (0 <? offset q) && (Z.of_nat rowIndex <? offset q)
    then Get_loop q fields headers fieldMap (S rowIndex) rest slice
    else if (0 <? limit q) && (limit q <=? Z.of_nat (length slice))
    then (slice, None)
    else
      match mapRowToStruct row fieldMap fields (zeroStruct fields) with
      | (_, Some err) => (slice, Some (ErrMapRow err))
      | (elem, None) =>
        Get_loop q fields headers fieldMap (S rowIndex) rest (slice ++ elem :: nil)
      end
  end.

(** ** The operations on the sheet *)

Section Operations.
Context {W : Type} (service : Service W).

(** [Query.Get]: the destination afterwards and the error returned. *)
Definition Get (q : Query) (dest : Dest) (w : W) : (Dest * option error) * W :=
  match dest with
  | NotSlicePtr => ((dest, Some ErrDestNotSlice), w)
  | SlicePtr fields slice =>
    let readRange := sheetName q ++ "!A:Z" in
    let '(resp, w1) := ValuesGet service readRange w in
    match resp with
    | Err err => ((dest, Some (ErrReadSheet err)), w1)
    | Ok nil => ((dest, None), w1)
    | Ok (header :: rows) =>
      let headers := map Sprint header in
      let fieldMap := headerMap headers in
      let '(slice', err) := Get_loop q fields headers fieldMap 0 rows slice in
      ((SlicePtr fields slice', err), w1)
    end
  end.

(** [copy(make([]interface{}, n), row)]. *)
Definition copyRow (n : nat) (row : list any) : list any :=
  take n row ++ replicate (n - length row) Nil.

(** The loop of [Update] and [Insert] over the fields of the record:
    the value of each bound field is stored at its column.
    [fieldValue.Interface()] panics on an unexported field: [None]. *)
Fixpoint storeFields (fieldMap : gmap string nat) (fields : list StructField)
    (values : list any) (row : list any) : option (list any) :=
  match fields, values with
  | field :: fields', fieldValue :: values' =>
    match fieldMap !! boundColumn field with
    | None => storeFields fieldMap fields' values' row
    | Some colIndex =>
      if Exported field
      then storeFields fieldMap fields' values' (<[colIndex := fieldValue]> row)
      else None
    end
  | _, _ => Some row
  end.

(** [fmt.Sprintf("%s!A%d:Z%d", sheetName, n, n)]. *)
Definition rowRange (sheet : string) (n : Z) : string :=
  sheet ++ "!A" ++ Strconv.FormatInt n ++ ":Z" ++ Strconv.FormatInt n.

(** The loop of [Update] over the data rows: the number of rows
    updated, or the error that ended the loop. *)
Fixpoint Update_loop (q : Query) (fields : list StructField) (values : list any)
    (headers : list string) (fieldMap : gmap string nat) (rowIndex : nat)
    (rows : list (list any)) (updatedRows : Z) (w : W) : outcome (result Z) * W :=
  match rows with
  | nil => (Returns (Ok updatedRows), w)
  | row :: rest =>
    if negb (matchesWhere q row headers fieldMap)
    then Update_loop q fields values headers fieldMap (S rowIndex) rest updatedRows w
    else
      let actualRowIndex := Z.of_nat rowIndex + 2 in
      match storeFields fieldMap fields values (copyRow (length headers) row) with
      | None => (Panics, w)
      | Some updatedRow =>
        let updateRange := rowRange (sheetName q) actualRowIndex in
        let '(err, w1) := ValuesUpdate service updateRange (updatedRow :: nil) w in
        match err with
        | Some err => (Returns (Err (ErrUpdateRow actualRowIndex err)), w1)
        | None =>
          Update_loop q fields values headers fieldMap (S rowIndex) rest
            (updatedRows + 1) w1
        end
      end
  end.

(** [Query.Update]: [Returns None] is a nil error. *)
Definition Update (q : Query) (data : Data) (w : W) : outcome (option error) * W :=
  match data with
  | NotStruct => (Returns (Some ErrDataNotStruct), w)
  | StructData fields values =>
    let readRange := sheetName q ++ "!A:Z" in
    let '(resp, w1) := ValuesGet service readRange w in
    match resp with
    | Err err => (Returns (Some (ErrReadSheet err)), w1)
    | Ok nil => (Returns (Some ErrNoData), w1)
    | Ok (header :: rows) =>
      let headers := map Sprint header in
      let fieldMap := headerMap headers in
      match Update_loop q fields values headers fieldMap 0 rows 0 w1 with
      | (Panics, w2) => (Panics, w2)
      | (Returns (Err err), w2) => (Returns (Some err), w2)
      | (Returns (Ok updatedRows), w2) =>
        if updatedRows =? 0 then (Returns (Some ErrNoRowsMatched), w2)
        else (Returns None, w2)
      end
    end
  end.

(** The first loop of [Delete]: the sheet row numbers of the matching
    rows, in order. *)
Fixpoint rowsToDelete (q : Query) (headers : list string) (fieldMap : gmap string nat)
    (rowIndex : nat) (rows : list (list any)) : list Z :=
  match rows with
  | nil => nil
  | row :: rest =>
    if matchesWhere q row headers fieldMap
    then (Z.of_nat rowIndex + 2) :: rowsToDelete q headers fieldMap (S rowIndex) rest
    else rowsToDelete q headers fieldMap (S rowIndex) rest
  end.

(** [Query.getSheetId]: the id of the first sheet with the title of the
    query; [0] when there is none or the call fails. *)
Definition getSheetId (q : Query) (w : W) : Z * W :=
  let '(resp, w1) := SpreadsheetsGet service w in
  match resp with
  | Err _ => (0, w1)
  | Ok sheets =>
    match List.find (fun sheet => fst sheet ==? sheetName q) sheets with
    | Some sheet => (snd sheet, w1)
    | None => (0, w1)
    end
  end.

(** The second loop of [Delete], over the row numbers from the last to
    the first: [pending] holds them last first. *)
Fixpoint Delete_loop (q : Query) (pending : list Z) (w : W) : option error * W :=
  match pending with
  | nil => (None, w)
  | rowIndex :: rest =>
    let '(sheetId, w1) := getSheetId q w in
    let '(err, w2) := DeleteRows service sheetId (rowIndex - 1) rowIndex w1 in
    match err with
    | Some err => (Some (ErrDeleteRow rowIndex err), w2)
    | None => Delete_loop q rest w2
    end
  end.

(** [Query.Delete]. *)
Definition Delete (q : Query) (w : W) : option error * W :=
  let readRange := sheetName q ++ "!A:Z" in
  let '(resp, w1) := ValuesGet service readRange w in
  match resp with
  | Err err => (Some (ErrReadSheet err), w1)
  | Ok nil => (Some ErrNoData, w1)
  | Ok (header :: rows) =>
    let headers := map Sprint header in
    let fieldMap := headerMap headers in
    let matched := rowsToDelete q headers fieldMap 0 rows in
    if Nat.eqb (length matched) 0 then (Some ErrNoRowsMatched, w1)
    else Delete_loop q (List.rev matched) w1
  end.

End Operations.

End Engine.

(** ** Regular expressions

    The fragment of Go's [regexp] syntax that the WHERE parser is
    written in: literals (also under the flag [i]), the classes [\w],
    [\s] and [.], greedy [+] and [*] on a class, sequence, alternation
    and capturing groups.  Matching is leftmost-first: at the leftmost
    position where a match starts, an alternation prefers its left
    branch and a repetition prefers to take more. *)
Module Regexp.
Import Bytes.

Inductive re : Type :=
| Lit (s : string)              (* the bytes of [s] *)
| LitFold (s : string)          (* the letters of [s], in either case *)
| Plus (p : ascii -> bool)      (* [c+] for a class [c] *)
| Star (p : ascii -> bool)      (* [c*] for a class [c] *)
| Seq (r1 r2 : re)
| Alt (r1 r2 : re)
| Group (i : nat) (r : re)      (* the [i]-th capturing group *).

(** [s] without its prefix [lit], when it starts with it. *)
Fixpoint stripPrefix (eq : ascii -> ascii -> bool) (lit s : string) : option string :=
  match lit, s with
  | EmptyString, _ => Some s
  | String a lit', String c s' => if eq a c then stripPrefix eq lit' s' else None
  | String _ _, EmptyString => None
  end.

Definition eqFold (a c : ascii) : bool := Ascii.eqb (lower a) (lower c).

Section Exec.
Context {R : Type}.

(** Greedy repetition of a class, then the continuation [k]; when [k]
    fails the repetition gives one byte back. *)
Fixpoint star (p : ascii -> bool) (s : string) (k : string -> option R) : option R :=
  match s with
  | String c s' =>
    if p c then
      match star p s' k with
      | Some r => Some r
      | None => k s
      end
    else k s
  | EmptyString => k s
  end.

Definition plus (p : ascii -> bool) (s : string) (k : string -> option R) : option R :=
  match s with
  | String c s' => if p c then star p s' k else None
  | EmptyString => None
  end.

(** What was read between the input [s] and its suffix [rest]. *)
Definition consumed (s rest : string) : string :=
  take (String.length s - String.length rest) s.

(** The backtracking matcher: [exec r s caps k] matches [r] at the
    start of [s] and hands the rest of the input and the captures to
    [k]; the first way to match for which [k] succeeds is the result. *)
Fixpoint exec (r : re) (s : string) (caps : list string)
    (k : string -> list string -> option R) : option R :=
  match r with
  | Lit lit =>
    match stripPrefix Ascii.eqb lit s with
    | Some rest => k rest caps
    | None => None
    end
  | LitFold lit =>
    match stripPrefix eqFold lit s with
    | Some rest => k rest caps
    | None => None
    end
  | Plus p => plus p s (fun rest => k rest caps)
  | Star p => star p s (fun rest => k rest caps)
  | Seq r1 r2 => exec r1 s caps (fun s1 caps1 => exec r2 s1 caps1 k)
  | Alt r1 r2 =>
    match exec r1 s caps k with
    | Some x => Some x
    | None => exec r2 s caps k
    end
  | Group i r1 =>
    exec r1 s caps (fun rest caps1 => k rest (<[i := consumed s rest]> caps1))
  end.

End Exec.

(** The number of capturing groups. *)
Fixpoint groups (r : re) : nat :=
  match r with
  | Seq r1 r2 | Alt r1 r2 => groups r1 + groups r2
  | Group _ r1 => S (groups r1)
  | _ => O
  end.

(** A match of [r] at the start of [s]: the submatches (the whole match
    first) and the input after the match. *)
Definition matchAt (r : re) (s : string) : option (list string * string) :=
  exec (Group 0 r) s (replicate (S (groups r)) EmptyString)
    (fun rest caps => Some (caps, rest)).

(** [Regexp.FindStringSubmatch]: the submatches of the leftmost match,
    [nil] when there is none. *)
Fixpoint FindStringSubmatch (r : re) (s : string) : list string :=
  match matchAt r s with
  | Some (caps, _) => caps
  | None =>
    match s with
    | EmptyString => nil
    | String _ s' => FindStringSubmatch r s'
    end
  end.

(** The scan of [Split]: [piece] holds, last byte first, what was read
    since the last match. [fuel] bounds the steps: a step reads a match
    or a byte. *)
Fixpoint splitLoop (r : re) (fuel : nat) (s piece : string) : list string :=
  match fuel with
  | O => (rev piece ++ s) :: nil
  | S fuel' =>
    match matchAt r s with
    | Some (_, rest) => rev piece :: splitLoop r fuel' rest EmptyString
    | None =>
      match s with
      | EmptyString => rev piece :: nil
      | String c s' => splitLoop r fuel' s' (String c piece)
      end
    end
  end.

(** [Regexp.Split(s, -1)] for an expression whose matches are never
    empty: the pieces of [s] between the successive leftmost matches. *)
Definition Split (r : re) (s : string) : list string :=
  splitLoop r (S (String.length s)) s EmptyString.

End Regexp.

(** ** The WHERE parser of [sql.go] *)

Module Patterns.
Import Bytes Regexp.

(** [(?i)\s+AND\s+] *)
Definition andRegex : re :=
  Seq (Plus isSpace) (Seq (LitFold "AND") (Plus isSpace)).

(** [=|!=|<>|<=|>=|<|>|LIKE] *)
Definition operators : re :=
  Alt (Lit "=") (Alt (Lit "!=") (Alt (Lit "<>") (Alt (Lit "<=")
    (Alt (Lit ">=") (Alt (Lit "<") (Alt (Lit ">") (Lit "LIKE"))))))).

(** [(\w+)\s*(=|!=|<>|<=|>=|<|>|LIKE)\s*(.+)] *)
Definition operatorRegex : re :=
  Seq (Group 1 (Plus isWord))
    (Seq (Star isSpace)
      (Seq (Group 2 operators)
        (Seq (Star isSpace) (Group 3 (Plus notNewline))))).

(** The cutset of [strings.Trim(matches[3], ...)]: the single and the
    double quote. *)
Definition quotes : string := String squote (String dquote EmptyString).

End Patterns.

Section Parser.
Context `{RT : GoRuntime}.

(** The coercion of the value of a condition, lines 88 to 97 of
    [sql.go]: an [int], else a [float64], else a [bool], else the
    string itself. *)
Definition coerceValue (value : string) : any :=
  match Strconv.Atoi value with
  | Ok intVal => IntV Int intVal
  | Err _ =>
    match ParseFloat value with
    | Ok floatVal => FloatV Float64 floatVal
    | Err _ =>
      match Strconv.ParseBool value with
      | Ok boolVal => BoolV boolVal
      | Err _ => Str value
      end
    end
  end.

(** The body of the loop of [parseWhere] on one condition: the clause
    that [query.Where] appends, or the error returned. *)
Definition parseCondition (condition : string) : result WhereClause :=
  let condition := GoStrings.TrimSpace condition in
  match Regexp.FindStringSubmatch Patterns.operatorRegex condition with
  | _ :: column :: operator :: raw :: nil =>
    let value := GoStrings.Trim raw Patterns.quotes in
    let operator := if operator ==? "<>" then "!=" else operator in
    Ok {| Column := column; Operator := operator; Value := coerceValue value |}
  | _ => Err (ErrInvalidWhere condition)
  end.

Fixpoint parseConditions (query : Query) (conditions : list string)
    : Query * option error :=
  match conditions with
  | nil => (query, None)
  | condition :: rest =>
    match parseCondition condition with
    | Err err => (query, Some err)
    | Ok clause =>
      parseConditions (Where query (Column clause) (Operator clause) (Value clause)) rest
    end
  end.

(** [SQLParser.parseWhere]: the query afterwards (the clauses parsed
    before an error stay appended) and the error returned. *)
Definition parseWhere (query : Query) (whereClause : string) : Query * option error :=
  parseConditions query (Regexp.Split Patterns.andRegex whereClause).

End Parser.

(** ** A reference runtime

    [strconv.ParseFloat] and [strconv.FormatFloat] over exact integer
    arithmetic, and [strings.ToLower] for ASCII text. *)
Module Atof.
Import Bytes.

(** The scan of [readFloat] over the digits: [base] is 10 or 16,
    [mant] the digits read as a number, [nd] how many there are after
    the leading zeros, [dp] the position of the point. *)
Record scan : Set := {
  mant : Z; nd : Z; dp : Z;
  sawdot : bool; sawdigits : bool; underscores : bool
}.

Definition isHexLetter (c : ascii) : bool := between 97 102 (lower c).

Fixpoint readDigits (base : Z) (st : scan) (s : string) : scan * string :=
  match s with
  | EmptyString => (st, s)
  | String c s' =>
    if (code c =? 95)%N then
      readDigits base
        {| mant := mant st; nd := nd st; dp := dp st; sawdot := sawdot st;
           sawdigits := sawdigits st; underscores := true |} s'
    else if (code c =? 46)%N then
      if sawdot st then (st, s)
      else
        readDigits base
          {| mant := mant st; nd := nd st; dp := nd st; sawdot := true;
             sawdigits := sawdigits st; underscores := underscores st |} s'
    else if isDigit c then
      if (code c =? 48)%N && (nd st =? 0) then
        readDigits base
          {| mant := mant st; nd := nd st; dp := dp st - 1; sawdot := sawdot st;
             sawdigits := true; underscores := underscores st |} s'
      else
        readDigits base
          {| mant := mant st * base + digitVal c; nd := nd st + 1; dp := dp st;
             sawdot := sawdot st; sawdigits := true; underscores := underscores st |} s'
    else if (base =? 16) && isHexLetter c then
      readDigits base
        {| mant := mant st * 16 + (Z.of_N (code (lower c)) - 97 + 10);
           nd := nd st + 1; dp := dp st; sawdot := sawdot st;
           sawdigits := true; underscores := underscores st |} s'
    else (st, s)
  end.

(** The digits of the exponent; the value stops growing at 10000. *)
Fixpoint readExp (e : Z) (us : bool) (s : string) : Z * bool * string :=
  match s with
  | String c s' =>
    if (code c =? 95)%N then readExp e true s'
    else if isDigit c then readExp (if e <? 10000 then e * 10 + digitVal c else e) us s'
    else (e, us, s)
  | EmptyString => (e, us, s)
  end.

(** [underscoreOK]: an underscore stands between two digits, or between
    a base prefix and a digit. *)
Fixpoint underscoreLoop (hex : bool) (saw : ascii) (s : string) : bool :=
  match s with
  | EmptyString => negb (Ascii.eqb saw "_")
  | String c s' =>
    if isDigit c || (hex && isHexLetter c) then underscoreLoop hex "0" s'
    else if Ascii.eqb c "_" then
      if Ascii.eqb saw "0" then underscoreLoop hex "_" s' else false
    else if Ascii.eqb saw "_" then false
    else underscoreLoop hex "!" s'
  end.

Definition underscoreOK (s : string) : bool :=
  let s := snd (Strconv.splitSign s) in
  match s with
  | String c0 (String c1 s') =>
    if Ascii.eqb c0 "0" && (Ascii.eqb (lower c1) "b" || Ascii.eqb (lower c1) "o"
                            || Ascii.eqb (lower c1) "x")
    then underscoreLoop (Ascii.eqb (lower c1) "x") "0" s'
    else underscoreLoop false "^" s
  | _ => underscoreLoop false "^" s
  end.

(** What [readFloat] hands over when the whole of the string is a
    number: the sign, the base, the digits as a number and the exponent
    of the base (of two for a hexadecimal number). *)
Record number : Set := { neg : bool; hex : bool; digits : Z; exponent : Z }.

Definition readFloat (s : string) : option number :=
  let '(neg, s1) := Strconv.splitSign s in
  let '(hex, s2) :=
    match s1 with
    | String c0 (String c1 (String c2 rest)) =>
      if Ascii.eqb c0 "0" && Ascii.eqb (lower c1) "x"
      then (true, String c2 rest) else (false, s1)
    | _ => (false, s1)
    end in
  let base := if hex then 16 else 10 in
  let '(st, s3) :=
    readDigits base
      {| mant := 0; nd := 0; dp := 0; sawdot := false; sawdigits := false;
         underscores := false |} s2 in
  if negb (sawdigits st) then None
  else
    let dp0 := if sawdot st then dp st else nd st in
    let scale := if hex then 4 else 1 in
    let finish (e : Z) (us : bool) (rest : string) :=
      match rest with
      | EmptyString =>
        if us && negb (underscoreOK s) then None
        else Some {| neg := neg; hex := hex; digits := mant st;
                     exponent := scale * dp0 + e - scale * nd st |}
      | _ => None
      end in
    match s3 with
    | String c s4 =>
      if Ascii.eqb (lower c) (if hex then "p" else "e") then
        let '(esign, s5) :=
          match s4 with
          | String c' s5 =>
            if Ascii.eqb c' "+" then (1, s5)
            else if Ascii.eqb c' "-" then (-1, s5)
            else (1, s4)
          | EmptyString => (1, s4)
          end in
        match s5 with
        | String d _ =>
          if isDigit d then
            let '(e, us, s6) := readExp 0 (underscores st) s5 in
            finish (e * esign) us s6
          else None
        | EmptyString => None
        end
      else None
    | EmptyString => if hex then None else finish 0 (underscores st) s3
    end.

(** The binary64 number nearest to [m * 2^e] (ties to even). *)
Definition roundBinary (sign : bool) (m e : Z) : float64 :=
  binary_normalize F64.prec F64.emax (cond_Zopp sign m) e sign.

(** The binary64 number nearest to [num / den]: the quotient is taken
    with 64 bits or more and a last bit that records a remainder. *)
Definition roundRatio (sign : bool) (num den : Z) : float64 :=
  let sh := Z.max 0 (64 + Z.log2 den - Z.log2 num) in
  let q := (num * 2 ^ sh) / den in
  let sticky := if (num * 2 ^ sh) mod den =? 0 then 0 else 1 in
  roundBinary sign (2 * q + sticky) (- sh - 1).

Definition toFloat (n : number) : float64 :=
  if digits n =? 0 then S754_zero (neg n)
  else if hex n then
    if 2000 <? exponent n then S754_infinity (neg n)
    else if exponent n <? - 2000 - Z.log2 (digits n) then S754_zero (neg n)
    else roundBinary (neg n) (digits n) (exponent n)
  else if 310 <? exponent n then S754_infinity (neg n)
  else if 0 <=? exponent n then roundBinary (neg n) (digits n * 10 ^ exponent n) 0
  else if exponent n <? - 400 - Z.log2 (digits n) then S754_zero (neg n)
  else roundRatio (neg n) (digits n) (10 ^ (- exponent n)).

(** [special]: the infinities and NaN, in any case. *)
Definition special (s : string) : option float64 :=
  let l := GoStrings.ToLowerASCII s in
  if (l ==? "inf") || (l ==? "+inf") || (l ==? "infinity") || (l ==? "+infinity")
  then Some (S754_infinity false)
  else if (l ==? "-inf") || (l ==? "-infinity") then Some (S754_infinity true)
  else if l ==? "nan" then Some S754_nan
  else None.

(** [strconv.ParseFloat(s, 64)]: the nearest binary64 number; a number
    too large for the format is a range error. *)
Definition ParseFloat (s : string) : result float64 :=
  match special s with
  | Some f => Ok f
  | None =>
    match readFloat s with
    | None => Err (NumError "ParseFloat" s ErrSyntax)
    | Some n =>
      match toFloat n with
      | S754_infinity _ => Err (NumError "ParseFloat" s ErrRange)
      | f => Ok f
      end
    end
  end.

End Atof.

Module Ftoa.
Import Bytes.

(** [c * 10^k] compared with [num / den]. *)
Definition cmpScaled (c k num den : Z) : comparison :=
  if 0 <=? k then (c * 10 ^ k * den ?= num) else (c * den ?= num * 10 ^ (- k)).

(** The [t] with [10^t <= num / den < 10^(t+1)], found from an
    estimate by the binary logarithm. *)
Fixpoint exp10Loop (fuel : nat) (t num den : Z) : Z :=
  match fuel with
  | O => t
  | S fuel' =>
    match cmpScaled 1 (t + 1) num den with
    | Gt => t
    | _ => exp10Loop fuel' (t + 1) num den
    end
  end.

Definition exp10 (num den : Z) : Z :=
  exp10Loop 8 ((Z.log2 num - Z.log2 den) * 30103 / 100000 - 2) num den.

(** The shortest decimal [d * 10^k] that reads back as the number
    [f / den], whose neighbours in the format are half way at
    [lo / den] and [hi / den]; the bounds themselves read back as the
    number when [inclusive].  With [n] digits the candidates are [f]
    cut to [n] digits and the next decimal of [n] digits above; the
    nearer one is taken when both read back. *)
Fixpoint shortestLoop (fuel : nat) (n t f lo hi den : Z) (inclusive : bool) : Z * Z :=
  let k := t - (n - 1) in
  let down := if 0 <=? k then f / (den * 10 ^ k) else (f * 10 ^ (- k)) / den in
  let up := down + 1 in
  match fuel with
  | O => (down, k)
  | S fuel' =>
    let okdown :=
      match cmpScaled down k lo den with
      | Gt => true | Eq => inclusive | Lt => false
      end in
    let okup :=
      match cmpScaled up k hi den with
      | Lt => true | Eq => inclusive | Gt => false
      end in
    (* twice the number against the sum of the candidates *)
    let nearer := cmpScaled (down + up) k (2 * f) den in
    if okdown && okup then
      match nearer with
      | Gt => (down, k)
      | Lt => (up, k)
      | Eq => if Z.even down then (down, k) else (up, k)
      end
    else if okdown then (down, k)
    else if okup then (up, k)
    else shortestLoop fuel' (n + 1) t f lo hi den inclusive
  end.

Fixpoint stripZeros (fuel : nat) (d k : Z) : Z * Z :=
  match fuel with
  | O => (d, k)
  | S fuel' => if (d mod 10 =? 0) && negb (d =? 0) then stripZeros fuel' (d / 10) (k + 1) else (d, k)
  end.

(** The digits and the position of the point, [0.digits * 10^dp], of
    the shortest decimal for the number [m * 2^e] of a format with
    [prec] bits and least exponent [emin]. *)
Definition shortest (prec emin m e : Z) : string * Z :=
  let lowerClose := (m =? 2 ^ (prec - 1)) && (emin <? e) in
  let f := 4 * m in
  let hi := 4 * m + 2 in
  let lo := if lowerClose then 4 * m - 1 else 4 * m - 2 in
  let sc := e - 2 in
  let '(f, lo, hi, den) :=
    if 0 <=? sc then (f * 2 ^ sc, lo * 2 ^ sc, hi * 2 ^ sc, 1)
    else (f, lo, hi, 2 ^ (- sc)) in
  let t := exp10 f den in
  let inclusive := Z.even m in
  let '(d, k) :=
    match cmpScaled 1 (t + 1) hi den with
    | Lt => (1, t + 1)
    | Eq => if inclusive then (1, t + 1) else shortestLoop 20 1 t f lo hi den inclusive
    | Gt => shortestLoop 20 1 t f lo hi den inclusive
    end in
  let '(d, k) := stripZeros 20 d k in
  let ds := Strconv.FormatUint d in
  (ds, Z.of_nat (String.length ds) + k).

(** [%e]: one digit, the point, the other digits, and an exponent of
    two digits or more. *)
Definition fmtE (ds : string) (dp : Z) : string :=
  let exp := dp - 1 in
  let mantissa :=
    match ds with
    | String c EmptyString => ds
    | String c rest => String c (String "." rest)
    | EmptyString => "0"
    end in
  let digits := Strconv.FormatUint (Z.abs exp) in
  mantissa ++ "e" ++ (if exp <? 0 then "-" else "+")
    ++ (if Z.abs exp <? 10 then "0" else "") ++ digits.

(** [%f] with as many decimals as there are digits after the point. *)
Definition fmtF (ds : string) (dp : Z) : string :=
  let nd := Z.of_nat (String.length ds) in
  if dp <=? 0 then "0." ++ repeat "0" (Z.to_nat (- dp)) ++ ds
  else if nd <=? dp then ds ++ repeat "0" (Z.to_nat (dp - nd))
  else take (Z.to_nat dp) ds ++ "." ++ drop (Z.to_nat dp) ds.

(** [strconv.FormatFloat(f, 'g', -1, bitSize)]: the shortest decimal
    that reads back as [f], with an exponent when it is below [-4] or
    not below [6]. *)
Definition FormatFloat (f : float64) (bitSize : Z) : string :=
  let '(prec, emax) := if bitSize =? 32 then (24, 128) else (53, 1024) in
  let f := if bitSize =? 32 then F64.toFloat32 f else f in
  match f with
  | S754_nan => "NaN"
  | S754_infinity false => "+Inf"
  | S754_infinity true => "-Inf"
  | S754_zero s => if s then "-0" else "0"
  | S754_finite s m e =>
    let '(ds, dp) := shortest prec (3 - emax - prec) (Zpos m) e in
    let exp := dp - 1 in
    (if s then "-" else "")
      ++ (if (exp <? -4) || (6 <=? exp) then fmtE ds dp else fmtF ds dp)
  end.

End Ftoa.

(** The reference runtime. *)
#[export] Instance RefRuntime : GoRuntime := {|
  ParseFloat := Atof.ParseFloat;
  FormatFloat := Ftoa.FormatFloat;
  ToLower := GoStrings.ToLowerASCII
|}.


(** * The SQL front end and [Insert] *)

(** ** Runes

    Go's [regexp] reads its input rune by rune. *)
Module Utf8.
Import Bytes.

(** [utf8.RuneError], U+FFFD. *)
Definition RuneError : N := 65533.

(** The table [first] for a byte of 128 or more: the size of the
    encoding that the byte starts and the range of its second byte;
    size 1 for a byte that starts none. *)
Definition first (s0 : ascii) : nat * N * N :=
  if between 194 223 s0 then (2%nat, 128%N, 191%N)
  else if (code s0 =? 224)%N then (3%nat, 160%N, 191%N)
  else if between 225 236 s0 || between 238 239 s0 then (3%nat, 128%N, 191%N)
  else if (code s0 =? 237)%N then (3%nat, 128%N, 159%N)
  else if (code s0 =? 240)%N then (4%nat, 144%N, 191%N)
  else if between 241 243 s0 then (4%nat, 128%N, 191%N)
  else if (code s0 =? 244)%N then (4%nat, 128%N, 143%N)
  else (1%nat, 0%N, 0%N).

(** The low six bits of a continuation byte. *)
Definition low6 (c : ascii) : N := N.land (code c) 63.

(** [utf8.DecodeRuneInString]: the first rune of the string and its
    width in bytes; [RuneError] with width 1 where the bytes are no
    encoding, with width 0 for the empty string. *)
Definition DecodeRuneInString (s : string) : N * nat :=
  match s with
  | EmptyString => (RuneError, 0%nat)
  | String s0 rest =>
    if (code s0 <? 128)%N then (code s0, 1%nat)
    else
      let '(sz, lo, hi) := first s0 in
      if Nat.eqb sz 1 then (RuneError, 1%nat)
      else if (String.length s <? sz)%nat then (RuneError, 1%nat)
      else
        match rest with
        | String s1 rest1 =>
          if negb (between lo hi s1) then (RuneError, 1%nat)
          else if (sz <=? 2)%nat then
            (N.lor (N.shiftl (N.land (code s0) 31) 6) (low6 s1), 2%nat)
          else
            match rest1 with
            | String s2 rest2 =>
              if negb (between 128 191 s2) then (RuneError, 1%nat)
              else if (sz <=? 3)%nat then
                (N.lor (N.shiftl (N.land (code s0) 15) 12)
                   (N.lor (N.shiftl (low6 s1) 6) (low6 s2)), 3%nat)
              else
                match rest2 with
                | String s3 _ =>
                  if negb (between 128 191 s3) then (RuneError, 1%nat)
                  else
                    (N.lor (N.shiftl (N.land (code s0) 7) 18)
                       (N.lor (N.shiftl (low6 s1) 12)
                          (N.lor (N.shiftl (low6 s2) 6) (low6 s3))), 4%nat)
                | EmptyString => (RuneError, 1%nat)
                end
            | EmptyString => (RuneError, 1%nat)
            end
        | EmptyString => (RuneError, 1%nat)
        end
  end.

End Utf8.

(** ** Regular expressions, second part

    The fragment of Go's [regexp] syntax that [parseSQL] is written in:
    the anchors [^] and [$], letters under the flag [i], [c+] and [c+?]
    on a class [c] of runes, sequence, the optional group [(?:r)?] and
    capturing groups.  Matching is leftmost-first, as above: a greedy
    repetition and an optional group prefer to take more, a lazy
    repetition prefers to take less. *)
Module Backtrack.
Import Bytes.

(** A class of runes. *)
Definition class : Type := N -> bool.

(** [\s]: [\t\n\f\r ]. *)
Definition space : class :=
  fun r => (r =? 9)%N || (r =? 10)%N || (r =? 12)%N || (r =? 13)%N || (r =? 32)%N.

(** [\d]: [0-9]. *)
Definition digit : class := fun r => (48 <=? r)%N && (r <=? 57)%N.

(** [\w] under the flag [i]: [0-9A-Za-z_] and the two runes that fold
    to a letter, U+017F (to [s]) and U+212A (to [k]). *)
Definition wordFold : class :=
  fun r =>
    digit r || ((65 <=? r)%N && (r <=? 90)%N) || ((97 <=? r)%N && (r <=? 122)%N)
    || (r =? 95)%N || (r =? 383)%N || (r =? 8490)%N.

(** [.]: any rune but a line feed. *)
Definition anyCharNotNL : class := fun r => negb (r =? 10)%N.

(** A letter under the flag [i]: the runes of its orbit under
    [unicode.SimpleFold], which are its two cases and, for [s] and [k],
    U+017F and U+212A. *)
Definition foldOf (a : ascii) : class :=
  fun r =>
    (r =? code a)%N
    || (isUpper a && (r =? code a + 32)%N)
    || (isLower a && (r =? code a - 32)%N)
    || (Ascii.eqb (lower a) "s" && (r =? 383)%N)
    || (Ascii.eqb (lower a) "k" && (r =? 8490)%N).

(** One step of the matcher: the input after its first rune, when there
    is one and it is in the class. *)
Definition step (c : class) (s : string) : option string :=
  let '(r, width) := Utf8.DecodeRuneInString s in
  if (0 <? width)%nat && c r then Some (drop width s) else None.

Inductive re : Type :=
| BeginText                     (* [^] *)
| EndText                       (* [$] *)
| Fold (lit : string)           (* the letters of [lit] under the flag [i] *)
| Plus (c : class)              (* [c+] *)
| LazyPlus (c : class)          (* [c+?] *)
| Seq (r1 r2 : re)
| Opt (r : re)                  (* [(?:r)?] *)
| Group (i : nat) (r : re)      (* the [i]-th capturing group *).

Section Exec.
Context {R : Type}.

(** The letters of a literal, one rune of the input for each. *)
Fixpoint stripFold (lit s : string) : option string :=
  match lit with
  | EmptyString => Some s
  | String a lit' =>
    match step (foldOf a) s with
    | Some rest => stripFold lit' rest
    | None => None
    end
  end.

(** [c+], then the continuation [k]: one rune more is tried before [k].
    A step reads a byte or more, so [fuel] bytes of input need no more
    than [fuel] steps. *)
Fixpoint plusLoop (fuel : nat) (c : class) (s : string) (k : string -> option R)
    : option R :=
  match step c s with
  | None => None
  | Some rest =>
    match fuel with
    | O => k rest
    | S fuel' =>
      match plusLoop fuel' c rest k with
      | Some x => Some x
      | None => k rest
      end
    end
  end.

(** [c+?], then the continuation [k]: [k] is tried before one rune
    more. *)
Fixpoint lazyLoop (fuel : nat) (c : class) (s : string) (k : string -> option R)
    : option R :=
  match step c s with
  | None => None
  | Some rest =>
    match k rest with
    | Some x => Some x
    | None =>
      match fuel with
      | O => None
      | S fuel' => lazyLoop fuel' c rest k
      end
    end
  end.

(** The backtracking matcher on the input [text]: [exec r s caps k]
    matches [r] at the start of the suffix [s] of [text] and hands the
    rest of the input and the captures to [k]; the first way to match
    for which [k] succeeds is the result. *)
Fixpoint exec (text : string) (r : re) (s : string) (caps : list string)
    (k : string -> list string -> option R) : option R :=
  match r with
  | BeginText =>
    if Nat.eqb (String.length s) (String.length text) then k s caps else None
  | EndText =>
    match s with
    | EmptyString => k s caps
    | String _ _ => None
    end
  | Fold lit =>
    match stripFold lit s with
    | Some rest => k rest caps
    | None => None
    end
  | Plus c => plusLoop (String.length s) c s (fun rest => k rest caps)
  | LazyPlus c => lazyLoop (String.length s) c s (fun rest => k rest caps)
  | Seq r1 r2 => exec text r1 s caps (fun s1 caps1 => exec text r2 s1 caps1 k)
  | Opt r1 =>
    match exec text r1 s caps k with
    | Some x => Some x
    | None => k s caps
    end
  | Group i r1 =>
    exec text r1 s caps
      (fun rest caps1 => k rest (<[i := Regexp.consumed s rest]> caps1))
  end.

End Exec.

(** The number of capturing groups. *)
Fixpoint groups (r : re) : nat :=
  match r with
  | Seq r1 r2 => groups r1 + groups r2
  | Opt r1 => groups r1
  | Group _ r1 => S (groups r1)
  | _ => O
  end.

(** A match of [r] at the start of the suffix [s] of [text]: the
    submatches (the whole match first; a group that takes no part is
    empty) and the input after the match. *)
Definition matchAt (text : string) (r : re) (s : string)
    : option (list string * string) :=
  exec text (Group 0 r) s (replicate (S (groups r)) EmptyString)
    (fun rest caps => Some (caps, rest)).

(** The input after its first rune. *)
Definition next (s : string) : string :=
  drop (Nat.max 1 (snd (Utf8.DecodeRuneInString s))) s.

(** The scan for the leftmost match, a rune at a time. *)
Fixpoint findLoop (text : string) (r : re) (fuel : nat) (s : string) : list string :=
  match matchAt text r s with
  | Some (caps, _) => caps
  | None =>
    match fuel, s with
    | S fuel', String _ _ => findLoop text r fuel' (next s)
    | _, _ => nil
    end
  end.

(** [Regexp.FindStringSubmatch]: the submatches of the leftmost match,
    [nil] when there is none. *)
Definition FindStringSubmatch (r : re) (text : string) : list string :=
  findLoop text r (String.length text) text.

(** The scan of [ReplaceAllString]: each match is replaced, what lies
    between two matches is copied. *)
Fixpoint replaceLoop (text : string) (r : re) (repl : string) (fuel : nat) (s : string)
    : string :=
  match fuel with
  | O => s
  | S fuel' =>
    match matchAt text r s with
    | Some (_, rest) => repl ++ replaceLoop text r repl fuel' rest
    | None =>
      match s with
      | EmptyString => EmptyString
      | String _ _ =>
        Regexp.consumed s (next s) ++ replaceLoop text r repl fuel' (next s)
      end
    end
  end.

(** [Regexp.ReplaceAllString(src, repl)] for an expression whose
    matches are never empty and a replacement without [$]. *)
Definition ReplaceAllString (r : re) (src repl : string) : string :=
  replaceLoop src r repl (S (String.length src)) src.

End Backtrack.

(** ** [parseSQL] *)

Module Statement.
Import Backtrack.

Local Infix "~>" := Seq (at level 65, right associativity).

(** [\s+] *)
Definition spaces : re := Plus space.

(** [(?i)^SELECT\s+(.+?)\s+FROM\s+(\w+)(?:\s+WHERE\s+(.+?))?(?:\s+LIMIT\s+(\d+))?(?:\s+OFFSET\s+(\d+))?$] *)
Definition selectRegex : re :=
  BeginText ~> Fold "SELECT" ~> Plus space ~> Group 1 (LazyPlus anyCharNotNL) ~>
  Plus space ~> Fold "FROM" ~> Plus space ~> Group 2 (Plus wordFold) ~>
  Opt (Plus space ~> Fold "WHERE" ~> Plus space ~> Group 3 (LazyPlus anyCharNotNL)) ~>
  Opt (Plus space ~> Fold "LIMIT" ~> Plus space ~> Group 4 (Plus digit)) ~>
  Opt (Plus space ~> Fold "OFFSET" ~> Plus space ~> Group 5 (Plus digit)) ~>
  EndText.

End Statement.

(** The errors of the SQL front end and of [Insert]: those of the
    engine and one constructor for each further [fmt.Errorf] format. *)
Inductive failure : Set :=
| Engine (e : error)
    (* an error of the engine, returned as it is *)
| ErrParseSQL (cause : failure)
    (* "failed to parse SQL: %w" *)
| ErrInvalidLimit (cause : error)
    (* "invalid LIMIT value: %w" *)
| ErrInvalidOffset (cause : error)
    (* "invalid OFFSET value: %w" *)
| ErrReadHeaders (cause : error)
    (* "failed to read headers: %w" *)
| ErrNoHeaders
    (* "no headers found in sheet" *)
| ErrInsertRow (cause : error)
    (* "failed to insert row: %w" *).

(** The result of a call that returns [(T, error)] with such an error. *)
Inductive attempt (A : Type) : Type :=
| Success (a : A)
| Failure (e : failure).
Arguments Success {A} a.
Arguments Failure {A} e.

Module SQLParser.
Section FrontEnd.
Context `{RT : GoRuntime}.

(** The statement as [selectRegex] reads it: trimmed, every run of
    white space a single blank. *)
Definition normalize (sql : string) : string :=
  Backtrack.ReplaceAllString Statement.spaces (GoStrings.TrimSpace sql) " ".

(** [strconv.Atoi] on the digits of a LIMIT or an OFFSET, when there
    are any: the query with the number set by [set], or the error
    wrapped by [wrap]. *)
Definition setNumber (set : Query -> Z -> Query) (wrap : error -> failure)
    (digits : string) (query : Query) : attempt Query :=
  if negb (digits ==? "") then
    match Strconv.Atoi digits with
    | Err err => Failure (wrap err)
    | Ok n => Success (set query n)
    end
  else Success query.

(** [SQLParser.parseSQL].  The expression has five groups, so that
    [matches] has six entries whenever it has any. *)
Definition parseSQL (sql : string) : attempt Query :=
  let sql := normalize sql in
  let matches := Backtrack.FindStringSubmatch Statement.selectRegex sql in
  if Nat.eqb (length matches) 0 then Failure (Engine ErrInvalidSQL)
  else
    let tableName := nth 2 matches "" in
    let query := From tableName in
    let '(query, err) :=
      if negb (nth 3 matches "" ==? "") then parseWhere query (nth 3 matches "")
      else (query, None) in
    match err with
    | Some err => Failure (Engine (ErrParseWhere err))
    | None =>
      match setNumber Limit ErrInvalidLimit (nth 4 matches "") query with
      | Failure err => Failure err
      | Success query => setNumber Offset ErrInvalidOffset (nth 5 matches "") query
      end
    end.

(** [SQLParser.Query]: the destination afterwards and the error
    returned. *)
Definition Query {W : Type} (service : Service W) (sql : string) (dest : Dest) (w : W)
    : (Dest * option failure) * W :=
  match parseSQL sql with
  | Failure err => ((dest, Some (ErrParseSQL err)), w)
  | Success query =>
    let '((dest', err), w1) := Get service query dest w in
    ((dest', option_map Engine err), w1)
  end.

End FrontEnd.
End SQLParser.

(** ** [Query.Insert] *)

Section Insertion.
Context `{RT : GoRuntime} {W : Type} (service : Service W).

(** [Spreadsheets.Values.Append(id, range, values).ValueInputOption("RAW").InsertDataOption("INSERT_ROWS").Do()] *)
Variable ValuesAppend : string -> list (list any) -> W -> option error * W.

(** [Query.Insert]: [Returns None] is a nil error. *)
Definition Insert (q : Query) (data : Data) (w : W) : outcome (option failure) * W :=
  match data with
  | NotStruct => (Returns (Some (Engine ErrDataNotStruct)), w)
  | StructData fields values =>
    let readRange := sheetName q ++ "!1:1" in
    let '(resp, w1) := ValuesGet service readRange w in
    match resp with
    | Err err => (Returns (Some (ErrReadHeaders err)), w1)
    | Ok nil => (Returns (Some ErrNoHeaders), w1)
    | Ok (header :: _) =>
      let headers := map Sprint header in
      let fieldMap := headerMap headers in
      match storeFields fieldMap fields values (replicate (length headers) Nil) with
      | None => (Panics, w1)
      | Some row =>
        let writeRange := sheetName q ++ "!A:Z" in
        let '(err, w2) := ValuesAppend writeRange (row :: nil) w1 in
        match err with
        | Some err => (Returns (Some (ErrInsertRow err)), w2)
        | None => (Returns None, w2)
        end
      end
    end
  end.

End Insertion.


(** * The vocabulary of the claims *)

(** ** Strings *)

(** The lexicographic order of two strings by their bytes. *)
Inductive lex_lt : string -> string -> Prop :=
| lex_lt_nil c s : lex_lt "" (String c s)
| lex_lt_head c d s t : (Bytes.code c < Bytes.code d)%N -> lex_lt (String c s) (String d t)
| lex_lt_tail c s t : lex_lt s t -> lex_lt (String c s) (String c t).

(** [sub] occurs in [s]. *)
Definition isSubstring (sub s : string) : Prop :=
  exists pre post, s = pre ++ sub ++ post.

(** The first byte of the string is in the class. *)
Definition headIs (p : ascii -> bool) (s : string) : bool :=
  match s with
  | String c _ => p c
  | EmptyString => false
  end.

(** ** The ordering comparator *)

(** The four ordering operators and their spelling. *)
Inductive ordering : Set := OpGt | OpLt | OpGe | OpLe.

Definition symbol (o : ordering) : string :=
  match o with OpGt => ">" | OpLt => "<" | OpGe => ">=" | OpLe => "<=" end.

(** The comparison of two numbers. *)
Definition numerically (o : ordering) (x y : float64) : bool :=
  match o with
  | OpGt => F64.ltb y x
  | OpLt => F64.ltb x y
  | OpGe => F64.leb y x
  | OpLe => F64.leb x y
  end.

(** The comparison of two strings in the lexicographic order. *)
Definition lexically (o : ordering) (a b : string) : Prop :=
  match o with
  | OpGt => lex_lt b a
  | OpLt => lex_lt a b
  | OpGe => b = a \/ lex_lt b a
  | OpLe => a = b \/ lex_lt a b
  end.

(** ** The predicate evaluator *)

(** A clause is vacuous on a row when its column is absent from the
    header map or lies beyond the end of the row. *)
Definition vacuous (fieldMap : gmap string nat) (row : list any)
    (clause : WhereClause) : Prop :=
  match fieldMap !! Column clause with
  | None => True
  | Some colIndex => (length row <= colIndex)%nat
  end.

(** The query without its [n]-th clause. *)
Definition withoutClause (n : nat) (q : Query) : Query :=
  {| sheetName := sheetName q; where_ := delete n (where_ q);
     limit := limit q; offset := offset q |}.

(** What a clause asks of a cell, both in their string forms: equality
    for [=] and [==], difference for [!=], the ordering comparator for
    the ordering operators, and for [LIKE] that the value occurs in the
    cell once both are in lower case. *)
Definition holds `{RT : GoRuntime} (operator cellValue expectedValue : string) : Prop :=
  (operator = "=" \/ operator = "==" -> cellValue = expectedValue)
  /\ (operator = "!=" -> cellValue <> expectedValue)
  /\ (forall o, operator = symbol o ->
        compareValues cellValue expectedValue (symbol o) = true)
  /\ (operator = "LIKE" ->
        isSubstring (ToLower expectedValue) (ToLower cellValue)).

(** ** Pagination *)

(** The records of the rows, bound in order, up to the first row that
    does not bind. *)
Fixpoint bindRows `{RT : GoRuntime} (fields : list StructField)
    (fieldMap : gmap string nat) (rows : list (list any))
    : list (list any) * option error :=
  match rows with
  | nil => (nil, None)
  | row :: rest =>
    match mapRowToStruct row fieldMap fields (zeroStruct fields) with
    | (_, Some err) => (nil, Some (ErrMapRow err))
    | (elem, None) =>
      let '(elems, err) := bindRows fields fieldMap rest in (elem :: elems, err)
    end
  end.

(** The rows that may be returned: those at position [offset] or
    later, counted over all the rows from position [rowIndex] on, that
    match the query. *)
Definition eligible `{RT : GoRuntime} (q : Query) (headers : list string)
    (fieldMap : gmap string nat) (rowIndex : nat) (rows : list (list any))
    : list (list any) :=
  List.filter (fun row => matchesWhere q row headers fieldMap)
    (drop (Z.to_nat (offset q) - rowIndex) rows).

(** What the limit leaves of them when the slice holds [n] records. *)
Definition budget (q : Query) (n : nat) (rows : list (list any)) : list (list any) :=
  if 0 <? limit q then take (Z.to_nat (limit q - Z.of_nat n)) rows else rows.

(** ** The record binder *)

(** The cell that a field reads: the cell of the row at the column the
    field is bound to, when the field can be set, the header has the
    column and the row reaches it. *)
Definition boundCell (row : list any) (fieldMap : gmap string nat)
    (field : StructField) : option any :=
  if Exported field then
    match fieldMap !! boundColumn field with
    | Some colIndex => row !! colIndex
    | None => None
    end
  else None.

(** The signed integer kinds and the floating-point kinds. *)
Definition isIntKind (k : Kind) : bool :=
  match k with Int | Int8 | Int16 | Int32 | Int64 => true | _ => false end.

Definition isFloatKind (k : Kind) : bool :=
  match k with Float32 | Float64 => true | _ => false end.

(** What the binder stores for the string form of a cell, kind by
    kind: the string itself for a string field; for an integer, a
    floating-point or a boolean field the zero value when the string is
    empty and the parsed value otherwise, a string that does not parse
    being an error; an error for any other kind. *)
Definition converted (RT : GoRuntime) (k : Kind) (value : string) : result any :=
  if k is String_ then Ok (Str value)
  else if isIntKind k then
    if value ==? "" then Ok (IntV k 0)
    else match Strconv.ParseInt value with
         | Ok n => Ok (IntV k (wrapInt (intBits k) n))
         | Err cause => Err cause
         end
  else if isFloatKind k then
    if value ==? "" then Ok (FloatV k F64.zero)
    else match ParseFloat value with
         | Ok f => Ok (FloatV k (if k is Float32 then F64.toFloat32 f else f))
         | Err cause => Err cause
         end
  else if k is Bool then
    if value ==? "" then Ok (BoolV false)
    else match Strconv.ParseBool value with
         | Ok b => Ok (BoolV b)
         | Err cause => Err cause
         end
  else Err (ErrUnsupportedKind k).

(** ** Writes *)

(** What the read of [Update] and [Delete] returns in the state [w]. *)
Definition fetched {W : Type} (service : Service W) (q : Query) (w : W)
    : result (list (list any)) :=
  fst (ValuesGet service (sheetName q ++ "!A:Z") w).

(** The data rows that the query matches, under the header that was
    read with them. *)
Definition matchedRows `{RT : GoRuntime} (q : Query) (header : list any)
    (rows : list (list any)) : list (list any) :=
  List.filter
    (fun row => matchesWhere q row (map Sprint header) (headerMap (map Sprint header)))
    rows.

(** Every update, and every deletion, that the service is asked for
    succeeds. *)
Definition updatesSucceed {W : Type} (service : Service W) : Prop :=
  forall range values w, fst (ValuesUpdate service range values w) = None.

Definition deletionsSucceed {W : Type} (service : Service W) : Prop :=
  forall sheetId first last w, fst (DeleteRows service sheetId first last w) = None.

(** A service that answers every read with one table, accepts every
    write, and keeps the log of the writes it was asked for. *)
Inductive request : Set :=
| UpdateRequest (range : string) (values : list (list any))
| DeleteRequest (sheetId first last : Z).

Definition recorder (table : list (list any)) (sheets : list (string * Z))
    : Service (list request) :=
  {| ValuesGet := fun _ log => (Ok table, log);
     ValuesUpdate := fun range values log =>
       (None, (log ++ UpdateRequest range values :: nil)%list);
     SpreadsheetsGet := fun log => (Ok sheets, log);
     DeleteRows := fun sheetId first last log =>
       (None, (log ++ DeleteRequest sheetId first last :: nil)%list) |}.

(** ** Regular expressions: what a match is *)

(** [lit] and [s] have the same letters, case apart. *)
Fixpoint foldEq (lit s : string) : Prop :=
  match lit, s with
  | EmptyString, EmptyString => True
  | String a lit', String c s' => Regexp.eqFold a c = true /\ foldEq lit' s'
  | _, _ => False
  end.

(** [Matches r s caps caps']: the expression [r] matches the whole of
    [s], and the captures [caps] become [caps']. *)
Inductive Matches : Regexp.re -> string -> list string -> list string -> Prop :=
| M_Lit lit caps : Matches (Regexp.Lit lit) lit caps caps
| M_LitFold lit s caps : foldEq lit s -> Matches (Regexp.LitFold lit) s caps caps
| M_Plus p c s caps :
    p c = true -> Bytes.all p s = true -> Matches (Regexp.Plus p) (String c s) caps caps
| M_Star p s caps : Bytes.all p s = true -> Matches (Regexp.Star p) s caps caps
| M_Seq r1 r2 s1 s2 c0 c1 c2 :
    Matches r1 s1 c0 c1 -> Matches r2 s2 c1 c2 ->
    Matches (Regexp.Seq r1 r2) (s1 ++ s2) c0 c2
| M_AltL r1 r2 s c0 c1 : Matches r1 s c0 c1 -> Matches (Regexp.Alt r1 r2) s c0 c1
| M_AltR r1 r2 s c0 c1 : Matches r2 s c0 c1 -> Matches (Regexp.Alt r1 r2) s c0 c1
| M_Group i r s c0 c1 :
    Matches r s c0 c1 -> Matches (Regexp.Group i r) s c0 (<[i := s]> c1).

(** [m] is a match of [r]. *)
Definition isMatch (r : Regexp.re) (m : string) : Prop :=
  exists caps, Matches r m (replicate (S (Regexp.groups r)) EmptyString) caps.

(** No part of the string is a match of [r]. *)
Definition matchFree (r : Regexp.re) (piece : string) : Prop :=
  forall pre m post, piece = pre ++ m ++ post -> ~ isMatch r m.

(** ** The WHERE parser *)

(** The operators of a condition, as they are written. *)
Definition operatorTokens : list string :=
  "=" :: "!=" :: "<>" :: "<=" :: ">=" :: "<" :: ">" :: "LIKE" :: nil.

(** The shape [<column> <operator> <value>]: a column of word
    characters, an operator, and a value that stays on one line, with
    any white space around the operator. *)
Definition shape (col ws1 op ws2 val : string) : Prop :=
  col <> "" /\ Bytes.all Bytes.isWord col = true
  /\ Bytes.all Bytes.isSpace ws1 = true
  /\ In op operatorTokens
  /\ Bytes.all Bytes.isSpace ws2 = true
  /\ val <> "" /\ Bytes.all Bytes.notNewline val = true.

(** The condition has a part of that shape. *)
Definition hasShape (condition : string) : Prop :=
  exists pre col ws1 op ws2 val post,
    condition = pre ++ (col ++ ws1 ++ op ++ ws2 ++ val) ++ post
    /\ shape col ws1 op ws2 val.

(** The input stops, or goes on with a line feed. *)
Definition atEndOfLine (rest : string) : Prop :=
  match rest with
  | EmptyString => True
  | String c _ => Bytes.notNewline c = false
  end.

(** The operator of the clause for an operator as written: [<>]
    becomes [!=]. *)
Definition normalized (op : string) : string := if op ==? "<>" then "!=" else op.

(** The pieces of a split, put together again around the separators. *)
Fixpoint weave (pieces seps : list string) : string :=
  match pieces, seps with
  | piece :: pieces', sep :: seps' => piece ++ sep ++ weave pieces' seps'
  | piece :: _, nil => piece
  | nil, _ => ""
  end.

(** The separator of two conditions: white space, the word AND in
    letters of either case, white space. *)
Definition andSeparator (sep : string) : Prop :=
  exists ws1 kw ws2,
    sep = ws1 ++ kw ++ ws2
    /\ ws1 <> "" /\ Bytes.all Bytes.isSpace ws1 = true
    /\ foldEq "AND" kw
    /\ ws2 <> "" /\ Bytes.all Bytes.isSpace ws2 = true.

(** A byte of the cutset of [strings.Trim] in [parseWhere]. *)
Definition isQuote (c : ascii) : bool := GoStrings.inCutset Patterns.quotes c.

(** The spec's reading of the quotes: one layer is removed, when the
    token starts and ends with a quote. *)
Definition stripOneQuoteLayer (token : string) : string :=
  match token with
  | String c rest =>
    match Bytes.rev rest with
    | String d inner => if isQuote c && isQuote d then Bytes.rev inner else token
    | EmptyString => token
    end
  | EmptyString => token
  end.

(** ** The sheets of the examples *)

(** A query on two columns, for a sheet that has no column [City]. *)
Definition cityAndName : Query :=
  Where (Where (From "Users") "City" "=" (Str "NYC")) "Name" "=" (Str "Jane").

(** A sheet of nine people; those at the positions 0, 2, 4, 6 and 8
    live in NYC. *)
Definition person : list StructField :=
  {| Name := "Name"; Tag := "Name"; Exported := true; Zero := Str "" |} :: nil.

Definition peopleHeaders : list string := "Name" :: "City" :: nil.

Definition peopleRows : list (list any) :=
  (Str "p0" :: Str "NYC" :: nil) :: (Str "p1" :: Str "LA" :: nil)
  :: (Str "p2" :: Str "NYC" :: nil) :: (Str "p3" :: Str "LA" :: nil)
  :: (Str "p4" :: Str "NYC" :: nil) :: (Str "p5" :: Str "LA" :: nil)
  :: (Str "p6" :: Str "NYC" :: nil) :: (Str "p7" :: Str "LA" :: nil)
  :: (Str "p8" :: Str "NYC" :: nil) :: nil.

Definition peopleTable : list (list any) := (Str "Name" :: Str "City" :: nil) :: peopleRows.

Definition peopleService : Service (list request) :=
  recorder peopleTable (("Other", 3) :: ("People", 7) :: nil).

Definition inNYC : Query := Where (From "People") "City" "=" (Str "NYC").

Definition inParis : Query := Where (From "People") "City" "=" (Str "Paris").

(** A record type with one unexported field, bound to the column
    [Age]. *)
Definition privateAge : StructField :=
  {| Name := "age"; Tag := "Age"; Exported := false; Zero := IntV Int 0 |}.

(** The record type and the row of the package's own test of the
    binder. *)
Definition personRecord : list StructField :=
  {| Name := "Name"; Tag := "Name"; Exported := true; Zero := Str "" |}
  :: {| Name := "Age"; Tag := "Age"; Exported := true; Zero := IntV Int 0 |}
  :: {| Name := "City"; Tag := "City"; Exported := true; Zero := Str "" |} :: nil.

Definition johnRow : list any := Str "John" :: Str "25" :: Str "NYC" :: nil.

Definition personHeaders : gmap string nat := headerMap ("Name" :: "Age" :: "City" :: nil).

(** ** Tactics *)

(** The side conditions of [holds] for an operator that is known. *)
Ltac holds_cases :=
  repeat match goal with
         | |- _ /\ _ => split
         | |- forall _, _ => intro
         end;
  repeat match goal with
         | H : _ \/ _ |- _ => destruct H
         | o : ordering |- _ => destruct o; simpl in *
         end;
  try discriminate; try contradiction; try congruence; auto.

(** Inversion of the matches of an expression that is known. *)
Ltac invert_matches :=
  repeat match goal with
         | H : Matches (Regexp.Alt _ _) _ _ _ |- _ => inversion H; subst; clear H
         | H : Matches (Regexp.Lit _) _ _ _ |- _ => inversion H; subst; clear H
         end.

(** The branch of an alternation of literals that matches. *)
Ltac pick_operator :=
  first [ apply M_Lit | apply M_AltL; apply M_Lit | apply M_AltR; pick_operator ].

(** * The vocabulary of the further properties *)

(** The operators that [matchesWhere] evaluates. *)
Definition knownOperators : list string :=
  "=" :: "==" :: "!=" :: ">" :: "<" :: ">=" :: "<=" :: "LIKE" :: nil.

(** The operators of the clauses that [parseWhere] builds. *)
Definition parsedOperators : list string :=
  "=" :: "!=" :: "<=" :: ">=" :: "<" :: ">" :: "LIKE" :: nil.

(** A query with one clause. *)
Definition only (clause : WhereClause) : Query :=
  {| sheetName := ""; where_ := clause :: nil; limit := 0; offset := 0 |}.

(** The values of a signed integer type of [bits] bits. *)
Definition fits (bits n : Z) : Prop := - 2 ^ (bits - 1) <= n < 2 ^ (bits - 1).

(** A value that a cell gives back: a string, a boolean, or a signed
    integer within its type. *)
Definition readsBack (v : any) : Prop :=
  match v with
  | Str _ | BoolV _ => True
  | IntV k n => isIntKind k = true /\ fits (intBits k) n
  | _ => False
  end.

(** The data rows that the query matches, each with its position among
    the data rows, in the order of the sheet. *)
Definition matchedAt `{RT : GoRuntime} (q : Query) (header : list any)
    (rows : list (list any)) : list (nat * list any) :=
  List.filter
    (fun p => matchesWhere q (snd p) (map Sprint header) (headerMap (map Sprint header)))
    (combine (seq 0 (length rows)) rows).

(** The row that [Update] writes in place of [row]: the copy of [row]
    at the width of the header, with the fields stored. *)
Definition writtenRow `{RT : GoRuntime} (header : list any) (fields : list StructField)
    (values : list any) (row : list any) : list any :=
  default nil
    (storeFields (headerMap (map Sprint header)) fields values
       (copyRow (length (map Sprint header)) row)).

(** No field from position [i] on is bound to the column [name]. *)
Definition unboundFrom (i : nat) (fields : list StructField) (name : string) : Prop :=
  forall i' field, (i <= i')%nat -> fields !! i' = Some field -> boundColumn field <> name.

(** ** Statements *)

(** The encodings of U+017F and of U+212A, the two runes beyond ASCII
    that fold to a letter ([s] and [k]). *)
Definition longS : string := String (ascii_of_N 197) (String (ascii_of_N 191) EmptyString).

Definition kelvin : string :=
  String (ascii_of_N 226) (String (ascii_of_N 132) (String (ascii_of_N 170) EmptyString)).

(** What a letter of a keyword may be written as: the letter in either
    case, U+017F for an [s], U+212A for a [k]. *)
Definition letterAs (a : ascii) (m : string) : Prop :=
  (exists c, m = String c EmptyString /\ Regexp.eqFold a c = true)
  \/ (Ascii.eqb (Bytes.lower a) "s" = true /\ m = longS)
  \/ (Ascii.eqb (Bytes.lower a) "k" = true /\ m = kelvin).

(** [kw] is the keyword [lit], letter by letter. *)
Fixpoint keywordAs (lit kw : string) : Prop :=
  match lit with
  | EmptyString => kw = EmptyString
  | String a lit' => exists m kw', kw = m ++ kw' /\ letterAs a m /\ keywordAs lit' kw'
  end.

(** A rune of the name of a sheet: a word character, U+017F or
    U+212A. *)
Definition nameRune (m : string) : Prop :=
  (exists c, m = String c EmptyString /\ Bytes.isWord c = true) \/ m = longS \/ m = kelvin.

(** The name of a sheet: one such rune or more. *)
Inductive isName : string -> Prop :=
| name_one m : nameRune m -> isName m
| name_more m s : nameRune m -> isName s -> isName (m ++ s).

(** White space: one byte of [\t\n\f\r ] or more. *)
Definition isBlank (ws : string) : Prop :=
  ws <> EmptyString /\ Bytes.all Bytes.isSpace ws = true.

(** Digits: one or more. *)
Definition isDigits (ds : string) : Prop :=
  ds <> EmptyString /\ Bytes.all Bytes.isDigit ds = true.

(** Text on one line: one byte or more, none a line feed. *)
Definition isText (t : string) : Prop :=
  t <> EmptyString /\ Bytes.all Bytes.notNewline t = true.

(** An optional part of a statement, [<keyword> <value>] after white
    space, and its submatch, which is empty when the part is absent. *)
Definition optionalPart (keyword : string) (isValue : string -> Prop)
    (part value : string) : Prop :=
  (part = EmptyString /\ value = EmptyString)
  \/ exists ws1 kw ws2,
       part = ws1 ++ kw ++ ws2 ++ value
       /\ isBlank ws1 /\ keywordAs keyword kw /\ isBlank ws2 /\ isValue value.

(** The shape of a statement that [selectRegex] matches, with the
    submatches: the columns, the sheet, the WHERE clause, the limit and
    the offset. *)
Definition selectShape (text columns table whereClause limitDigits offsetDigits : string)
    : Prop :=
  exists kw ws1 ws2 from ws3 partWhere partLimit partOffset,
    text = kw ++ ws1 ++ columns ++ ws2 ++ from ++ ws3 ++ table
           ++ partWhere ++ partLimit ++ partOffset
    /\ keywordAs "SELECT" kw /\ isBlank ws1 /\ isText columns
    /\ isBlank ws2 /\ keywordAs "FROM" from /\ isBlank ws3 /\ isName table
    /\ optionalPart "WHERE" isText partWhere whereClause
    /\ optionalPart "LIMIT" isDigits partLimit limitDigits
    /\ optionalPart "OFFSET" isDigits partOffset offsetDigits.

(** [Runs c s rest]: [rest] is the input [s] after one rune of the
    class [c] or more. *)
Inductive Runs (c : Backtrack.class) : string -> string -> Prop :=
| Runs_one s rest : Backtrack.step c s = Some rest -> Runs c s rest
| Runs_more s mid rest : Backtrack.step c s = Some mid -> Runs c mid rest -> Runs c s rest.

(** [Parses text r s rest caps caps']: the expression [r] matches the
    input [s] up to [rest], and the captures [caps] become [caps']. *)
Inductive Parses (text : string)
    : Backtrack.re -> string -> string -> list string -> list string -> Prop :=
| P_Begin s caps :
    String.length s = String.length text -> Parses text Backtrack.BeginText s s caps caps
| P_End caps : Parses text Backtrack.EndText EmptyString EmptyString caps caps
| P_Fold lit s rest caps :
    Backtrack.stripFold lit s = Some rest -> Parses text (Backtrack.Fold lit) s rest caps caps
| P_Plus c s rest caps : Runs c s rest -> Parses text (Backtrack.Plus c) s rest caps caps
| P_Lazy c s rest caps : Runs c s rest -> Parses text (Backtrack.LazyPlus c) s rest caps caps
| P_Seq r1 r2 s mid rest c0 c1 c2 :
    Parses text r1 s mid c0 c1 -> Parses text r2 mid rest c1 c2 ->
    Parses text (Backtrack.Seq r1 r2) s rest c0 c2
| P_Some r s rest c0 c1 :
    Parses text r s rest c0 c1 -> Parses text (Backtrack.Opt r) s rest c0 c1
| P_None r s caps : Parses text (Backtrack.Opt r) s s caps caps
| P_Group i r s rest c0 c1 :
    Parses text r s rest c0 c1 ->
    Parses text (Backtrack.Group i r) s rest c0 (<[i := Regexp.consumed s rest]> c1).

(** The number that [parseSQL] reads from the digits of a LIMIT or an
    OFFSET: 0 when there are none. *)
Definition numberOf (digits : string) (n : Z) : Prop :=
  (digits = EmptyString /\ n = 0) \/ Strconv.Atoi digits = Ok n.

(** The clauses that [parseSQL] reads from a WHERE clause for the sheet
    [table]: none when there is no clause. *)
Definition clausesOf `{RT : GoRuntime} (table whereClause : string)
    (clauses : list WhereClause) : Prop :=
  (whereClause = EmptyString /\ clauses = nil)
  \/ (snd (parseWhere (From table) whereClause) = None
      /\ clauses = where_ (fst (parseWhere (From table) whereClause))).

(** Every run of white space made a single blank; [inRun] tells that
    the byte before was white space. *)
Fixpoint squeeze (inRun : bool) (s : string) : string :=
  match s with
  | EmptyString => EmptyString
  | String c s' =>
    if Bytes.isSpace c
    then if inRun then squeeze true s' else String " " (squeeze true s')
    else String c (squeeze false s')
  end.

(** A byte of ASCII that is no white space. *)
Definition isInk (c : ascii) : bool :=
  (Bytes.code c <? 128)%N && negb (GoStrings.asciiSpace c).

(** [First text r s c0 rest c1]: matched at [s] with the captures [c0],
    the expression [r] offers first the match up to [rest], with the
    captures [c1]: whatever follows, when it accepts that match the
    matcher looks no further. *)
Definition First (text : string) (r : Backtrack.re) (s : string) (c0 : list string)
    (rest : string) (c1 : list string) : Prop :=
  forall (R : Type) (k : string -> list string -> option R) (x : R),
    k rest c1 = Some x -> Backtrack.exec text r s c0 k = Some x.

(** [Only text r s c0 rest c1]: the match up to [rest] is the only one
    of [r] at [s]. *)
Definition Only (text : string) (r : Backtrack.re) (s : string) (c0 : list string)
    (rest : string) (c1 : list string) : Prop :=
  forall (R : Type) (k : string -> list string -> option R),
    Backtrack.exec text r s c0 k = k rest c1.

(** [Stuck text r s c0]: the expression [r] has no match at [s]. *)
Definition Stuck (text : string) (r : Backtrack.re) (s : string) (c0 : list string) : Prop :=
  forall (R : Type) (k : string -> list string -> option R),
    Backtrack.exec text r s c0 k = None.

(** The statement for the rows of a sheet, all of them or those that a
    limit and an offset leave. *)
Definition selectAll (table : string) : string := "SELECT * FROM " ++ table.

Definition selectPage (table : string) (limit offset : Z) : string :=
  "SELECT * FROM " ++ table ++ " LIMIT " ++ Strconv.FormatInt limit
  ++ " OFFSET " ++ Strconv.FormatInt offset.

(** ** Runes *)

Section Decoding.
Local Open Scope N_scope.

(** What [DecodeRuneInString] reads, by the width of what it reads. *)
Inductive decoded (s : string) (r : N) : nat -> Prop :=
| decoded_empty : s = EmptyString -> r = Utf8.RuneError -> decoded s r 0
| decoded_ascii c rest : s = String c rest -> Bytes.code c < 128 -> r = Bytes.code c -> decoded s r 1
| decoded_error c rest : s = String c rest -> 128 <= Bytes.code c -> r = Utf8.RuneError -> decoded s r 1
| decoded_two b0 b1 rest :
    s = String b0 (String b1 rest) ->
    194 <= Bytes.code b0 <= 223 -> 128 <= Bytes.code b1 <= 191 ->
    r = (Bytes.code b0 - 192) * 64 + (Bytes.code b1 - 128) ->
    decoded s r 2
| decoded_three b0 b1 b2 rest :
    s = String b0 (String b1 (String b2 rest)) ->
    224 <= Bytes.code b0 <= 239 -> 128 <= Bytes.code b1 <= 191 -> 128 <= Bytes.code b2 <= 191 ->
    r = (Bytes.code b0 - 224) * 4096 + (Bytes.code b1 - 128) * 64 + (Bytes.code b2 - 128) ->
    2048 <= r ->
    decoded s r 3
| decoded_four b0 b1 b2 b3 rest :
    s = String b0 (String b1 (String b2 (String b3 rest))) ->
    240 <= Bytes.code b0 <= 244 -> 128 <= Bytes.code b1 <= 191 -> 128 <= Bytes.code b2 <= 191 ->
    128 <= Bytes.code b3 <= 191 ->
    r = (Bytes.code b0 - 240) * 262144 + (Bytes.code b1 - 128) * 4096 + (Bytes.code b2 - 128) * 64
        + (Bytes.code b3 - 128) ->
    65536 <= r ->
    decoded s r 4.

End Decoding.

(** Inversion of a match of an expression that is known. *)
Tactic Notation "inv_seq" hyp(H) "as" ident(P1) ident(P2) :=
  inversion H as [| | | | |? ? ? ? ? ? ? ? P1 P2| | |]; subst; clear H.
Tactic Notation "inv_group" hyp(H) "as" ident(P) :=
  inversion H as [| | | | | | | |? ? ? ? ? ? P]; subst; clear H.
Tactic Notation "inv_plus" hyp(H) "as" ident(R) :=
  inversion H as [| | |? ? ? ? R| | | | |]; subst; clear H.
Tactic Notation "inv_fold" hyp(H) "as" ident(F) :=
  inversion H as [| |? ? ? ? F| | | | | |]; subst; clear H.

(** * Properties *)

(** ** Strings *)

Section StringFacts.

Lemma append_nil_r (s : string) : s ++ "" = s.
Proof. induction s as [|c s IH]; simpl; congruence. Qed.

Lemma append_assoc (a b c : string) : (a ++ b) ++ c = a ++ (b ++ c).
Proof. induction a as [|x a IH]; simpl; congruence. Qed.

Lemma length_append (a b : string) :
  String.length (a ++ b) = (String.length a + String.length b)%nat.
Proof. induction a as [|x a IH]; simpl; congruence. Qed.

Lemma prefix_iff (p s : string) :
  String.prefix p s = true <-> exists t, s = p ++ t.
Proof.
  revert s; induction p as [|c p IH]; intros s.
  - destruct s; simpl; split; eauto.
  - destruct s as [|d s]; simpl.
    + split; [discriminate | intros [t Ht]; discriminate].
    + destruct (Ascii.ascii_dec c d) as [->|Hne].
      * rewrite IH. split; intros [t Ht]; exists t; congruence.
      * split; [discriminate | intros [t Ht]; congruence].
Qed.

Lemma Contains_unfold (s sub : string) :
  GoStrings.Contains s sub =
  String.prefix sub s ||
  match s with EmptyString => false | String _ s' => GoStrings.Contains s' sub end.
Proof. destruct s; reflexivity. Qed.

(** [strings.Contains] decides whether the second string occurs in the
    first one. *)
Lemma Contains_iff (s sub : string) :
  GoStrings.Contains s sub = true <-> isSubstring sub s.
Proof.
  unfold isSubstring. induction s as [|c s IH]; rewrite Contains_unfold.
  - rewrite orb_false_r, prefix_iff. split.
    + intros [t Ht]. exists "", t. exact Ht.
    + intros (pre & post & H). destruct pre; simpl in H.
      * eauto.
      * discriminate.
  - rewrite orb_true_iff, prefix_iff, IH. split.
    + intros [[t Ht] | (pre & post & H)].
      * exists "", t. exact Ht.
      * exists (String c pre), post. simpl. congruence.
    + intros (pre & post & H). destruct pre as [|d pre]; simpl in H.
      * left. eauto.
      * right. exists pre, post. congruence.
Qed.

Lemma ascii_compare_Eq (c d : ascii) : Ascii.compare c d = Eq <-> c = d.
Proof.
  split; [apply Ascii.compare_eq_iff | intros ->].
  unfold Ascii.compare. apply N.compare_refl.
Qed.

Lemma string_compare_Lt (a b : string) : String.compare a b = Lt <-> lex_lt a b.
Proof.
  revert b; induction a as [|c a IH]; intros [|d b]; simpl.
  - split; [discriminate | inversion 1].
  - split; [constructor | reflexivity].
  - split; [discriminate | inversion 1].
  - destruct (Ascii.compare c d) eqn:E.
    + apply ascii_compare_Eq in E as ->. rewrite IH. split.
      * apply lex_lt_tail.
      * inversion 1; subst; [lia | assumption].
    + split; [intros _ | reflexivity].
      apply lex_lt_head. unfold Ascii.compare in E. apply N.compare_lt_iff in E. exact E.
    + split; [discriminate |].
      unfold Ascii.compare in E. apply N.compare_gt_iff in E.
      inversion 1; subst; [unfold Bytes.code in *; lia |].
      lia.
Qed.

(** The order [<] of two Go strings is the lexicographic order. *)
Lemma string_ltb_lex (a b : string) : (a <? b)%string = true <-> lex_lt a b.
Proof.
  unfold String.ltb. rewrite <- string_compare_Lt.
  destruct (String.compare a b); split; congruence.
Qed.

Lemma string_leb_lex (a b : string) : (a <=? b)%string = true <-> a = b \/ lex_lt a b.
Proof.
  unfold String.leb. rewrite <- string_compare_Lt.
  destruct (String.compare a b) eqn:E.
  - apply String.compare_eq_iff in E. tauto.
  - tauto.
  - split; [discriminate |]. intros [->|H]; [|discriminate].
    assert (String.compare b b = Eq) as Hb.
    { clear. induction b as [|c b IH]; simpl; [reflexivity|].
      unfold Ascii.compare. rewrite N.compare_refl. exact IH. }
    congruence.
Qed.

End StringFacts.

(** ** The ordering comparator *)

(** C3. For two strings and an ordering operator, [compareValues]
    parses both strings as floating-point numbers; when both parse it
    compares the numbers, otherwise it compares the strings in the
    lexicographic order.  With the reference runtime ["9" > "10"] is
    false, though ["10"] comes before ["9"] as a string, and
    ["b" > "a"] is true. *)
Theorem compareValues_numeric_else_lexical :
  (forall (RT : GoRuntime) (a b : string) (o : ordering),
     match ParseFloat a, ParseFloat b with
     | Ok x, Ok y => compareValues a b (symbol o) = numerically o x y
     | _, _ => compareValues a b (symbol o) = true <-> lexically o a b
     end)
  /\ (isOk (Atof.ParseFloat "9") = true /\ isOk (Atof.ParseFloat "10") = true
      /\ compareValues (RT := RefRuntime) "9" "10" ">" = false
      /\ lex_lt "10" "9")
  /\ (isOk (Atof.ParseFloat "b") = false
      /\ compareValues (RT := RefRuntime) "b" "a" ">" = true).
Proof.
  split; [|split].
  - intros RT a b o. unfold compareValues.
    destruct (ParseFloat a) as [x|ea], (ParseFloat b) as [y|eb];
      destruct o; simpl;
      rewrite ?string_ltb_lex, ?string_leb_lex; reflexivity.
  - repeat split; try (vm_compute; reflexivity).
    apply lex_lt_head. reflexivity.
  - split; vm_compute; reflexivity.
Qed.

(** ** The predicate evaluator *)

Section Evaluator.
Context `{RT : GoRuntime}.

Lemma matchesClauses_vacuous (clauses : list WhereClause) (n : nat)
    (clause : WhereClause) (row : list any) (fieldMap : gmap string nat) :
  clauses !! n = Some clause ->
  vacuous fieldMap row clause ->
  matchesClauses clauses row fieldMap = matchesClauses (delete n clauses) row fieldMap.
Proof.
  revert n. induction clauses as [|c rest IH]; intros [|n] Hn Hv; try discriminate.
  - simpl in Hn. injection Hn as ->. simpl. unfold vacuous in Hv.
    destruct (fieldMap !! Column clause) as [colIndex|]; [|reflexivity].
    rewrite (lookup_ge_None_2 row colIndex Hv). reflexivity.
  - simpl in Hn. simpl. rewrite (IH n Hn Hv). reflexivity.
Qed.

Lemma clausePasses_holds (operator cellValue expectedValue : string) :
  clausePasses operator cellValue expectedValue = true
  <-> holds operator cellValue expectedValue.
Proof.
  unfold clausePasses, holds.
  destruct (String.eqb_spec operator "=") as [->|N1]; simpl.
  { rewrite String.eqb_eq. split; [intros -> | intros (H & _); auto]. holds_cases. }
  destruct (String.eqb_spec operator "==") as [->|N2]; simpl.
  { rewrite String.eqb_eq. split; [intros -> | intros (H & _); auto]. holds_cases. }
  destruct (String.eqb_spec operator "!=") as [->|N3]; simpl.
  { rewrite negb_true_iff, String.eqb_neq.
    split; [intros Hne | intros (_ & H & _); auto]. holds_cases. }
  destruct (String.eqb_spec operator ">") as [->|N4]; simpl.
  { split; [intros Hc | intros (_ & _ & H & _); apply (H OpGt); reflexivity].
    holds_cases. }
  destruct (String.eqb_spec operator "<") as [->|N5]; simpl.
  { split; [intros Hc | intros (_ & _ & H & _); apply (H OpLt); reflexivity].
    holds_cases. }
  destruct (String.eqb_spec operator ">=") as [->|N6]; simpl.
  { split; [intros Hc | intros (_ & _ & H & _); apply (H OpGe); reflexivity].
    holds_cases. }
  destruct (String.eqb_spec operator "<=") as [->|N7]; simpl.
  { split; [intros Hc | intros (_ & _ & H & _); apply (H OpLe); reflexivity].
    holds_cases. }
  destruct (String.eqb_spec operator "LIKE") as [->|N8]; simpl.
  { rewrite Contains_iff.
    split; [intros Hc | intros (_ & _ & _ & H); exact (H eq_refl)]. holds_cases. }
  split; [intros _ | reflexivity]. holds_cases.
Qed.

Lemma matchesClauses_iff (clauses : list WhereClause) (row : list any)
    (fieldMap : gmap string nat) :
  matchesClauses clauses row fieldMap = true
  <-> forall clause colIndex cell,
        In clause clauses ->
        fieldMap !! Column clause = Some colIndex ->
        row !! colIndex = Some cell ->
        holds (Operator clause) (Sprint cell) (Sprint (Value clause)).
Proof.
  induction clauses as [|c rest IH]; simpl.
  - split; [intros _ ? ? ? [] | reflexivity].
  - destruct (fieldMap !! Column c) as [i|] eqn:Hcol.
    + destruct (row !! i) as [cell|] eqn:Hcell.
      * destruct (clausePasses _ _ _) eqn:Hp.
        -- rewrite IH. split.
           ++ intros H clause j cell' [<-|Hin] Hj Hc.
              ** rewrite Hcol in Hj. injection Hj as <-.
                 rewrite Hcell in Hc. injection Hc as <-.
                 apply clausePasses_holds. exact Hp.
              ** eauto.
           ++ intros H clause j cell' Hin. apply H. right. exact Hin.
        -- split; [discriminate|]. intros H.
           rewrite <- Hp. apply clausePasses_holds. apply (H c i cell); auto.
      * rewrite IH. split.
        -- intros H clause j cell' [<-|Hin] Hj Hc; [congruence | eauto].
        -- intros H clause j cell' Hin. apply H. right. exact Hin.
    + rewrite IH. split.
      * intros H clause j cell' [<-|Hin] Hj Hc; [congruence | eauto].
      * intros H clause j cell' Hin. apply H. right. exact Hin.
Qed.

End Evaluator.

(** C2. A clause whose column is absent from the header map, or whose
    column index lies beyond the end of the row, is skipped: the row
    matches the query exactly when it matches the query without that
    clause. *)
Theorem matchesWhere_skips_vacuous_clause (RT : GoRuntime) (q : Query) (n : nat)
    (clause : WhereClause) (row : list any) (headers : list string)
    (fieldMap : gmap string nat) :
  where_ q !! n = Some clause ->
  vacuous fieldMap row clause ->
  matchesWhere q row headers fieldMap
  = matchesWhere (withoutClause n q) row headers fieldMap.
Proof.
  intros Hn Hv. unfold matchesWhere, withoutClause. simpl.
  apply matchesClauses_vacuous with (clause := clause); assumption.
Qed.

(** A row with the cells ["John"], ["25"] under the headers [Name],
    [Age], and a query whose first clause is on the absent column
    [City]. *)
Lemma matchesWhere_skips_vacuous_clause_witness :
  where_ cityAndName !! 0%nat
  = Some {| Column := "City"; Operator := "="; Value := Str "NYC" |}
  /\ vacuous (headerMap ("Name" :: "Age" :: nil)) (Str "John" :: Str "25" :: nil)
       {| Column := "City"; Operator := "="; Value := Str "NYC" |}
  /\ matchesWhere (RT := RefRuntime) cityAndName
       (Str "John" :: Str "25" :: nil) ("Name" :: "Age" :: nil)
       (headerMap ("Name" :: "Age" :: nil))
     = matchesWhere (RT := RefRuntime) (withoutClause 0 cityAndName)
         (Str "John" :: Str "25" :: nil) ("Name" :: "Age" :: nil)
         (headerMap ("Name" :: "Age" :: nil)).
Proof.
  assert (vacuous (headerMap ("Name" :: "Age" :: nil)) (Str "John" :: Str "25" :: nil)
            {| Column := "City"; Operator := "="; Value := Str "NYC" |}) as Hv
    by (vm_compute; exact I).
  split; [reflexivity|]. split; [exact Hv|].
  exact (matchesWhere_skips_vacuous_clause RefRuntime cityAndName 0
           {| Column := "City"; Operator := "="; Value := Str "NYC" |}
           (Str "John" :: Str "25" :: nil) ("Name" :: "Age" :: nil)
           (headerMap ("Name" :: "Age" :: nil)) eq_refl Hv).
Defined.

(** C7. A row matches exactly when every clause whose column resolves
    to a cell of the row holds of that cell, both rendered as strings:
    [=] and [==] ask for equal strings, [!=] for different strings, and
    [LIKE] asks that the value, in lower case, occurs in the cell, in
    lower case; [%] and [_] stand for themselves. *)
Theorem matchesWhere_iff_all_clauses_hold :
  (forall (RT : GoRuntime) (q : Query) (row : list any) (headers : list string)
          (fieldMap : gmap string nat),
     matchesWhere q row headers fieldMap = true
     <-> forall clause colIndex cell,
           In clause (where_ q) ->
           fieldMap !! Column clause = Some colIndex ->
           row !! colIndex = Some cell ->
           holds (Operator clause) (Sprint cell) (Sprint (Value clause)))
  /\ clausePasses (RT := RefRuntime) "LIKE" "NYC" "ny" = true
  /\ clausePasses (RT := RefRuntime) "LIKE" "John" "Jo%" = false
  /\ clausePasses (RT := RefRuntime) "LIKE" "John" "J_hn" = false
  /\ clausePasses (RT := RefRuntime) "LIKE" "up 10% in J_hn" "10% IN j_" = true.
Proof.
  split.
  - intros RT q row headers fieldMap. unfold matchesWhere. apply matchesClauses_iff.
  - repeat split; vm_compute; reflexivity.
Qed.

(** ** Pagination *)

Section Pagination.
Context `{RT : GoRuntime}.
Variables (q : Query) (fields : list StructField) (headers : list string)
  (fieldMap : gmap string nat).

Lemma bindRows_length (rows : list (list any)) :
  (length (fst (bindRows fields fieldMap rows)) <= length rows)%nat.
Proof.
  induction rows as [|row rest IH]; simpl; [lia|].
  destruct (mapRowToStruct _ _ _ _) as [elem [err|]]; simpl; [lia|].
  destruct (bindRows fields fieldMap rest) as [elems err]. simpl in *. lia.
Qed.

Lemma budget_length (n : nat) (rows : list (list any)) :
  0 < limit q ->
  Z.of_nat (length (budget q n rows)) <= Z.max 0 (limit q - Z.of_nat n).
Proof.
  intros Hl. unfold budget. apply Z.ltb_lt in Hl as ->.
  rewrite length_take. lia.
Qed.

(** The loop of [Get] in closed form: the records of the eligible rows
    that the limit leaves are appended to the slice. *)
Lemma Get_loop_closed (rowIndex : nat) (rows slice : list (list any)) :
  Get_loop q fields headers fieldMap rowIndex rows slice
  = let '(elems, err) :=
      bindRows fields fieldMap
        (budget q (length slice) (eligible q headers fieldMap rowIndex rows)) in
    ((slice ++ elems)%list, err).
Proof.
  revert rowIndex slice. induction rows as [|row rest IH]; intros i slice.
  - unfold eligible, budget. rewrite drop_nil. simpl.
    destruct (0 <? limit q); rewrite ?take_nil; simpl; rewrite app_nil_r; reflexivity.
  - simpl Get_loop. unfold eligible.
    destruct (Z.to_nat (offset q) - i)%nat as [|k] eqn:Hk.
    + (* at or past the offset *)
      assert ((0 <? offset q) && (Z.of_nat i <? offset q) = false) as ->.
      { apply andb_false_iff. destruct (Z.ltb_spec 0 (offset q)); [right|left; reflexivity].
        apply Z.ltb_ge. lia. }
      rewrite drop_0. simpl List.filter.
      destruct (matchesWhere q row headers fieldMap) eqn:Hm; simpl negb; cbv iota.
      * unfold budget at 1.
        destruct (Z.ltb_spec 0 (limit q)) as [Hl|Hl]; simpl andb.
        -- destruct (Z.leb_spec (limit q) (Z.of_nat (length slice))) as [Hfull|Hroom].
           ++ replace (Z.to_nat (limit q - Z.of_nat (length slice))) with 0%nat by lia.
              simpl. rewrite app_nil_r. reflexivity.
           ++ destruct (Z.to_nat (limit q - Z.of_nat (length slice))) as [|b] eqn:Hb; [lia|].
              simpl take. simpl bindRows.
              destruct (mapRowToStruct _ _ _ _) as [elem [err|]].
              ** rewrite app_nil_r. reflexivity.
              ** rewrite IH. unfold eligible, budget.
                 replace (Z.to_nat (offset q) - S i)%nat with 0%nat by lia.
                 rewrite drop_0. apply Z.ltb_lt in Hl as ->.
                 rewrite length_app. simpl length.
                 replace (Z.to_nat (limit q - Z.of_nat (length slice + 1))) with b by lia.
                 destruct (bindRows _ _ _) as [elems err].
                 rewrite <- app_assoc. reflexivity.
        -- simpl bindRows.
           destruct (mapRowToStruct _ _ _ _) as [elem [err|]].
           ** rewrite app_nil_r. reflexivity.
           ** rewrite IH. unfold eligible, budget.
              replace (Z.to_nat (offset q) - S i)%nat with 0%nat by lia.
              rewrite drop_0. apply Z.ltb_ge in Hl as ->.
              destruct (bindRows _ _ _) as [elems err].
              rewrite <- app_assoc. reflexivity.
      * rewrite IH. unfold eligible.
        replace (Z.to_nat (offset q) - S i)%nat with 0%nat by lia.
        rewrite drop_0. reflexivity.
    + (* before the offset *)
      assert ((0 <? offset q) && (Z.of_nat i <? offset q) = true) as ->.
      { apply andb_true_iff. split; apply Z.ltb_lt; lia. }
      destruct (negb (matchesWhere q row headers fieldMap)); rewrite IH; unfold eligible;
        simpl drop; replace (Z.to_nat (offset q) - S i)%nat with k by lia; reflexivity.
Qed.

End Pagination.

(** C1. The loop of [Get] scans the data rows in order.  A row that
    fails the predicates is skipped; a row that passes them at a
    position below the offset is skipped; at a row that passes both,
    the scan stops when a positive limit is reached by the length of
    the result; otherwise the row is bound and its record appended.
    So the result is the rows from position [offset] on that match, cut
    to what the limit leaves.  With matches at the positions 0, 2, 4,
    6, 8, offset 1 and limit 2 the result is the matches at 2 and 4. *)
Theorem Get_loop_pagination :
  (forall (RT : GoRuntime) (q : Query) (fields : list StructField)
          (headers : list string) (fieldMap : gmap string nat) (rowIndex : nat)
          (row : list any) (rest slice : list (list any)),
     let scan := Get_loop q fields headers fieldMap in
     let passes := matchesWhere q row headers fieldMap in
     let skipped := 0 < offset q /\ Z.of_nat rowIndex < offset q in
     let full := 0 < limit q /\ limit q <= Z.of_nat (length slice) in
     (passes = false -> scan rowIndex (row :: rest) slice = scan (S rowIndex) rest slice)
     /\ (passes = true -> skipped ->
         scan rowIndex (row :: rest) slice = scan (S rowIndex) rest slice)
     /\ (passes = true -> ~ skipped -> full ->
         scan rowIndex (row :: rest) slice = (slice, None))
     /\ (passes = true -> ~ skipped -> ~ full ->
         forall elem,
           mapRowToStruct row fieldMap fields (zeroStruct fields) = (elem, None) ->
           scan rowIndex (row :: rest) slice
           = scan (S rowIndex) rest (slice ++ elem :: nil)%list))
  /\ (forall (RT : GoRuntime) (q : Query) (fields : list StructField)
             (headers : list string) (fieldMap : gmap string nat)
             (rows slice : list (list any)),
        Get_loop q fields headers fieldMap 0 rows slice
        = let selected :=
            budget q (length slice)
              (List.filter (fun row => matchesWhere q row headers fieldMap)
                 (drop (Z.to_nat (offset q)) rows)) in
          let '(elems, err) := bindRows fields fieldMap selected in
          ((slice ++ elems)%list, err))
  /\ (List.map (fun row => matchesWhere (RT := RefRuntime) inNYC row peopleHeaders
                             (headerMap peopleHeaders)) peopleRows
      = true :: false :: true :: false :: true :: false :: true :: false :: true :: nil
      /\ Get_loop (RT := RefRuntime) (Limit (Offset inNYC 1) 2) person peopleHeaders
           (headerMap peopleHeaders) 0 peopleRows nil
         = ((Str "p2" :: nil) :: (Str "p4" :: nil) :: nil, None)
      /\ Get_loop (RT := RefRuntime) (Limit (Offset inNYC 2) 2) person peopleHeaders
           (headerMap peopleHeaders) 0 peopleRows nil
         = ((Str "p2" :: nil) :: (Str "p4" :: nil) :: nil, None)).
Proof.
  split; [|split].
  - intros RT q fields headers fieldMap i row rest slice scan passes skipped full.
    subst scan passes skipped full. simpl Get_loop.
    repeat split.
    + intros ->. reflexivity.
    + intros -> [Ho Hi]. simpl.
      apply Z.ltb_lt in Ho as ->. apply Z.ltb_lt in Hi as ->. reflexivity.
    + intros -> Hns [Hl Hfull]. simpl.
      assert ((0 <? offset q) && (Z.of_nat i <? offset q) = false) as ->.
      { apply not_true_is_false. rewrite andb_true_iff, !Z.ltb_lt. exact Hns. }
      apply Z.ltb_lt in Hl as ->. apply Z.leb_le in Hfull as ->. reflexivity.
    + intros -> Hns Hnf elem Hbind. simpl.
      assert ((0 <? offset q) && (Z.of_nat i <? offset q) = false) as ->.
      { apply not_true_is_false. rewrite andb_true_iff, !Z.ltb_lt. exact Hns. }
      assert ((0 <? limit q) && (limit q <=? Z.of_nat (length slice)) = false) as ->.
      { apply not_true_is_false. rewrite andb_true_iff, Z.ltb_lt, Z.leb_le. exact Hnf. }
      rewrite Hbind. reflexivity.
  - intros RT q fields headers fieldMap rows slice.
    rewrite Get_loop_closed. unfold eligible. rewrite Nat.sub_0_r. reflexivity.
  - repeat split; vm_compute; reflexivity.
Qed.

(** The first data row of the sheet under the query for NYC with offset
    1 and limit 2: it passes the predicates and is skipped, position 0
    being below the offset. *)
Lemma Get_loop_pagination_witness :
  matchesWhere (RT := RefRuntime) (Limit (Offset inNYC 1) 2) (Str "p0" :: Str "NYC" :: nil)
    peopleHeaders (headerMap peopleHeaders) = true
  /\ (0 < offset (Limit (Offset inNYC 1) 2)
      /\ Z.of_nat 0 < offset (Limit (Offset inNYC 1) 2))
  /\ Get_loop (RT := RefRuntime) (Limit (Offset inNYC 1) 2) person peopleHeaders
       (headerMap peopleHeaders) 0 ((Str "p0" :: Str "NYC" :: nil) :: nil) nil
     = Get_loop (RT := RefRuntime) (Limit (Offset inNYC 1) 2) person peopleHeaders
         (headerMap peopleHeaders) 1 nil nil.
Proof.
  assert (matchesWhere (RT := RefRuntime) (Limit (Offset inNYC 1) 2)
            (Str "p0" :: Str "NYC" :: nil) peopleHeaders (headerMap peopleHeaders) = true)
    as Hp by (vm_compute; reflexivity).
  assert (0 < offset (Limit (Offset inNYC 1) 2)
          /\ Z.of_nat 0 < offset (Limit (Offset inNYC 1) 2)) as Hs
    by (split; reflexivity).
  split; [exact Hp | split; [exact Hs |]].
  exact (proj1 (proj2 (proj1 Get_loop_pagination RefRuntime (Limit (Offset inNYC 1) 2)
                         person peopleHeaders (headerMap peopleHeaders) 0%nat
                         (Str "p0" :: Str "NYC" :: nil) nil nil)) Hp Hs).
Defined.

(** C10. [Get] appends to the slice it is given, and its limit counts
    the records the slice already holds: whatever the slice holds
    before stays in front, and under a limit [l > 0] a slice of [k]
    records grows by [max 0 (l - k)] records at most. *)
Theorem Get_loop_appends_within_limit (RT : GoRuntime) (q : Query)
    (fields : list StructField) (headers : list string) (fieldMap : gmap string nat)
    (rowIndex : nat) (rows slice : list (list any)) :
  0 < limit q ->
  exists added : list (list any),
    fst (Get_loop q fields headers fieldMap rowIndex rows slice) = (slice ++ added)%list
    /\ Z.of_nat (length added) <= Z.max 0 (limit q - Z.of_nat (length slice)).
Proof.
  intros Hl. rewrite Get_loop_closed.
  pose proof (bindRows_length fields fieldMap
                (budget q (length slice) (eligible q headers fieldMap rowIndex rows))) as Hb.
  pose proof (budget_length q (length slice)
                (eligible q headers fieldMap rowIndex rows) Hl) as Hbud.
  destruct (bindRows _ _ _) as [elems err]. simpl in *.
  exists elems. split; [reflexivity | lia].
Qed.

(** A slice that holds one record already, limit 2, and five matching
    rows: one record is added. *)
Lemma Get_loop_appends_within_limit_witness :
  0 < limit (Limit inNYC 2)
  /\ fst (Get_loop (RT := RefRuntime) (Limit inNYC 2) person peopleHeaders
            (headerMap peopleHeaders) 0 peopleRows ((Str "old" :: nil) :: nil))
     = (Str "old" :: nil) :: (Str "p0" :: nil) :: nil
  /\ exists added : list (list any),
       fst (Get_loop (RT := RefRuntime) (Limit inNYC 2) person peopleHeaders
              (headerMap peopleHeaders) 0 peopleRows ((Str "old" :: nil) :: nil))
       = (((Str "old" :: nil) :: nil) ++ added)%list
       /\ Z.of_nat (length added)
          <= Z.max 0 (limit (Limit inNYC 2)
                      - Z.of_nat (length ((Str "old" :: nil) :: nil : list (list any)))).
Proof.
  split; [reflexivity | split; [vm_compute; reflexivity |]].
  apply (Get_loop_appends_within_limit RefRuntime (Limit inNYC 2) person peopleHeaders
           (headerMap peopleHeaders) 0 peopleRows ((Str "old" :: nil) :: nil)).
  reflexivity.
Defined.

(** ** The record binder *)

Section Binder.
Context `{RT : GoRuntime}.
Variables (row : list any) (fieldMap : gmap string nat).

Lemma setFieldValue_converted (k : Kind) (value : string) :
  setFieldValue k value = converted RT k value.
Proof. destruct k; reflexivity. Qed.

Lemma mapRowToStruct_step (field : StructField) (fields : list StructField)
    (old : any) (dest : list any) :
  mapRowToStruct row fieldMap (field :: fields) (old :: dest)
  = match boundCell row fieldMap field with
    | None =>
      let '(rest, err) := mapRowToStruct row fieldMap fields dest in (old :: rest, err)
    | Some cell =>
      match setFieldValue (fieldKind field) (Sprint cell) with
      | Err cause => (old :: dest, Some (ErrSetField (Name field) cause))
      | Ok v =>
        let '(rest, err) := mapRowToStruct row fieldMap fields dest in (v :: rest, err)
      end
    end.
Proof.
  unfold boundCell. simpl.
  destruct (Exported field); simpl; [|reflexivity].
  destruct (fieldMap !! boundColumn field) as [colIndex|]; [|reflexivity].
  destruct (row !! colIndex); reflexivity.
Qed.

(** A record whose binding returns no error: every field that reads a
    cell holds the conversion of the cell, every other field is as it
    was. *)
Lemma mapRowToStruct_ok (fields : list StructField) (dest dest' : list any) :
  length dest = length fields ->
  mapRowToStruct row fieldMap fields dest = (dest', None) ->
  length dest' = length dest
  /\ forall i field old,
       fields !! i = Some field -> dest !! i = Some old ->
       match boundCell row fieldMap field with
       | None => dest' !! i = Some old
       | Some cell =>
         exists v, setFieldValue (fieldKind field) (Sprint cell) = Ok v
                   /\ dest' !! i = Some v
       end.
Proof.
  revert dest dest'. induction fields as [|field fields IH]; intros [|old dest] dest' Hlen H;
    try discriminate.
  - simpl in H. injection H as <-. split; [reflexivity|]. intros i ? ? Hi. discriminate.
  - rewrite mapRowToStruct_step in H. simpl in Hlen. injection Hlen as Hlen.
    destruct (boundCell row fieldMap field) as [cell|] eqn:Hcell.
    + destruct (setFieldValue _ _) as [v|cause] eqn:Hset; [|discriminate].
      destruct (mapRowToStruct row fieldMap fields dest) as [rest err] eqn:Hrest.
      injection H as <- ->. destruct (IH dest rest Hlen Hrest) as [Hl Hf].
      split; [simpl; congruence|].
      intros [|i] f o Hi Ho; simpl in *.
      * injection Hi as <-. rewrite Hcell. eauto.
      * apply Hf; assumption.
    + destruct (mapRowToStruct row fieldMap fields dest) as [rest err] eqn:Hrest.
      injection H as <- ->. destruct (IH dest rest Hlen Hrest) as [Hl Hf].
      split; [simpl; congruence|].
      intros [|i] f o Hi Ho; simpl in *.
      * injection Hi as <-. injection Ho as <-. rewrite Hcell. reflexivity.
      * apply Hf; assumption.
Qed.

(** A record whose binding returns an error: the error names the first
    field whose cell does not convert. *)
Lemma mapRowToStruct_err (fields : list StructField) (dest dest' : list any)
    (e : error) :
  length dest = length fields ->
  mapRowToStruct row fieldMap fields dest = (dest', Some e) ->
  exists i field cell cause,
    fields !! i = Some field
    /\ boundCell row fieldMap field = Some cell
    /\ setFieldValue (fieldKind field) (Sprint cell) = Err cause
    /\ e = ErrSetField (Name field) cause
    /\ forall j earlier c,
         (j < i)%nat -> fields !! j = Some earlier ->
         boundCell row fieldMap earlier = Some c ->
         isOk (setFieldValue (fieldKind earlier) (Sprint c)) = true.
Proof.
  revert dest dest'. induction fields as [|field fields IH]; intros [|old dest] dest' Hlen H;
    try discriminate.
  rewrite mapRowToStruct_step in H. simpl in Hlen. injection Hlen as Hlen.
  destruct (boundCell row fieldMap field) as [cell|] eqn:Hcell.
  - destruct (setFieldValue _ _) as [v|cause] eqn:Hset.
    + destruct (mapRowToStruct row fieldMap fields dest) as [rest err] eqn:Hrest.
      injection H as <- ->.
      destruct (IH dest rest Hlen Hrest) as (i & f & c & cause & Hi & Hc & Hs & He & Hbefore).
      exists (S i), f, c, cause. repeat split; try assumption.
      intros [|j] earlier c' Hj Hlook Hb; simpl in Hlook.
      * injection Hlook as <-. rewrite Hcell in Hb. injection Hb as <-.
        rewrite Hset. reflexivity.
      * apply (Hbefore j earlier c'); [lia | assumption | assumption].
    + injection H as <- <-. exists 0%nat, field, cell, cause.
      repeat split; try assumption; try reflexivity.
      intros j ? ? Hj. lia.
  - destruct (mapRowToStruct row fieldMap fields dest) as [rest err] eqn:Hrest.
    injection H as <- ->.
    destruct (IH dest rest Hlen Hrest) as (i & f & c & cause & Hi & Hc & Hs & He & Hbefore).
    exists (S i), f, c, cause. repeat split; try assumption.
    intros [|j] earlier c' Hj Hlook Hb; simpl in Hlook.
    + injection Hlook as <-. congruence.
    + apply (Hbefore j earlier c'); [lia | assumption | assumption].
Qed.

End Binder.

(** C8, as stated, fails on a field that is not exported: its column is
    in the header and in the row, the cell does not parse as an
    integer, and yet the binder returns no error. *)
Lemma unexported_field_is_skipped :
  headerMap ("Age" :: nil) !! boundColumn privateAge = Some 0%nat
  /\ (Str "abc" :: nil) !! 0%nat = Some (Str "abc")
  /\ setFieldValue (RT := RefRuntime) (fieldKind privateAge) (Sprint (Str "abc"))
     = Err (NumError "ParseInt" "abc" ErrSyntax)
  /\ mapRowToStruct (RT := RefRuntime) (Str "abc" :: nil) (headerMap ("Age" :: nil))
       (privateAge :: nil) (zeroStruct (privateAge :: nil))
     = (zeroStruct (privateAge :: nil), None).
Proof. repeat split; vm_compute; reflexivity. Qed.

(** C8, amended. In the read direction, for every field of the
    destination record: a field that cannot be set (it is not
    exported), or whose column (its tag, or its name when it has no
    tag) is absent from the header or beyond the end of the row, is
    left as it was, with no error; any other field receives the
    conversion of the string form of its cell: the string itself for a
    string field; for an integer, floating-point or boolean field the
    zero value when the string is empty and the parsed value
    otherwise; a string that does not parse, or a field of any other
    kind, ends the binding with an error that names the field. *)
Theorem mapRowToStruct_binds_settable_fields (RT : GoRuntime) (row : list any)
    (fieldMap : gmap string nat) (fields : list StructField) (dest : list any) :
  length dest = length fields ->
  (forall k value, setFieldValue k value = converted RT k value)
  /\ match mapRowToStruct row fieldMap fields dest with
     | (dest', None) =>
       length dest' = length dest
       /\ forall i field old,
            fields !! i = Some field -> dest !! i = Some old ->
            match boundCell row fieldMap field with
            | None => dest' !! i = Some old
            | Some cell =>
              exists v, converted RT (fieldKind field) (Sprint cell) = Ok v
                        /\ dest' !! i = Some v
            end
     | (_, Some e) =>
       exists i field cell cause,
         fields !! i = Some field
         /\ boundCell row fieldMap field = Some cell
         /\ converted RT (fieldKind field) (Sprint cell) = Err cause
         /\ e = ErrSetField (Name field) cause
         /\ forall j earlier c,
              (j < i)%nat -> fields !! j = Some earlier ->
              boundCell row fieldMap earlier = Some c ->
              isOk (converted RT (fieldKind earlier) (Sprint c)) = true
     end.
Proof.
  intros Hlen. split; [apply setFieldValue_converted|].
  destruct (mapRowToStruct row fieldMap fields dest) as [dest' [e|]] eqn:H.
  - destruct (mapRowToStruct_err row fieldMap fields dest dest' e Hlen H)
      as (i & f & c & cause & Hi & Hc & Hs & He & Hb).
    exists i, f, c, cause. rewrite <- setFieldValue_converted.
    repeat split; try assumption.
    intros j earlier c' Hj Hl Hbc. rewrite <- setFieldValue_converted.
    eapply Hb; eassumption.
  - destruct (mapRowToStruct_ok row fieldMap fields dest dest' Hlen H) as [Hl Hf].
    split; [exact Hl|]. intros i f old Hi Ho. specialize (Hf i f old Hi Ho).
    destruct (boundCell row fieldMap f); [|exact Hf].
    destruct Hf as (v & Hv & Hd). exists v. rewrite <- setFieldValue_converted. auto.
Qed.

(** The row of John bound to a zero record: the three fields are set. *)
Lemma mapRowToStruct_binds_settable_fields_witness :
  length (zeroStruct personRecord) = length personRecord
  /\ mapRowToStruct (RT := RefRuntime) johnRow personHeaders personRecord
       (zeroStruct personRecord)
     = (Str "John" :: IntV Int 25 :: Str "NYC" :: nil, None)
  /\ (forall k value, setFieldValue (RT := RefRuntime) k value = converted RefRuntime k value)
  /\ match mapRowToStruct (RT := RefRuntime) johnRow personHeaders personRecord
             (zeroStruct personRecord) with
     | (dest', None) =>
       length dest' = length (zeroStruct personRecord)
       /\ forall i field old,
            personRecord !! i = Some field -> zeroStruct personRecord !! i = Some old ->
            match boundCell johnRow personHeaders field with
            | None => dest' !! i = Some old
            | Some cell =>
              exists v, converted RefRuntime (fieldKind field) (Sprint cell) = Ok v
                        /\ dest' !! i = Some v
            end
     | (_, Some e) =>
       exists i field cell cause,
         personRecord !! i = Some field
         /\ boundCell johnRow personHeaders field = Some cell
         /\ converted RefRuntime (fieldKind field) (Sprint cell) = Err cause
         /\ e = ErrSetField (Name field) cause
         /\ forall j earlier c,
              (j < i)%nat -> personRecord !! j = Some earlier ->
              boundCell johnRow personHeaders earlier = Some c ->
              isOk (converted RefRuntime (fieldKind earlier) (Sprint c)) = true
     end.
Proof.
  split; [reflexivity|]. split; [vm_compute; reflexivity|].
  exact (mapRowToStruct_binds_settable_fields RefRuntime johnRow personHeaders personRecord
           (zeroStruct personRecord) eq_refl).
Defined.

(** ** Writes *)

Section Writes.
Context `{RT : GoRuntime} {W : Type} (service : Service W).
Variables (q : Query) (headers : list string) (fieldMap : gmap string nat).

Lemma Update_loop_no_match (fields : list StructField) (values : list any)
    (rowIndex : nat) (rows : list (list any)) (n : Z) (w : W) :
  List.filter (fun row => matchesWhere q row headers fieldMap) rows = nil ->
  Update_loop service q fields values headers fieldMap rowIndex rows n w
  = (Returns (Ok n), w).
Proof.
  revert rowIndex. induction rows as [|row rest IH]; intros i Hm; [reflexivity|].
  simpl in Hm. simpl.
  destruct (matchesWhere q row headers fieldMap); [discriminate|]. simpl.
  apply IH. exact Hm.
Qed.

Lemma storeFields_exported (fields : list StructField) (values row : list any) :
  Forall (fun field => Exported field = true) fields ->
  storeFields fieldMap fields values row <> None.
Proof.
  intros Hall. revert values row.
  induction Hall as [|field fields Hx Hall IH]; intros [|v values] row; simpl;
    try discriminate.
  destruct (fieldMap !! boundColumn field); [rewrite Hx|]; apply IH.
Qed.

Lemma Update_loop_writes_succeed (fields : list StructField) (values : list any)
    (rowIndex : nat) (rows : list (list any)) (n : Z) (w : W) :
  updatesSucceed service ->
  match fst (Update_loop service q fields values headers fieldMap rowIndex rows n w) with
  | Panics => ~ Forall (fun field => Exported field = true) fields
  | Returns r =>
    r = Ok (n + Z.of_nat (length (List.filter
                                    (fun row => matchesWhere q row headers fieldMap) rows)))
  end.
Proof.
  intros Hw. revert rowIndex n w. induction rows as [|row rest IH]; intros i n w.
  - simpl. f_equal. lia.
  - simpl. destruct (matchesWhere q row headers fieldMap); simpl negb; cbv iota.
    + destruct (storeFields _ _ _ _) as [updatedRow|] eqn:Hstore.
      * destruct (ValuesUpdate service _ _ w) as [err w1] eqn:Hupd.
        pose proof (Hw (rowRange (sheetName q) (Z.of_nat i + 2)) (updatedRow :: nil) w) as H.
        rewrite Hupd in H. simpl in H. subst err.
        specialize (IH (S i) (n + 1) w1).
        destruct (fst (Update_loop _ _ _ _ _ _ _ _ _ _)); [|exact IH].
        rewrite IH. f_equal. simpl length. lia.
      * simpl. intros Hall. exact (storeFields_exported _ _ _ Hall Hstore).
    + apply IH.
Qed.

Lemma rowsToDelete_length (rowIndex : nat) (rows : list (list any)) :
  length (rowsToDelete q headers fieldMap rowIndex rows)
  = length (List.filter (fun row => matchesWhere q row headers fieldMap) rows).
Proof.
  revert rowIndex. induction rows as [|row rest IH]; intros i; [reflexivity|].
  simpl. destruct (matchesWhere q row headers fieldMap); simpl; rewrite IH; reflexivity.
Qed.

Lemma Delete_loop_succeeds (pending : list Z) (w : W) :
  deletionsSucceed service -> fst (Delete_loop service q pending w) = None.
Proof.
  intros Hd. revert w. induction pending as [|rowIndex rest IH]; intros w; [reflexivity|].
  simpl. destruct (getSheetId service q w) as [sheetId w1].
  destruct (DeleteRows service sheetId (rowIndex - 1) rowIndex w1) as [err w2] eqn:Hdel.
  pose proof (Hd sheetId (rowIndex - 1) rowIndex w1) as H. rewrite Hdel in H.
  simpl in H. subst err. apply IH.
Qed.

End Writes.

(** C9. An [Update] or a [Delete] whose predicates match none of the
    data rows that were read returns the error "no rows matched the
    where conditions"; with no row to match, whatever the read
    returned, it never returns a nil error.  When a row matches and
    every write succeeds it does not return that error: it returns nil
    (an [Update] panics instead when the record has an unexported field
    bound to a column). *)
Theorem write_without_match_is_an_error (RT : GoRuntime) (W : Type)
    (service : Service W) (q : Query) (data : Data) (w : W) :
  (forall header rows,
     fetched service q w = Ok (header :: rows) ->
     matchedRows q header rows = nil ->
     fst (Delete service q w) = Some ErrNoRowsMatched
     /\ forall fields values,
          data = StructData fields values ->
          fst (Update service q data w) = Returns (Some ErrNoRowsMatched))
  /\ ((forall header rows,
         fetched service q w = Ok (header :: rows) -> matchedRows q header rows = nil) ->
      fst (Update service q data w) <> Returns None
      /\ fst (Delete service q w) <> None)
  /\ (forall header rows,
        fetched service q w = Ok (header :: rows) ->
        matchedRows q header rows <> nil ->
        (deletionsSucceed service -> fst (Delete service q w) = None)
        /\ forall fields values,
             data = StructData fields values ->
             updatesSucceed service ->
             fst (Update service q data w) <> Returns (Some ErrNoRowsMatched)
             /\ (Forall (fun field => Exported field = true) fields ->
                 fst (Update service q data w) = Returns None)).
Proof.
  unfold fetched, matchedRows, Update, Delete.
  destruct (ValuesGet service (sheetName q ++ "!A:Z") w) as [resp w1]. simpl fst.
  assert (forall header rows,
            resp = Ok (header :: rows) ->
            List.filter (fun row => matchesWhere q row (map Sprint header)
                                      (headerMap (map Sprint header))) rows = nil ->
            fst (match resp with
                 | Ok nil => (Some ErrNoData, w1)
                 | Ok (header :: rows) =>
                   if Nat.eqb (length (rowsToDelete q (map Sprint header)
                                         (headerMap (map Sprint header)) 0 rows)) 0
                   then (Some ErrNoRowsMatched, w1)
                   else Delete_loop service q
                          (List.rev (rowsToDelete q (map Sprint header)
                                       (headerMap (map Sprint header)) 0 rows)) w1
                 | Err err => (Some (ErrReadSheet err), w1)
                 end) = Some ErrNoRowsMatched
            /\ forall fields values,
                 data = StructData fields values ->
                 fst (match data with
                      | StructData fields values =>
                        match resp with
                        | Ok nil => (Returns (Some ErrNoData), w1)
                        | Ok (header :: rows) =>
                          match Update_loop service q fields values (map Sprint header)
                                  (headerMap (map Sprint header)) 0 rows 0 w1 with
                          | (Returns (Ok updatedRows), w2) =>
                            if updatedRows =? 0
                            then (Returns (Some ErrNoRowsMatched), w2)
                            else (Returns None, w2)
                          | (Returns (Err err), w2) => (Returns (Some err), w2)
                          | (Panics, w2) => (Panics, w2)
                          end
                        | Err err => (Returns (Some (ErrReadSheet err)), w1)
                        end
                      | NotStruct => (Returns (Some ErrDataNotStruct), w)
                      end) = Returns (Some ErrNoRowsMatched)) as Hnone.
  { intros header rows -> Hm. rewrite rowsToDelete_length, Hm. simpl.
    split; [reflexivity|]. intros fields values ->.
    rewrite (Update_loop_no_match service q _ _ fields values 0 rows 0 w1 Hm).
    reflexivity. }
  split; [exact Hnone|]. split.
  - intros Hall. destruct resp as [[|header rows]|err].
    + destruct data; simpl; split; discriminate.
    + destruct (Hnone header rows eq_refl (Hall header rows eq_refl)) as [Hd Hu].
      split; [|rewrite Hd; discriminate].
      destruct data as [fields values|]; [|simpl; discriminate].
      rewrite (Hu fields values eq_refl). discriminate.
    + destruct data; simpl; split; discriminate.
  - intros header rows -> Hsome.
    set (headers := map Sprint header) in *.
    assert (0 < Z.of_nat (length (List.filter
              (fun row => matchesWhere q row headers (headerMap headers)) rows))) as Hpos.
    { destruct (List.filter _ rows); [contradiction | simpl; lia]. }
    split.
    + intros Hd. rewrite rowsToDelete_length.
      destruct (length (List.filter _ rows)) eqn:E; [simpl in Hpos; lia|].
      simpl. apply Delete_loop_succeeds. exact Hd.
    + intros fields values -> Hw.
      pose proof (Update_loop_writes_succeed service q headers (headerMap headers)
                    fields values 0 rows 0 w1 Hw) as H.
      destruct (Update_loop service q fields values headers (headerMap headers) 0 rows 0 w1)
        as [[r|] w2]; simpl in H.
      * subst r.
        destruct (Z.eqb_spec (0 + Z.of_nat (length (List.filter
                    (fun row => matchesWhere q row headers (headerMap headers)) rows))) 0)
          as [E|E]; [lia|].
        simpl. split; [discriminate | reflexivity].
      * simpl. split; [discriminate | intros Hall; contradiction].
Qed.

(** On the sheet of nine people nobody lives in Paris: an update and a
    deletion there return the error, and the service is asked for no
    write. *)
Lemma write_without_match_is_an_error_witness :
  fetched peopleService inParis nil = Ok ((Str "Name" :: Str "City" :: nil) :: peopleRows)
  /\ matchedRows (RT := RefRuntime) inParis (Str "Name" :: Str "City" :: nil) peopleRows = nil
  /\ Update (RT := RefRuntime) peopleService inParis
       (StructData person (Str "Ann" :: nil)) nil
     = (Returns (Some ErrNoRowsMatched), nil)
  /\ Delete (RT := RefRuntime) peopleService inParis nil = (Some ErrNoRowsMatched, nil)
  /\ fst (Delete (RT := RefRuntime) peopleService inParis nil) = Some ErrNoRowsMatched
  /\ forall fields values,
       StructData person (Str "Ann" :: nil) = StructData fields values ->
       fst (Update (RT := RefRuntime) peopleService inParis
              (StructData person (Str "Ann" :: nil)) nil)
       = Returns (Some ErrNoRowsMatched).
Proof.
  assert (matchedRows (RT := RefRuntime) inParis (Str "Name" :: Str "City" :: nil) peopleRows
          = nil) as H by (vm_compute; reflexivity).
  split; [reflexivity|]. split; [exact H|].
  split; [vm_compute; reflexivity|]. split; [vm_compute; reflexivity|].
  exact (proj1 (write_without_match_is_an_error RefRuntime _ peopleService inParis
                  (StructData person (Str "Ann" :: nil)) nil)
           (Str "Name" :: Str "City" :: nil) peopleRows eq_refl H).
Defined.

(** The writes that the service is asked for when rows match: an
    update of each matching row, at its number in the sheet; a
    deletion of each matching row, the last one first. *)
Example writes_with_matches :
  Update (RT := RefRuntime) peopleService inNYC
    (StructData person (Str "Ann" :: nil)) nil
  = (Returns None,
     UpdateRequest "People!A2:Z2" ((Str "Ann" :: Str "NYC" :: nil) :: nil)
     :: UpdateRequest "People!A4:Z4" ((Str "Ann" :: Str "NYC" :: nil) :: nil)
     :: UpdateRequest "People!A6:Z6" ((Str "Ann" :: Str "NYC" :: nil) :: nil)
     :: UpdateRequest "People!A8:Z8" ((Str "Ann" :: Str "NYC" :: nil) :: nil)
     :: UpdateRequest "People!A10:Z10" ((Str "Ann" :: Str "NYC" :: nil) :: nil) :: nil)
  /\ Delete (RT := RefRuntime) peopleService inNYC nil
     = (None,
        DeleteRequest 7 9 10 :: DeleteRequest 7 7 8 :: DeleteRequest 7 5 6
        :: DeleteRequest 7 3 4 :: DeleteRequest 7 1 2 :: nil).
Proof. split; vm_compute; reflexivity. Qed.

(** [Get] on the sheet of nine people, for those in NYC with offset 1
    and limit 2. *)
Example Get_people :
  Get (RT := RefRuntime) peopleService (Limit (Offset inNYC 1) 2) (SlicePtr person nil) nil
  = ((SlicePtr person ((Str "p2" :: nil) :: (Str "p4" :: nil) :: nil), None), nil).
Proof. vm_compute. reflexivity. Qed.

(** ** Regular expressions: the matcher finds the matches *)

Module RegexpFacts.
Import Bytes Regexp.

Lemma take_append (a b : string) : take (String.length a) (a ++ b) = a.
Proof.
  unfold take. induction a as [|c a IH]; simpl.
  - destruct b; reflexivity.
  - rewrite IH. reflexivity.
Qed.

Lemma consumed_append (a b : string) : consumed (a ++ b) b = a.
Proof.
  unfold consumed. rewrite length_append.
  replace (String.length a + String.length b - String.length b)%nat
    with (String.length a) by lia.
  apply take_append.
Qed.

Lemma stripPrefix_eqb (lit s rest : string) :
  stripPrefix Ascii.eqb lit s = Some rest <-> s = lit ++ rest.
Proof.
  revert s. induction lit as [|a lit IH]; intros s; simpl.
  - split; [intros [= ->] | intros ->]; reflexivity.
  - destruct s as [|c s]; [split; discriminate|].
    destruct (Ascii.eqb_spec a c) as [->|Hne].
    + rewrite IH. split; [intros -> | intros [= ->]]; reflexivity.
    + split; [discriminate | intros [= ? ?]; congruence].
Qed.

Lemma stripPrefix_fold (lit s rest : string) :
  stripPrefix eqFold lit s = Some rest <-> exists m, s = m ++ rest /\ foldEq lit m.
Proof.
  revert s. induction lit as [|a lit IH]; intros s; simpl.
  - split.
    + intros [= ->]. exists "". split; [reflexivity | exact I].
    + intros ([|c m] & -> & H); [reflexivity | destruct H].
  - destruct s as [|c s].
    + split; [discriminate|]. intros ([|d m] & Hs & H); [destruct H | discriminate].
    + destruct (eqFold a c) eqn:E.
      * rewrite IH. split.
        -- intros (m & -> & H). exists (String c m). simpl. auto.
        -- intros ([|d m] & Hs & H); [destruct H|]. simpl in Hs. injection Hs as <- ->.
           exists m. split; [reflexivity | apply H].
      * split; [discriminate|].
        intros ([|d m] & Hs & H); [destruct H|]. simpl in Hs. injection Hs as <- ->.
        destruct H as [H _]. congruence.
Qed.

Section ExecFacts.
Context {R : Type}.

Lemma star_unfold (p : ascii -> bool) (s : string) (k : string -> option R) :
  star p s k
  = match s with
    | String c s' =>
      if p c then match star p s' k with Some r => Some r | None => k s end else k s
    | EmptyString => k s
    end.
Proof. destruct s; reflexivity. Qed.

Lemma star_sound (p : ascii -> bool) (s : string) (k : string -> option R) (x : R) :
  star p s k = Some x ->
  exists s1 s2, s = s1 ++ s2 /\ all p s1 = true /\ k s2 = Some x.
Proof.
  induction s as [|c s IH]; simpl.
  - intros H. exists "", "". auto.
  - destruct (p c) eqn:Hp.
    + destruct (star p s k) as [r|] eqn:Hs.
      * intros [= ->]. destruct (IH eq_refl) as (s1 & s2 & -> & H1 & H2).
        exists (String c s1), s2. simpl. rewrite Hp. auto.
      * intros H. exists "", (String c s). auto.
    + intros H. exists "", (String c s). auto.
Qed.

Lemma star_continues (p : ascii -> bool) (s : string) (k : string -> option R) :
  k s <> None -> star p s k <> None.
Proof.
  intros H. rewrite star_unfold. destruct s as [|c s]; [exact H|].
  destruct (p c); [|exact H]. destruct (star p s k); [discriminate | exact H].
Qed.

Lemma star_complete (p : ascii -> bool) (s1 s2 : string) (k : string -> option R) :
  all p s1 = true -> k s2 <> None -> star p (s1 ++ s2) k <> None.
Proof.
  induction s1 as [|c s1 IH]; simpl; intros Hall Hk.
  - apply star_continues. exact Hk.
  - apply andb_true_iff in Hall as [Hc Hall]. rewrite Hc.
    specialize (IH Hall Hk). destruct (star p (s1 ++ s2) k); [discriminate | contradiction].
Qed.

(** When the continuation accepts whatever is left, a repetition takes
    all it can. *)
Lemma star_greedy (p : ascii -> bool) (s : string) (k : string -> option R) :
  (forall rest, k rest <> None) -> star p s k = k (dropWhile p s).
Proof.
  intros Hk. induction s as [|c s IH]; simpl; [reflexivity|].
  destruct (p c); [|reflexivity]. rewrite IH.
  destruct (k (dropWhile p s)) eqn:E; [reflexivity|]. destruct (Hk _ E).
Qed.

Lemma exec_sound (r : re) (s : string) (caps : list string)
    (k : string -> list string -> option R) (x : R) :
  exec r s caps k = Some x ->
  exists s1 s2 caps',
    s = s1 ++ s2 /\ Matches r s1 caps caps' /\ k s2 caps' = Some x.
Proof.
  revert s caps k x. induction r as [lit|lit|p|p|r1 IH1 r2 IH2|r1 IH1 r2 IH2|i r IH];
    intros s caps k x; simpl.
  - destruct (stripPrefix Ascii.eqb lit s) as [rest|] eqn:E; [|discriminate].
    apply stripPrefix_eqb in E as ->. intros H.
    exists lit, rest, caps. split; [reflexivity | split; [constructor | exact H]].
  - destruct (stripPrefix eqFold lit s) as [rest|] eqn:E; [|discriminate].
    apply stripPrefix_fold in E as (m & -> & Hm). intros H.
    exists m, rest, caps. split; [reflexivity | split; [constructor; exact Hm | exact H]].
  - unfold plus. destruct s as [|c s]; [discriminate|].
    destruct (p c) eqn:Hp; [|discriminate]. intros H.
    apply star_sound in H as (s1 & s2 & -> & Hall & Hk).
    exists (String c s1), s2, caps. split; [reflexivity | split; [constructor; assumption | exact Hk]].
  - intros H. apply star_sound in H as (s1 & s2 & -> & Hall & Hk).
    exists s1, s2, caps. split; [reflexivity | split; [constructor; assumption | exact Hk]].
  - intros H. apply IH1 in H as (s1 & s' & c1 & -> & M1 & H).
    apply IH2 in H as (s2 & s3 & c2 & -> & M2 & H).
    exists (s1 ++ s2), s3, c2. rewrite append_assoc.
    split; [reflexivity | split; [econstructor; eassumption | exact H]].
  - destruct (exec r1 s caps k) as [y|] eqn:E.
    + intros [= ->]. apply IH1 in E as (s1 & s2 & c1 & -> & M & H).
      exists s1, s2, c1. split; [reflexivity | split; [apply M_AltL; exact M | exact H]].
    + intros H. apply IH2 in H as (s1 & s2 & c1 & -> & M & H).
      exists s1, s2, c1. split; [reflexivity | split; [apply M_AltR; exact M | exact H]].
  - intros H. apply IH in H as (s1 & s2 & c1 & -> & M & H).
    rewrite consumed_append in H.
    exists s1, s2, (<[i := s1]> c1). split; [reflexivity | split; [constructor; exact M | exact H]].
Qed.

Lemma exec_complete (r : re) (s1 : string) (c0 c1 : list string) :
  Matches r s1 c0 c1 ->
  forall (s2 : string) (k : string -> list string -> option R),
    k s2 c1 <> None -> exec r (s1 ++ s2) c0 k <> None.
Proof.
  induction 1 as [lit caps|lit s caps Hf|p c s caps Hc Hall|p s caps Hall
                  |r1 r2 s1 s2 c0 c1 c2 M1 IH1 M2 IH2|r1 r2 s c0 c1 M IH
                  |r1 r2 s c0 c1 M IH|i r s c0 c1 M IH];
    intros s3 k Hk; simpl.
  - destruct (stripPrefix Ascii.eqb lit (lit ++ s3)) as [rest|] eqn:E.
    + apply stripPrefix_eqb in E.
      assert (rest = s3) as ->; [|exact Hk].
      clear -E. induction lit as [|a lit IH]; simpl in E; [congruence|].
      injection E as E. auto.
    + assert (stripPrefix Ascii.eqb lit (lit ++ s3) = Some s3) as E'
        by (apply stripPrefix_eqb; reflexivity).
      congruence.
  - assert (stripPrefix eqFold lit (s ++ s3) = Some s3) as ->; [|exact Hk].
    clear -Hf. revert s Hf. induction lit as [|a lit IH]; intros [|c s] Hf; simpl in *;
      try contradiction; [reflexivity|].
    destruct Hf as [-> Hf]. apply IH. exact Hf.
  - unfold plus. rewrite Hc. apply star_complete; assumption.
  - apply star_complete; assumption.
  - rewrite append_assoc. apply IH1. apply IH2. exact Hk.
  - specialize (IH s3 k Hk). destruct (exec r1 (s ++ s3) c0 k); [discriminate | contradiction].
  - destruct (exec r1 (s ++ s3) c0 k); [discriminate | apply IH; exact Hk].
  - apply IH. rewrite consumed_append. exact Hk.
Qed.

End ExecFacts.

Lemma Matches_length (r : re) (s : string) (c0 c1 : list string) :
  Matches r s c0 c1 -> length c1 = length c0.
Proof.
  induction 1; try reflexivity; try congruence.
  rewrite length_insert. assumption.
Qed.

(** Where [matchAt] succeeds, a prefix of the input matches. *)
Lemma matchAt_sound (r : re) (s : string) (caps : list string) (rest : string) :
  matchAt r s = Some (caps, rest) ->
  exists m, s = m ++ rest
            /\ Matches (Group 0 r) m (replicate (S (groups r)) EmptyString) caps.
Proof.
  unfold matchAt. intros H. apply exec_sound in H as (m & s2 & c1 & -> & M & [= <- <-]).
  exists m. auto.
Qed.

Lemma matchAt_complete (r : re) (m rest : string) (c1 : list string) :
  Matches r m (replicate (S (groups r)) EmptyString) c1 -> matchAt r (m ++ rest) <> None.
Proof.
  intros M. unfold matchAt.
  apply (exec_complete (Group 0 r) m _ _ (M_Group 0 r m _ _ M)). discriminate.
Qed.

Lemma matchAt_captures (r : re) (s : string) (caps : list string) (rest : string) :
  matchAt r s = Some (caps, rest) -> length caps = S (groups r).
Proof.
  intros H. apply matchAt_sound in H as (m & _ & M).
  apply Matches_length in M. rewrite M. apply length_replicate.
Qed.

Lemma FindStringSubmatch_unfold (r : re) (s : string) :
  FindStringSubmatch r s
  = match matchAt r s with
    | Some (caps, _) => caps
    | None =>
      match s with
      | EmptyString => nil
      | String _ s' => FindStringSubmatch r s'
      end
    end.
Proof. destruct s; reflexivity. Qed.

(** The submatches that [FindStringSubmatch] returns are those of a
    match that starts somewhere in the string. *)
Lemma FindStringSubmatch_found (r : re) (s : string) :
  FindStringSubmatch r s <> nil ->
  exists pre suf rest,
    s = pre ++ suf /\ matchAt r suf = Some (FindStringSubmatch r s, rest).
Proof.
  induction s as [|c s IH]; rewrite FindStringSubmatch_unfold.
  - destruct (matchAt r "") as [[caps rest]|] eqn:E; [|congruence].
    intros _. exists "", "", rest. auto.
  - destruct (matchAt r (String c s)) as [[caps rest]|] eqn:E.
    + intros _. exists "", (String c s), rest. auto.
    + intros H. destruct (IH H) as (pre & suf & rest & -> & Hm).
      exists (String c pre), suf, rest. auto.
Qed.

(** [FindStringSubmatch] finds a match wherever the string has one. *)
Lemma FindStringSubmatch_complete (r : re) (pre m post : string) (c1 : list string) :
  Matches r m (replicate (S (groups r)) EmptyString) c1 ->
  FindStringSubmatch r (pre ++ m ++ post) <> nil.
Proof.
  intros M. induction pre as [|c pre IH]; simpl append; rewrite FindStringSubmatch_unfold.
  - pose proof (matchAt_complete r m post c1 M) as H.
    destruct (matchAt r (m ++ post)) as [[caps rest]|] eqn:E; [|contradiction].
    apply matchAt_captures in E. destruct caps; [discriminate | discriminate].
  - destruct (matchAt r (String c (pre ++ m ++ post))) as [[caps rest]|] eqn:E; [|exact IH].
    apply matchAt_captures in E. destruct caps; discriminate.
Qed.

Lemma dropWhile_split (p : ascii -> bool) (s : string) :
  exists a, s = a ++ dropWhile p s
            /\ all p a = true
            /\ match dropWhile p s with
               | EmptyString => True
               | String c _ => p c = false
               end.
Proof.
  induction s as [|c s IH]; simpl.
  - exists "". auto.
  - destruct (p c) eqn:Hp.
    + destruct IH as (a & Ha & Hall & Hrest). exists (String c a). simpl.
      rewrite Hp, <- Ha. auto.
    + exists "". simpl. rewrite Hp. auto.
Qed.

End RegexpFacts.


(** ** The pattern of a condition *)

Module WhereFacts.
Import Bytes Regexp RegexpFacts Patterns.

Lemma operators_inv (op : string) (c c' : list string) :
  Matches operators op c c' -> c' = c /\ In op operatorTokens.
Proof.
  unfold operators. intros H. invert_matches; (split; [reflexivity | simpl; tauto]).
Qed.

Lemma operators_intro (op : string) (c : list string) :
  In op operatorTokens -> Matches operators op c c.
Proof.
  unfold operators, operatorTokens. simpl.
  intros [<-|[<-|[<-|[<-|[<-|[<-|[<-|[<-|[]]]]]]]]]; pick_operator.
Qed.

Section Steps.
Context {R : Type}.

Lemma exec_Seq_inv (r1 r2 : re) (s : string) (c : list string)
    (k : string -> list string -> option R) (x : R) :
  exec (Seq r1 r2) s c k = Some x ->
  exists s1 s' c1, s = s1 ++ s' /\ Matches r1 s1 c c1 /\ exec r2 s' c1 k = Some x.
Proof.
  intros H. apply (exec_sound r1 s c (fun s1 c1 => exec r2 s1 c1 k)) in H.
  destruct H as (s1 & s' & c1 & -> & M & H). eauto 8.
Qed.

(** A last group [(c+)], followed by a continuation that accepts
    whatever is left, captures all the bytes of the class that come
    next. *)
Lemma exec_last_group (i : nat) (p : ascii -> bool) (s : string) (c : list string)
    (k : string -> list string -> option R) (x : R) :
  (forall rest caps, k rest caps <> None) ->
  exec (Group i (Plus p)) s c k = Some x ->
  exists val rest,
    s = val ++ rest /\ val <> "" /\ all p val = true
    /\ match rest with EmptyString => True | String ch _ => p ch = false end
    /\ k rest (<[i := val]> c) = Some x.
Proof.
  intros Hk. simpl. unfold plus. destruct s as [|ch s]; [discriminate|].
  destruct (p ch) eqn:Hp; [|discriminate].
  rewrite star_greedy by (intros rest; apply Hk).
  destruct (dropWhile_split p s) as (a & Ha & Hall & Hrest).
  intros H. exists (String ch a), (dropWhile p s).
  assert (String ch s = String ch a ++ dropWhile p s) as E by (simpl; congruence).
  split; [exact E|]. split; [discriminate|]. split; [simpl; rewrite Hp; exact Hall|].
  split; [exact Hrest|].
  rewrite E in H at 1. rewrite consumed_append in H. exact H.
Qed.

End Steps.

(** A match of the condition pattern at the start of the input: the
    submatches are the match, the column, the operator and the value,
    and the value runs to the end of the line. *)
Lemma operatorRegex_matchAt (s : string) (caps : list string) (rest : string) :
  matchAt operatorRegex s = Some (caps, rest) ->
  exists col ws1 op ws2 val,
    s = (col ++ ws1 ++ op ++ ws2 ++ val) ++ rest
    /\ shape col ws1 op ws2 val
    /\ caps = (col ++ ws1 ++ op ++ ws2 ++ val) :: col :: op :: val :: nil
    /\ atEndOfLine rest.
Proof.
  unfold matchAt, operatorRegex. intros H.
  change (exec (Seq (Group 1 (Plus isWord))
                 (Seq (Star isSpace) (Seq (Group 2 operators)
                   (Seq (Star isSpace) (Group 3 (Plus notNewline))))))
            s (replicate 4 EmptyString)
            (fun rest caps1 => Some (<[0%nat := consumed s rest]> caps1, rest))
          = Some (caps, rest)) in H.
  apply exec_Seq_inv in H as (col & s1 & c1 & Hs & M1 & H).
  apply exec_Seq_inv in H as (ws1 & s2 & c2 & Hs1 & M2 & H).
  apply exec_Seq_inv in H as (op & s3 & c3 & Hs2 & M3 & H).
  apply exec_Seq_inv in H as (ws2 & s4 & c4 & Hs3 & M4 & H).
  apply exec_last_group in H as (val & rest' & Hs4 & Hval & Hall & Hend & H);
    [|discriminate].
  injection H as Hcaps Hrest. subst rest'.
  inversion M1 as [| | | | | | |i1 r1 m1 c01 c11 M1']; subst.
  inversion M1' as [| |p1 ch col' c01 Hch Hcol| | | | |]; subst.
  inversion M2 as [| | |p2 m2 c02 Hws1| | | |]; subst.
  inversion M3 as [| | | | | | |i3 r3 m3 c03 c13 M3']; subst.
  apply operators_inv in M3' as [-> Hop].
  inversion M4 as [| | |p4 m4 c04 Hws2| | | |]; subst.
  exists (String ch col'), ws1, op, ws2, val.
  assert (String ch col' ++ ws1 ++ op ++ ws2 ++ val ++ rest
          = (String ch col' ++ ws1 ++ op ++ ws2 ++ val) ++ rest) as E.
  { rewrite !append_assoc. reflexivity. }
  split; [exact E|]. split.
  { unfold shape. repeat split; try assumption; try discriminate.
    simpl. rewrite Hch. assumption. }
  split; [|exact Hend].
  rewrite E. rewrite consumed_append. reflexivity.
Qed.

(** A part of the shape at the start of the input is a match. *)
Lemma shape_Matches (col ws1 op ws2 val : string) :
  shape col ws1 op ws2 val ->
  exists c1, Matches operatorRegex (col ++ ws1 ++ op ++ ws2 ++ val)
               (replicate (S (groups operatorRegex)) EmptyString) c1.
Proof.
  intros (Hcol & Hw & Hs1 & Hop & Hs2 & Hval & Hnn).
  destruct col as [|c col]; [contradiction|]. destruct val as [|v val]; [contradiction|].
  simpl in Hw, Hnn. apply andb_true_iff in Hw as [Hc Hw]. apply andb_true_iff in Hnn as [Hv Hnn].
  eexists. unfold operatorRegex.
  eapply M_Seq; [apply M_Group, M_Plus; assumption|].
  eapply M_Seq; [apply M_Star; assumption|].
  eapply M_Seq; [apply M_Group, operators_intro; assumption|].
  eapply M_Seq; [apply M_Star; assumption|].
  apply M_Group, M_Plus; assumption.
Qed.

(** [FindStringSubmatch] on the condition pattern returns four
    submatches exactly when the condition has a part of the shape. *)
Lemma operatorRegex_find (condition : string) :
  (hasShape condition <-> FindStringSubmatch operatorRegex condition <> nil)
  /\ (FindStringSubmatch operatorRegex condition <> nil ->
      exists pre col ws1 op ws2 val post,
        condition = pre ++ (col ++ ws1 ++ op ++ ws2 ++ val) ++ post
        /\ shape col ws1 op ws2 val
        /\ atEndOfLine post
        /\ FindStringSubmatch operatorRegex condition
           = (col ++ ws1 ++ op ++ ws2 ++ val) :: col :: op :: val :: nil).
Proof.
  assert (FindStringSubmatch operatorRegex condition <> nil ->
          exists pre col ws1 op ws2 val post,
            condition = pre ++ (col ++ ws1 ++ op ++ ws2 ++ val) ++ post
            /\ shape col ws1 op ws2 val
            /\ atEndOfLine post
            /\ FindStringSubmatch operatorRegex condition
               = (col ++ ws1 ++ op ++ ws2 ++ val) :: col :: op :: val :: nil) as Hfound.
  { intros H. apply FindStringSubmatch_found in H as (pre & suf & rest & -> & Hm).
    apply operatorRegex_matchAt in Hm as (col & ws1 & op & ws2 & val & -> & Hsh & Hc & He).
    exists pre, col, ws1, op, ws2, val, rest. auto. }
  split; [|exact Hfound]. split.
  - intros (pre & col & ws1 & op & ws2 & val & post & -> & Hsh).
    destruct (shape_Matches _ _ _ _ _ Hsh) as [c1 M].
    apply (FindStringSubmatch_complete operatorRegex pre _ post c1 M).
  - intros H. destruct (Hfound H) as (pre & col & ws1 & op & ws2 & val & post & E & Hsh & _).
    exists pre, col, ws1, op, ws2, val, post. auto.
Qed.

End WhereFacts.


(** ** The parser of conditions *)


Section ParserFacts.
Context `{RT : GoRuntime}.
Import Bytes WhereFacts.

(** A condition is accepted exactly when, trimmed, it has a part of the
    shape; the clause then holds the column, the operator and the
    coerced value of the leftmost such part, the value running to the
    end of the line and losing the quotes around it; a condition that
    is not accepted is reported by the error. *)
Lemma parseCondition_spec (condition : string) :
  let trimmed := GoStrings.TrimSpace condition in
  (hasShape trimmed <-> isOk (parseCondition condition) = true)
  /\ (~ hasShape trimmed -> parseCondition condition = Err (ErrInvalidWhere trimmed))
  /\ (forall clause,
        parseCondition condition = Ok clause ->
        exists pre col ws1 op ws2 val post,
          trimmed = pre ++ (col ++ ws1 ++ op ++ ws2 ++ val) ++ post
          /\ shape col ws1 op ws2 val
          /\ atEndOfLine post
          /\ Column clause = col
          /\ Operator clause = normalized op
          /\ Value clause = coerceValue (GoStrings.Trim val Patterns.quotes)).
Proof.
  intros trimmed. unfold parseCondition. fold trimmed.
  destruct (operatorRegex_find trimmed) as [Hiff Hfound].
  destruct (Regexp.FindStringSubmatch Patterns.operatorRegex trimmed) as [|m caps] eqn:E.
  - assert (~ hasShape trimmed) as Hno by (rewrite Hiff; auto).
    split; [split; [contradiction | discriminate]|].
    split; [reflexivity | discriminate].
  - destruct (Hfound ltac:(discriminate))
      as (pre & col & ws1 & op & ws2 & val & post & Htrim & Hsh & Hend & Hcaps).
    injection Hcaps as -> ->. simpl.
    assert (hasShape trimmed) as Hyes by (apply Hiff; discriminate).
    split; [split; auto|]. split; [contradiction|].
    intros clause [= <-]. exists pre, col, ws1, op, ws2, val, post. simpl.
    split; [exact Htrim|]. split; [exact Hsh|]. split; [exact Hend|]. auto.
Qed.

Lemma parseConditions_spec (query : Query) (conditions : list string) :
  (snd (parseConditions query conditions) = None
   <-> Forall (fun c => hasShape (GoStrings.TrimSpace c)) conditions)
  /\ (forall e,
        snd (parseConditions query conditions) = Some e ->
        exists before c after,
          conditions = (before ++ c :: after)%list
          /\ Forall (fun c => hasShape (GoStrings.TrimSpace c)) before
          /\ ~ hasShape (GoStrings.TrimSpace c)
          /\ e = ErrInvalidWhere (GoStrings.TrimSpace c)).
Proof.
  revert query. induction conditions as [|c rest IH]; intros query; simpl.
  - split; [split; auto | discriminate].
  - destruct (parseCondition_spec c) as (Hiff & Herr & _).
    destruct (parseCondition c) as [clause|err] eqn:E.
    + assert (hasShape (GoStrings.TrimSpace c)) as Hc by (apply Hiff; reflexivity).
      destruct (IH (Where query (Column clause) (Operator clause) (Value clause)))
        as [IH1 IH2].
      split.
      * rewrite IH1. split; [intros H; constructor; assumption | inversion 1; assumption].
      * intros e He. destruct (IH2 e He) as (before & c' & after & -> & Hb & Hn & ->).
        exists (c :: before), c', after. repeat split; auto.
    + assert (~ hasShape (GoStrings.TrimSpace c)) as Hc.
      { intros H. apply Hiff in H. discriminate. }
      simpl. split.
      * split; [discriminate | inversion 1; contradiction].
      * intros e [= <-]. exists nil, c, rest. pose proof (Herr Hc) as H.
        injection H as ->. repeat split; auto.
Qed.

End ParserFacts.


(** ** Splitting on AND *)

Module SplitFacts.
Import Bytes Regexp RegexpFacts Patterns.

Lemma rev_acc_append (s acc t : string) : rev_acc s acc ++ t = rev_acc s (acc ++ t).
Proof. revert acc. induction s as [|c s IH]; intros acc; simpl; [reflexivity | apply IH]. Qed.

Lemma rev_cons_append (c : ascii) (p s : string) :
  rev (String c p) ++ s = rev p ++ String c s.
Proof. unfold rev. simpl. rewrite !rev_acc_append. reflexivity. Qed.

Lemma rev_cons (c : ascii) (p : string) : rev (String c p) = rev p ++ String c "".
Proof. rewrite <- (append_nil_r (rev (String c p))). apply rev_cons_append. Qed.

Lemma andRegex_isMatch (sep : string) : isMatch andRegex sep <-> andSeparator sep.
Proof.
  unfold isMatch, andRegex, andSeparator. split.
  - intros [caps M].
    inversion M as [| | | |r1 r2 ws1 s2 c0 c1 c2 M1 M2| | |]; subst.
    inversion M2 as [| | | |r1 r2 kw ws2 c0 c1' c2' M3 M4| | |]; subst.
    inversion M1 as [| |p ch a c0 Hch Ha| | | | |]; subst.
    inversion M3 as [|lit m c0 Hf| | | | | |]; subst.
    inversion M4 as [| |p ch' b c0 Hch' Hb| | | | |]; subst.
    exists (String ch a), kw, (String ch' b). simpl. rewrite Hch, Hch'.
    repeat split; try assumption; discriminate.
  - intros (ws1 & kw & ws2 & -> & Hn1 & Hw1 & Hf & Hn2 & Hw2).
    destruct ws1 as [|ch a]; [contradiction|]. destruct ws2 as [|ch' b]; [contradiction|].
    simpl in Hw1, Hw2. apply andb_true_iff in Hw1 as [? ?]. apply andb_true_iff in Hw2 as [? ?].
    eexists. eapply M_Seq; [apply M_Plus; assumption|].
    eapply M_Seq; [apply M_LitFold; assumption | apply M_Plus; assumption].
Qed.

Lemma isMatch_Group (r : re) (m : string) (caps : list string) :
  Matches (Group 0 r) m (replicate (S (groups r)) EmptyString) caps -> isMatch r m.
Proof. inversion 1; subst. eexists; eassumption. Qed.

Section SplitLoop.
Variable r : re.

(** The pieces, woven with the matches that separate them, are the
    input. *)
Lemma splitLoop_weave (fuel : nat) (s piece : string) :
  exists seps,
    length (splitLoop r fuel s piece) = S (length seps)
    /\ rev piece ++ s = weave (splitLoop r fuel s piece) seps
    /\ Forall (isMatch r) seps.
Proof.
  revert s piece. induction fuel as [|fuel IH]; intros s piece; simpl.
  - exists nil. auto.
  - destruct (matchAt r s) as [[caps rest]|] eqn:E.
    + apply matchAt_sound in E as (m & -> & M).
      destruct (IH rest "") as (seps & Hlen & Hw & Hall).
      exists (m :: seps). simpl. rewrite Hlen. split; [reflexivity|].
      split; [|constructor; [eapply isMatch_Group; eassumption | assumption]].
      destruct (splitLoop r fuel rest "") as [|p ps] eqn:Es; [discriminate|].
      simpl in Hw. simpl. rewrite <- Hw. reflexivity.
    + destruct s as [|c s].
      * exists nil. rewrite append_nil_r. auto.
      * destruct (IH s (String c piece)) as (seps & Hlen & Hw & Hall).
        exists seps. rewrite <- rev_cons_append. auto.
Qed.

Hypothesis nonempty : ~ isMatch r "".

Lemma matchAt_shorter (s : string) (caps : list string) (rest : string) :
  matchAt r s = Some (caps, rest) -> (String.length rest < String.length s)%nat.
Proof.
  intros E. apply matchAt_sound in E as (m & -> & M). apply isMatch_Group in M.
  rewrite length_append. destruct m; [contradiction | simpl; lia].
Qed.

Lemma snoc_split (pre suf a : string) (c : ascii) :
  pre ++ suf = a ++ String c "" -> suf <> "" ->
  exists suf0, suf = suf0 ++ String c "" /\ a = pre ++ suf0.
Proof.
  revert a. induction pre as [|d pre IH]; intros a H Hne; simpl in H.
  - exists a. auto.
  - destruct a as [|e a]; simpl in H.
    + injection H as -> H. destruct pre; [destruct suf; [contradiction | discriminate] | discriminate].
    + injection H as -> H. destruct (IH a H Hne) as (suf0 & -> & ->).
      exists suf0. auto.
Qed.

(** With fuel for every byte, no piece has a match inside: every match
    that the scan meets is a separator. *)
Lemma splitLoop_matchFree (fuel : nat) (s piece : string) :
  (String.length s < fuel)%nat ->
  (forall pre suf, rev piece = pre ++ suf -> suf <> "" -> matchAt r (suf ++ s) = None) ->
  Forall (matchFree r) (splitLoop r fuel s piece).
Proof.
  revert s piece. induction fuel as [|fuel IH]; intros s piece Hfuel Hinv; [lia|].
  assert (matchAt r s <> None \/ s = "" -> matchFree r (rev piece)) as Hfree.
  { intros Hs pre m post Hp [caps M].
    destruct (m ++ post) as [|c t] eqn:Emp.
    - destruct m; [|discriminate]. apply nonempty. eexists; eassumption.
    - pose proof (Hinv pre (m ++ post)) as H. rewrite Emp in H.
      specialize (H ltac:(congruence) ltac:(discriminate)).
      rewrite <- Emp in H. rewrite append_assoc in H.
      exact (matchAt_complete r m (post ++ s) caps M H). }
  simpl. destruct (matchAt r s) as [[caps rest]|] eqn:E.
  - constructor; [apply Hfree; left; discriminate|].
    apply IH.
    + apply matchAt_shorter in E. lia.
    + intros pre suf H Hne. destruct pre; destruct suf; try discriminate. contradiction.
  - destruct s as [|c s].
    + constructor; [apply Hfree; right; reflexivity | constructor].
    + apply IH; [simpl in Hfuel; lia|].
      intros pre suf H Hne. rewrite rev_cons in H.
      destruct (snoc_split pre suf (rev piece) c (eq_sym H) Hne) as (suf0 & -> & Hrev).
      rewrite append_assoc. simpl. destruct suf0 as [|d suf0]; [exact E|].
      apply (Hinv pre (String d suf0) Hrev). discriminate.
Qed.

End SplitLoop.

Lemma andRegex_nonempty : ~ isMatch andRegex "".
Proof.
  rewrite andRegex_isMatch. intros (ws1 & kw & ws2 & H & Hn & _).
  destruct ws1; [contradiction | discriminate].
Qed.

(** [Split] on AND: the clause is its pieces woven with separators,
    each of them the word AND between white space, and no piece has
    such a separator inside. *)
Lemma Split_and (whereClause : string) :
  exists seps,
    length (Split andRegex whereClause) = S (length seps)
    /\ whereClause = weave (Split andRegex whereClause) seps
    /\ Forall andSeparator seps
    /\ Forall (fun piece =>
                 forall pre sep post, piece = pre ++ sep ++ post -> ~ andSeparator sep)
         (Split andRegex whereClause).
Proof.
  unfold Split.
  destruct (splitLoop_weave andRegex (S (String.length whereClause)) whereClause "")
    as (seps & Hlen & Hw & Hall).
  exists seps. split; [exact Hlen|]. split; [exact Hw|]. split.
  - eapply Forall_impl; [exact Hall|]. intros sep. apply andRegex_isMatch.
  - pose proof (splitLoop_matchFree andRegex andRegex_nonempty
                  (S (String.length whereClause)) whereClause "") as H.
    eapply Forall_impl; [apply H|].
    + lia.
    + intros pre suf E Hne. destruct pre; destruct suf; try discriminate. contradiction.
    + intros piece Hfree pre sep post Hp Hsep. apply (Hfree pre sep post Hp).
      apply andRegex_isMatch. exact Hsep.
Qed.

End SplitFacts.


(** ** Trimming the quotes *)

Module TrimFacts.
Import Bytes RegexpFacts SplitFacts.

Lemma rev_append (a b : string) : rev (a ++ b) = rev b ++ rev a.
Proof.
  induction a as [|c a IH]; simpl.
  - rewrite append_nil_r. reflexivity.
  - rewrite !rev_cons, IH, append_assoc. reflexivity.
Qed.

Lemma rev_involutive (s : string) : rev (rev s) = s.
Proof.
  induction s as [|c s IH]; [reflexivity|].
  rewrite rev_cons, rev_append, IH. reflexivity.
Qed.

Lemma all_append (p : ascii -> bool) (a b : string) :
  all p (a ++ b) = all p a && all p b.
Proof. induction a as [|c a IH]; simpl; [reflexivity|]. rewrite IH, andb_assoc. reflexivity. Qed.

Lemma all_rev (p : ascii -> bool) (s : string) : all p (rev s) = all p s.
Proof.
  induction s as [|c s IH]; [reflexivity|].
  rewrite rev_cons, all_append, IH. simpl. rewrite andb_true_r. apply andb_comm.
Qed.

Lemma headIs_append (p : ascii -> bool) (a b : string) :
  a <> "" -> headIs p (a ++ b) = headIs p a.
Proof. destruct a; [contradiction | reflexivity]. Qed.

Lemma dropWhile_head (p : ascii -> bool) (s : string) :
  exists a, s = a ++ dropWhile p s /\ all p a = true /\ headIs p (dropWhile p s) = false.
Proof.
  destruct (dropWhile_split p s) as (a & Ha & Hall & Hh).
  exists a. split; [exact Ha|]. split; [exact Hall|].
  destruct (dropWhile p s); [reflexivity | exact Hh].
Qed.

(** [strings.Trim] removes a run of bytes of the cutset at each end,
    and what it leaves neither starts nor ends with such a byte. *)
Lemma Trim_spec (s cutset : string) :
  let p := GoStrings.inCutset cutset in
  let t := GoStrings.Trim s cutset in
  exists l r,
    s = l ++ t ++ r
    /\ all p l = true /\ all p r = true
    /\ headIs p t = false /\ headIs p (rev t) = false.
Proof.
  intros p t. subst t. unfold GoStrings.Trim, GoStrings.TrimLeft, GoStrings.TrimRight.
  fold p.
  destruct (dropWhile_head p (rev s)) as (a & Ha & Hall & Hd).
  set (d := dropWhile p (rev s)) in *.
  destruct (dropWhile_head p (rev d)) as (l & Hl & Hlall & Ht).
  set (t := dropWhile p (rev d)) in *.
  exists l, (rev a).
  assert (s = rev d ++ rev a) as Hs.
  { rewrite <- rev_append, <- Ha. symmetry. apply rev_involutive. }
  split; [rewrite Hs, Hl at 1; apply append_assoc|].
  split; [exact Hlall|]. split; [rewrite all_rev; exact Hall|]. split; [exact Ht|].
  assert (d = rev t ++ rev l) as Hdt.
  { rewrite <- rev_append, <- Hl. symmetry. apply rev_involutive. }
  destruct (rev t) as [|c t'] eqn:Et; [reflexivity|].
  rewrite Hdt in Hd. exact Hd.
Qed.

End TrimFacts.

(** ** The claims on the parser *)

(** C4. The value of a condition is coerced in this order, the first
    success winning: an integer, else a floating-point number, else a
    boolean, else the string itself; there is no failure.  ["18"] is
    the integer 18, ["19.99"] a float, ["true"] a boolean, and
    ["New York"] a string. *)
Theorem coerceValue_precedence :
  (forall (RT : GoRuntime) (value : string),
     match Strconv.Atoi value, ParseFloat value, Strconv.ParseBool value with
     | Ok intVal, _, _ => coerceValue value = IntV Int intVal
     | Err _, Ok floatVal, _ => coerceValue value = FloatV Float64 floatVal
     | Err _, Err _, Ok boolVal => coerceValue value = BoolV boolVal
     | Err _, Err _, Err _ => coerceValue value = Str value
     end)
  /\ coerceValue (RT := RefRuntime) "18" = IntV Int 18
  /\ (coerceValue (RT := RefRuntime) "19.99"
      = FloatV Float64 (S754_finite false 5626684784446013 (-48))
      /\ Sprint (RT := RefRuntime) (coerceValue (RT := RefRuntime) "19.99") = "19.99")
  /\ coerceValue (RT := RefRuntime) "true" = BoolV true
  /\ coerceValue (RT := RefRuntime) "New York" = Str "New York"
  /\ (coerceValue (RT := RefRuntime) "1" = IntV Int 1
      /\ coerceValue (RT := RefRuntime) "1e3" = FloatV Float64 (S754_finite false 8796093022208000 (-43))
      /\ coerceValue (RT := RefRuntime) "t" = BoolV true).
Proof.
  split.
  - intros RT value. unfold coerceValue.
    destruct (Strconv.Atoi value), (ParseFloat value), (Strconv.ParseBool value);
      reflexivity.
  - repeat split; vm_compute; reflexivity.
Qed.

Section ParserClaims.
Import Bytes Patterns WhereFacts SplitFacts TrimFacts.

(** C5, as stated, fails on a lowercase [like]: the condition is
    rejected. *)
Lemma lowercase_like_is_rejected :
  parseWhere (RT := RefRuntime) (From "Users") "Name like 'Jo'"
  = (From "Users", Some (ErrInvalidWhere "Name like 'Jo'")).
Proof. vm_compute. reflexivity. Qed.

(** C5, amended. The WHERE clause is split on every AND that stands
    between white space, in letters of either case.  Each condition,
    trimmed, is accepted exactly when it has a part of the shape
    [<column> <operator> <value>] with an operator among [=], [!=],
    [<>], [<=], [>=], [<], [>] and [LIKE], the last in capitals only;
    the first condition without such a part ends the parse with the
    error "invalid WHERE condition" naming that condition. *)
Theorem parseWhere_splits_and_matches :
  (forall (RT : GoRuntime) (query : Query) (whereClause : string),
     let pieces := Regexp.Split andRegex whereClause in
     (exists seps,
        length pieces = S (length seps)
        /\ whereClause = weave pieces seps
        /\ Forall andSeparator seps
        /\ Forall (fun piece =>
                     forall pre sep post, piece = pre ++ sep ++ post -> ~ andSeparator sep)
             pieces)
     /\ (snd (parseWhere query whereClause) = None
         <-> Forall (fun piece => hasShape (GoStrings.TrimSpace piece)) pieces)
     /\ (forall e,
           snd (parseWhere query whereClause) = Some e ->
           exists before piece after,
             pieces = (before ++ piece :: after)%list
             /\ Forall (fun piece => hasShape (GoStrings.TrimSpace piece)) before
             /\ ~ hasShape (GoStrings.TrimSpace piece)
             /\ e = ErrInvalidWhere (GoStrings.TrimSpace piece)))
  /\ parseWhere (RT := RefRuntime) (From "Users") "Age > 18 and Name LIKE 'Jo'"
     = (Where (Where (From "Users") "Age" ">" (IntV Int 18)) "Name" "LIKE" (Str "Jo"), None)
  /\ parseWhere (RT := RefRuntime) (From "Users") "Age <> 25 AnD Name like 'Jo'"
     = (Where (From "Users") "Age" "!=" (IntV Int 25),
        Some (ErrInvalidWhere "Name like 'Jo'")).
Proof.
  split; [|split; vm_compute; reflexivity].
  intros RT query whereClause pieces. split; [apply Split_and|].
  unfold parseWhere. fold pieces. apply parseConditions_spec.
Qed.

(** The clause ["Name like 'Jo'"] is one piece, and it has no part of
    the shape. *)
Lemma parseWhere_splits_and_matches_witness :
  snd (parseWhere (RT := RefRuntime) (From "Users") "Name like 'Jo'")
  = Some (ErrInvalidWhere "Name like 'Jo'")
  /\ exists before piece after,
       Regexp.Split andRegex "Name like 'Jo'" = (before ++ piece :: after)%list
       /\ Forall (fun piece => hasShape (GoStrings.TrimSpace piece)) before
       /\ ~ hasShape (GoStrings.TrimSpace piece)
       /\ ErrInvalidWhere "Name like 'Jo'" = ErrInvalidWhere (GoStrings.TrimSpace piece).
Proof.
  assert (snd (parseWhere (RT := RefRuntime) (From "Users") "Name like 'Jo'")
          = Some (ErrInvalidWhere "Name like 'Jo'")) as H by (vm_compute; reflexivity).
  split; [exact H|].
  exact (proj2 (proj2 (proj1 parseWhere_splits_and_matches RefRuntime (From "Users")
                         "Name like 'Jo'")) _ H).
Defined.

(** C6, as stated, fails on a value with two layers of quotes: both
    layers are removed, where one layer would leave ['John']. *)
Lemma doubled_quotes_are_all_stripped :
  parseCondition (RT := RefRuntime) "Name = ''John''"
  = Ok {| Column := "Name"; Operator := "="; Value := Str "John" |}
  /\ coerceValue (RT := RefRuntime) (stripOneQuoteLayer "''John''") = Str "'John'".
Proof. split; vm_compute; reflexivity. Qed.

(** C6, amended. The value of a parsed condition is what follows the
    operator and the white space after it, up to the end of the line;
    every single or double quote at its start and at its end is
    removed, however many there are, and the rest is coerced.  The
    token [''John''] gives [John]. *)
Theorem parseCondition_value_loses_all_quotes (RT : GoRuntime) (condition : string)
    (clause : WhereClause) :
  parseCondition condition = Ok clause ->
  exists pre col ws1 op ws2 val post l r,
    GoStrings.TrimSpace condition = pre ++ (col ++ ws1 ++ op ++ ws2 ++ val) ++ post
    /\ shape col ws1 op ws2 val
    /\ atEndOfLine post
    /\ Value clause = coerceValue (GoStrings.Trim val quotes)
    /\ val = l ++ GoStrings.Trim val quotes ++ r
    /\ all isQuote l = true
    /\ all isQuote r = true
    /\ headIs isQuote (GoStrings.Trim val quotes) = false
    /\ headIs isQuote (rev (GoStrings.Trim val quotes)) = false.
Proof.
  intros H. destruct (parseCondition_spec condition) as (_ & _ & Hok).
  destruct (Hok clause H) as (pre & col & ws1 & op & ws2 & val & post & E & Hsh & He & _ & _ & Hv).
  destruct (Trim_spec val quotes) as (l & r & Hval & Hl & Hr & Hh & Hlast).
  exists pre, col, ws1, op, ws2, val, post, l, r. auto 10.
Qed.

(** The condition [Name = ''John'']: the value is [John]. *)
Lemma parseCondition_value_loses_all_quotes_witness :
  parseCondition (RT := RefRuntime) "Name = ''John''"
  = Ok {| Column := "Name"; Operator := "="; Value := Str "John" |}
  /\ exists pre col ws1 op ws2 val post l r,
       GoStrings.TrimSpace "Name = ''John''" = pre ++ (col ++ ws1 ++ op ++ ws2 ++ val) ++ post
       /\ shape col ws1 op ws2 val
       /\ atEndOfLine post
       /\ Value {| Column := "Name"; Operator := "="; Value := Str "John" |}
          = coerceValue (RT := RefRuntime) (GoStrings.Trim val quotes)
       /\ val = l ++ GoStrings.Trim val quotes ++ r
       /\ all isQuote l = true
       /\ all isQuote r = true
       /\ headIs isQuote (GoStrings.Trim val quotes) = false
       /\ headIs isQuote (rev (GoStrings.Trim val quotes)) = false.
Proof.
  assert (parseCondition (RT := RefRuntime) "Name = ''John''"
          = Ok {| Column := "Name"; Operator := "="; Value := Str "John" |}) as H
    by (vm_compute; reflexivity).
  split; [exact H|].
  exact (parseCondition_value_loses_all_quotes RefRuntime _ _ H).
Defined.

End ParserClaims.

(** * Further properties *)

(** * Further properties of the engine *)

(** ** The header map *)

Lemma buildFieldMap_lookup (name : string) (headers : list string) :
  forall (i : nat) (fieldMap : gmap string nat),
    match buildFieldMap i headers fieldMap !! name with
    | Some k =>
      (exists j, k = (i + j)%nat /\ headers !! j = Some name
                 /\ forall j', headers !! j' = Some name -> (j' <= j)%nat)
      \/ (fieldMap !! name = Some k /\ forall j, headers !! j <> Some name)
    | None => fieldMap !! name = None /\ forall j, headers !! j <> Some name
    end.
Proof.
  induction headers as [|header rest IH]; intros i fieldMap; simpl.
  - destruct (fieldMap !! name) as [k|]; [right|]; split; auto; intros j; discriminate.
  - specialize (IH (S i) (<[header := i]> fieldMap)).
    destruct (buildFieldMap (S i) rest (<[header := i]> fieldMap) !! name) as [k|].
    + destruct IH as [(j & -> & Hj & Hmax) | [Hk Hnone]].
      * left. exists (S j). split; [lia|]. split; [exact Hj|].
        intros [|j'] Hj'; [lia|]. simpl in Hj'. specialize (Hmax j' Hj'). lia.
      * destruct (decide (header = name)) as [->|Hne].
        -- rewrite lookup_insert_eq in Hk. injection Hk as <-.
           left. exists 0%nat. split; [lia|]. split; [reflexivity|].
           intros [|j'] Hj'; [lia|]. destruct (Hnone j' Hj').
        -- rewrite lookup_insert_ne in Hk by exact Hne.
           right. split; [exact Hk|]. intros [|j]; simpl; [congruence | apply Hnone].
    + destruct IH as [Hk Hnone].
      destruct (decide (header = name)) as [->|Hne].
      * rewrite lookup_insert_eq in Hk. discriminate.
      * rewrite lookup_insert_ne in Hk by exact Hne.
        split; [exact Hk|]. intros [|j]; simpl; [congruence | apply Hnone].
Qed.

(** X1. The header map sends a name to the position of the last header
    with that name, and has no entry for a name that is no header: of
    two columns with the same header the first is never looked at. *)
Theorem headerMap_last_position (headers : list string) (name : string) :
  match headerMap headers !! name with
  | Some i =>
    headers !! i = Some name /\ forall j, headers !! j = Some name -> (j <= i)%nat
  | None => forall j, headers !! j <> Some name
  end.
Proof.
  unfold headerMap. pose proof (buildFieldMap_lookup name headers 0 ∅) as H.
  destruct (buildFieldMap 0 headers ∅ !! name) as [k|].
  - destruct H as [(j & -> & Hj & Hmax) | [Hk _]]; [auto|].
    rewrite lookup_empty in Hk. discriminate.
  - apply H.
Qed.

Lemma headerMap_bound (headers : list string) (name : string) (i : nat) :
  headerMap headers !! name = Some i -> (i < length headers)%nat.
Proof.
  intros H. pose proof (buildFieldMap_lookup name headers 0 ∅) as Haux.
  unfold headerMap in H. rewrite H in Haux.
  destruct Haux as [(j & -> & Hj & _) | [Hk _]].
  - apply lookup_lt_Some in Hj. lia.
  - rewrite lookup_empty in Hk. discriminate.
Qed.

Lemma headerMap_header (headers : list string) (name : string) (i : nat) :
  headerMap headers !! name = Some i -> headers !! i = Some name.
Proof.
  intros H. pose proof (buildFieldMap_lookup name headers 0 ∅) as Haux.
  unfold headerMap in H. rewrite H in Haux.
  destruct Haux as [(j & -> & Hj & _) | [Hk _]]; [exact Hj|].
  rewrite lookup_empty in Hk. discriminate.
Qed.

Lemma headerMap_present (headers : list string) (name : string) :
  In name headers -> exists i, headerMap headers !! name = Some i.
Proof.
  intros Hin. pose proof (buildFieldMap_lookup name headers 0 ∅) as Haux.
  unfold headerMap. destruct (buildFieldMap 0 headers ∅ !! name) as [k|]; [eauto|].
  destruct Haux as [_ Hnone]. apply list_elem_of_In in Hin.
  apply list_elem_of_lookup in Hin as [j Hj]. destruct (Hnone j Hj).
Qed.

(** ** The evaluator: conjunction *)

Section Conjunction.
Context `{RT : GoRuntime}.
Variables (row : list any) (fieldMap : gmap string nat).

Lemma matchesClauses_app (c1 c2 : list WhereClause) :
  matchesClauses (c1 ++ c2)%list row fieldMap
  = matchesClauses c1 row fieldMap && matchesClauses c2 row fieldMap.
Proof.
  induction c1 as [|c rest IH]; simpl; [reflexivity|].
  destruct (fieldMap !! Column c) as [i|]; [|exact IH].
  destruct (row !! i) as [cell|]; [|exact IH].
  destruct (clausePasses _ _ _); [exact IH | reflexivity].
Qed.

Lemma matchesClauses_Permutation (c1 c2 : list WhereClause) :
  Permutation c1 c2 -> matchesClauses c1 row fieldMap = matchesClauses c2 row fieldMap.
Proof.
  induction 1 as [|c l l' _ IH|c d l|l l' l'' _ IH1 _ IH2].
  - reflexivity.
  - change (c :: l) with ((c :: nil) ++ l)%list.
    change (c :: l') with ((c :: nil) ++ l')%list.
    rewrite !matchesClauses_app, IH. reflexivity.
  - change (d :: c :: l) with ((d :: nil) ++ (c :: nil) ++ l)%list.
    change (c :: d :: l) with ((c :: nil) ++ (d :: nil) ++ l)%list.
    rewrite !matchesClauses_app.
    destruct (matchesClauses (d :: nil) row fieldMap),
      (matchesClauses (c :: nil) row fieldMap); reflexivity.
  - congruence.
Qed.

Lemma clausePasses_unknown (operator cellValue expectedValue : string) :
  ~ In operator knownOperators -> clausePasses operator cellValue expectedValue = true.
Proof.
  intros Hn. unfold clausePasses, knownOperators in *. simpl in Hn.
  repeat match goal with
         | |- context [?a ==? ?b] =>
           destruct (String.eqb_spec a b) as [->|?]; [exfalso; apply Hn; tauto|]
         end.
  reflexivity.
Qed.

Lemma matchesClauses_unknown (clauses : list WhereClause) (n : nat)
    (clause : WhereClause) :
  clauses !! n = Some clause ->
  ~ In (Operator clause) knownOperators ->
  matchesClauses clauses row fieldMap = matchesClauses (delete n clauses) row fieldMap.
Proof.
  revert n. induction clauses as [|c rest IH]; intros [|n] Hn Hop; try discriminate.
  - simpl in Hn. injection Hn as ->. simpl.
    destruct (fieldMap !! Column clause) as [i|]; [|reflexivity].
    destruct (row !! i) as [cell|]; [|reflexivity].
    rewrite clausePasses_unknown by exact Hop. reflexivity.
  - simpl in Hn. simpl. rewrite (IH n Hn Hop). reflexivity.
Qed.

End Conjunction.

(** X2. The clauses of a query are a conjunction: a query fresh from
    [From] matches every row, and a row matches after [Where] exactly
    when it matched before and matches the new clause alone. *)
Theorem Where_adds_a_conjunct (RT : GoRuntime) (q : Query) (column operator : string)
    (value : any) (row : list any) (headers : list string) (fieldMap : gmap string nat) :
  matchesWhere (From (sheetName q)) row headers fieldMap = true
  /\ matchesWhere (Where q column operator value) row headers fieldMap
     = matchesWhere q row headers fieldMap
       && matchesWhere (only {| Column := column; Operator := operator; Value := value |})
            row headers fieldMap.
Proof.
  split; [reflexivity|]. unfold matchesWhere, Where, only. simpl where_.
  apply matchesClauses_app.
Qed.

(** X3. The order of the clauses does not matter: two queries whose
    clauses are the same up to their order match the same rows. *)
Theorem matchesWhere_any_order (RT : GoRuntime) (q q' : Query) (row : list any)
    (headers headers' : list string) (fieldMap : gmap string nat) :
  Permutation (where_ q) (where_ q') ->
  matchesWhere q row headers fieldMap = matchesWhere q' row headers' fieldMap.
Proof. intros H. unfold matchesWhere. apply matchesClauses_Permutation. exact H. Qed.

(** The two clauses of [cityAndName], in this order and in the other. *)
Lemma matchesWhere_any_order_witness :
  Permutation (where_ cityAndName)
    (where_ (Where (Where (From "Users") "Name" "=" (Str "Jane")) "City" "=" (Str "NYC")))
  /\ forall row fieldMap,
       matchesWhere (RT := RefRuntime) cityAndName row nil fieldMap
       = matchesWhere (RT := RefRuntime)
           (Where (Where (From "Users") "Name" "=" (Str "Jane")) "City" "=" (Str "NYC"))
           row nil fieldMap.
Proof.
  assert (Permutation (where_ cityAndName)
            (where_ (Where (Where (From "Users") "Name" "=" (Str "Jane"))
                       "City" "=" (Str "NYC")))) as H by apply perm_swap.
  split; [exact H|]. intros row fieldMap.
  exact (matchesWhere_any_order RefRuntime _ _ row nil nil fieldMap H).
Defined.

(** X4. A clause whose operator is none of [=], [==], [!=], [>], [<],
    [>=], [<=] and [LIKE] rejects no row: the query matches the rows it
    matches without the clause. *)
Theorem matchesWhere_ignores_unknown_operator (RT : GoRuntime) (q : Query) (n : nat)
    (clause : WhereClause) (row : list any) (headers : list string)
    (fieldMap : gmap string nat) :
  where_ q !! n = Some clause ->
  ~ In (Operator clause) knownOperators ->
  matchesWhere q row headers fieldMap
  = matchesWhere (withoutClause n q) row headers fieldMap.
Proof.
  intros Hn Hop. unfold matchesWhere, withoutClause. simpl.
  apply matchesClauses_unknown with (clause := clause); assumption.
Qed.

(** The operator [<>], given to [Where] as it is: the clause could as
    well not be there. *)
Lemma matchesWhere_ignores_unknown_operator_witness :
  where_ (Where (From "Users") "Age" "<>" (IntV Int 25)) !! 0%nat
  = Some {| Column := "Age"; Operator := "<>"; Value := IntV Int 25 |}
  /\ ~ In (Operator {| Column := "Age"; Operator := "<>"; Value := IntV Int 25 |})
         knownOperators
  /\ forall row headers fieldMap,
       matchesWhere (RT := RefRuntime) (Where (From "Users") "Age" "<>" (IntV Int 25))
         row headers fieldMap
       = matchesWhere (RT := RefRuntime)
           (withoutClause 0 (Where (From "Users") "Age" "<>" (IntV Int 25)))
           row headers fieldMap.
Proof.
  assert (~ In (Operator {| Column := "Age"; Operator := "<>"; Value := IntV Int 25 |})
            knownOperators) as H.
  { simpl. intros [H|[H|[H|[H|[H|[H|[H|[H|[]]]]]]]]]; discriminate. }
  split; [reflexivity|]. split; [exact H|]. intros row headers fieldMap.
  exact (matchesWhere_ignores_unknown_operator RefRuntime
           (Where (From "Users") "Age" "<>" (IntV Int 25)) 0
           {| Column := "Age"; Operator := "<>"; Value := IntV Int 25 |}
           row headers fieldMap eq_refl H).
Defined.

(** ** The WHERE parser: what it appends *)

Section Appends.
Context `{RT : GoRuntime}.
Import WhereFacts.

Lemma parseCondition_clause (condition : string) (clause : WhereClause) :
  parseCondition condition = Ok clause ->
  In (Operator clause) parsedOperators
  /\ Column clause <> "" /\ Bytes.all Bytes.isWord (Column clause) = true.
Proof.
  intros H. destruct (parseCondition_spec condition) as (_ & _ & Hok).
  destruct (Hok clause H)
    as (pre & col & ws1 & op & ws2 & val & post & _ & Hsh & _ & Hc & Ho & _).
  destruct Hsh as (Hne & Hw & _ & Hop & _). rewrite Hc, Ho. split; [|auto].
  unfold operatorTokens in Hop. simpl in Hop. unfold normalized, parsedOperators.
  destruct Hop as [<-|[<-|[<-|[<-|[<-|[<-|[<-|[<-|[]]]]]]]]]; simpl; tauto.
Qed.

Lemma parseConditions_appends (conditions : list string) :
  forall query : Query,
  exists added : list WhereClause,
    fst (parseConditions query conditions)
    = {| sheetName := sheetName query; where_ := (where_ query ++ added)%list;
         limit := limit query; offset := offset query |}
    /\ Forall2 (fun condition clause => parseCondition condition = Ok clause)
         (take (length added) conditions) added
    /\ (snd (parseConditions query conditions) = None
        <-> length added = length conditions).
Proof.
  induction conditions as [|condition rest IH]; intros query; simpl.
  - exists nil. rewrite app_nil_r. destruct query. simpl. repeat split; auto.
  - destruct (parseCondition condition) as [clause|err] eqn:E.
    + destruct (IH (Where query (Column clause) (Operator clause) (Value clause)))
        as (added & Hq & Hall & Hlen).
      exists (clause :: added). rewrite Hq. simpl. rewrite <- app_assoc. simpl.
      split; [destruct clause; reflexivity|]. split.
      * constructor; assumption.
      * rewrite Hlen. split; [intros ->; reflexivity | intros [= ->]; reflexivity].
    + exists nil. rewrite app_nil_r. destruct query. simpl.
      split; [reflexivity|]. split; [constructor|]. split; discriminate.
Qed.

End Appends.

(** X5. [parseWhere] only appends: the sheet, the limit and the offset
    of the query stay, its clauses stay in front, and the clauses that
    follow them are those of the conditions, in order, up to the first
    condition that is rejected; there is one for each condition exactly
    when no error is returned. *)
Theorem parseWhere_appends (RT : GoRuntime) (query : Query) (whereClause : string) :
  let conditions := Regexp.Split Patterns.andRegex whereClause in
  exists added : list WhereClause,
    fst (parseWhere query whereClause)
    = {| sheetName := sheetName query; where_ := (where_ query ++ added)%list;
         limit := limit query; offset := offset query |}
    /\ Forall2 (fun condition clause => parseCondition condition = Ok clause)
         (take (length added) conditions) added
    /\ (snd (parseWhere query whereClause) = None
        <-> length added = length conditions).
Proof. intros conditions. apply parseConditions_appends. Qed.

(** X6. Every clause that [parseWhere] appends has an operator among
    [=], [!=], [<=], [>=], [<], [>] and [LIKE] ([<>] has become [!=]),
    each of which [matchesWhere] evaluates, and a column that is a run
    of word characters: the parser builds no clause that the evaluator
    would pass over for its operator. *)
Theorem parseWhere_operators_are_evaluated (RT : GoRuntime) (query : Query)
    (whereClause : string) :
  Forall (fun clause =>
            In (Operator clause) parsedOperators
            /\ In (Operator clause) knownOperators
            /\ Column clause <> ""
            /\ Bytes.all Bytes.isWord (Column clause) = true)
    (drop (length (where_ query)) (where_ (fst (parseWhere query whereClause)))).
Proof.
  destruct (parseConditions_appends (Regexp.Split Patterns.andRegex whereClause) query)
    as (added & Hq & Hall & _).
  unfold parseWhere. rewrite Hq. simpl. rewrite drop_app_length.
  clear Hq. revert Hall. generalize (take (length added)
                                       (Regexp.Split Patterns.andRegex whereClause)).
  intros conditions Hall. induction Hall as [|condition clause cs added' H _ IH];
    constructor; [|exact IH].
  destruct (parseCondition_clause condition clause H) as (Hop & Hne & Hw).
  split; [exact Hop|]. split; [|auto].
  unfold parsedOperators, knownOperators in *. simpl in *. tauto.
Qed.

(** ** Integers: decimal forms and widths *)

Module DecimalFacts.
Import Bytes Strconv.

Lemma code_digit (d : Z) : 0 <= d < 10 -> code (ascii_of_N (Z.to_N (48 + d))) = Z.to_N (48 + d).
Proof.
  intros Hd. unfold code. apply N_ascii_embedding. lia.
Qed.

Lemma isDigit_digit (d : Z) : 0 <= d < 10 -> isDigit (ascii_of_N (Z.to_N (48 + d))) = true.
Proof.
  intros Hd. unfold isDigit, between. rewrite code_digit by exact Hd.
  apply andb_true_iff. split; apply N.leb_le; lia.
Qed.

Lemma digitVal_digit (d : Z) : 0 <= d < 10 -> digitVal (ascii_of_N (Z.to_N (48 + d))) = d.
Proof. intros Hd. unfold digitVal. rewrite code_digit by exact Hd. lia. Qed.

(** One step of the loop of [ParseUint] on a digit that fits. *)
Lemma parseUintLoop_digit (a d : Z) (s : string) :
  0 <= a -> 0 <= d < 10 -> a * 10 + d <= maxUint64 ->
  parseUintLoop a (String (ascii_of_N (Z.to_N (48 + d))) s) = parseUintLoop (a * 10 + d) s.
Proof.
  intros Ha Hd Hmax. simpl. rewrite isDigit_digit, digitVal_digit by exact Hd. simpl.
  assert ((maxUint64 / 10 + 1 <=? a) = false) as ->.
  { apply Z.leb_gt. unfold maxUint64 in *.
    assert (a <= (2 ^ 64 - 1) / 10) by (apply Z.div_le_lower_bound; lia). lia. }
  assert ((maxUint64 <? a * 10 + d) = false) as -> by (apply Z.ltb_ge; lia).
  reflexivity.
Qed.

(** The digits that [digitsOf] writes in front of [acc] read as the
    number: with the accumulator [a], the loop of [ParseUint] is at
    [a * p + n] after them, for a power [p] of ten. *)
Lemma parseUintLoop_digitsOf (fuel : nat) :
  forall n : Z,
    0 <= n < 2 ^ Z.of_nat fuel ->
    exists p : Z,
      0 < p /\
      forall (a : Z) (acc : string),
        0 <= a -> a * p + n <= maxUint64 ->
        parseUintLoop a (digitsOf fuel n acc) = parseUintLoop (a * p + n) acc.
Proof.
  induction fuel as [|fuel IH]; intros n Hn.
  - exists 1. split; [lia|]. intros a acc Ha _. simpl in *.
    replace (a * 1 + n) with a by lia. reflexivity.
  - simpl digitsOf. destruct (Z.ltb_spec n 10) as [Hlt|Hge].
    + exists 10. split; [lia|]. intros a acc Ha Hmax.
      rewrite Z.mod_small by lia. apply parseUintLoop_digit; lia.
    + assert (0 <= n / 10 < 2 ^ Z.of_nat fuel) as Hq.
      { split; [apply Z.div_pos; lia|].
        apply Z.div_lt_upper_bound; [lia|].
        rewrite Nat2Z.inj_succ, Z.pow_succ_r in Hn by lia. lia. }
      destruct (IH (n / 10) Hq) as (p & Hp & Hloop).
      exists (p * 10). split; [lia|]. intros a acc Ha Hmax.
      pose proof (Z.div_mod n 10 ltac:(lia)) as Hdm.
      pose proof (Z.mod_pos_bound n 10 ltac:(lia)) as Hm.
      rewrite Hloop by nia.
      rewrite parseUintLoop_digit by nia.
      f_equal. nia.
Qed.

Lemma digitsOf_head (fuel : nat) (n : Z) (acc : string) :
  0 <= n ->
  exists c rest, digitsOf (S fuel) n acc = String c rest /\ isDigit c = true.
Proof.
  revert n acc. induction fuel as [|fuel IH]; intros n acc Hn.
  - simpl. pose proof (Z.mod_pos_bound n 10 ltac:(lia)).
    destruct (n <? 10); eexists _, _; (split; [reflexivity | apply isDigit_digit; lia]).
  - change (digitsOf (S (S fuel)) n acc)
      with (let acc' := String (ascii_of_N (Z.to_N (48 + n mod 10))) acc in
            if n <? 10 then acc' else digitsOf (S fuel) (n / 10) acc').
    simpl. pose proof (Z.mod_pos_bound n 10 ltac:(lia)).
    destruct (Z.ltb_spec n 10).
    + eexists _, _. split; [reflexivity | apply isDigit_digit; lia].
    + apply IH. apply Z.div_pos; lia.
Qed.

Lemma FormatUint_head (n : Z) :
  0 <= n -> exists c rest, FormatUint n = String c rest /\ isDigit c = true.
Proof. intros Hn. apply digitsOf_head. exact Hn. Qed.

(** [ParseUint] reads what [FormatUint] writes. *)
Lemma ParseUint_FormatUint (n : Z) :
  0 <= n <= maxUint64 -> ParseUint (FormatUint n) = inr n.
Proof.
  intros Hn. destruct (FormatUint_head n ltac:(lia)) as (c & rest & E & _).
  unfold ParseUint. rewrite E, <- E. unfold FormatUint.
  assert (0 <= n < 2 ^ Z.of_nat (S (Z.to_nat (Z.log2 n)))) as Hfuel.
  { split; [lia|]. rewrite Nat2Z.inj_succ, Z2Nat.id by apply Z.log2_nonneg.
    destruct (Z.eq_dec n 0) as [->|Hnz]; [reflexivity|].
    apply Z.log2_spec. lia. }
  destruct (parseUintLoop_digitsOf _ n Hfuel) as (p & Hp & Hloop).
  rewrite (Hloop 0 "") by lia. reflexivity.
Qed.

Lemma isDigit_not_sign (c : ascii) :
  isDigit c = true -> (code c =? 43)%N = false /\ (code c =? 45)%N = false.
Proof.
  unfold isDigit, between. intros H. apply andb_true_iff in H as [H1 H2].
  apply N.leb_le in H1. split; apply N.eqb_neq; lia.
Qed.

(** [ParseInt] and [Atoi] read what [FormatInt] writes, for every
    64-bit integer. *)
Lemma parseInt64_FormatInt (fn : string) (n : Z) :
  - 2 ^ 63 <= n < 2 ^ 63 -> parseInt64 fn (FormatInt n) = Ok n.
Proof.
  intros Hn. unfold FormatInt. destruct (Z.ltb_spec n 0) as [Hneg|Hpos].
  - unfold parseInt64. simpl splitSign.
    change (code (ascii_of_N 45) =? 43)%N with false.
    change (code (ascii_of_N 45) =? 45)%N with true. cbv iota.
    rewrite ParseUint_FormatUint by (unfold maxUint64; lia).
    assert ((2 ^ 63 <? - n) = false) as -> by (apply Z.ltb_ge; lia).
    cbn [negb andb]. f_equal. lia.
  - destruct (FormatUint_head n Hpos) as (c & rest & E & Hc).
    unfold parseInt64. rewrite E. unfold splitSign.
    destruct (isDigit_not_sign c Hc) as [-> ->]. rewrite <- E.
    rewrite ParseUint_FormatUint by (unfold maxUint64; lia).
    assert ((2 ^ 63 <=? n) = false) as -> by (apply Z.leb_gt; lia).
    reflexivity.
Qed.

Lemma FormatInt_nonempty (n : Z) : FormatInt n <> "".
Proof.
  unfold FormatInt. destruct (Z.ltb_spec n 0) as [Hneg|Hpos]; [discriminate|].
  destruct (FormatUint_head n Hpos) as (c & rest & -> & _). discriminate.
Qed.

End DecimalFacts.

Lemma wrapInt_spec (bits n : Z) :
  0 < bits ->
  fits bits (wrapInt bits n)
  /\ (wrapInt bits n - n) mod 2 ^ bits = 0
  /\ (fits bits n -> wrapInt bits n = n).
Proof.
  intros Hb. unfold fits, wrapInt.
  assert (2 ^ bits = 2 * 2 ^ (bits - 1)) as E.
  { replace bits with (Z.succ (bits - 1)) at 1 by lia. apply Z.pow_succ_r. lia. }
  assert (0 < 2 ^ (bits - 1)) as Hp by (apply Z.pow_pos_nonneg; lia).
  pose proof (Z.mod_pos_bound (n + 2 ^ (bits - 1)) (2 ^ bits) ltac:(lia)) as Hm.
  split; [lia|]. split.
  - rewrite (Z.mod_eq (n + 2 ^ (bits - 1)) (2 ^ bits)) by lia.
    replace (n + 2 ^ (bits - 1) - 2 ^ bits * ((n + 2 ^ (bits - 1)) / 2 ^ bits)
             - 2 ^ (bits - 1) - n)
      with (- ((n + 2 ^ (bits - 1)) / 2 ^ bits) * 2 ^ bits) by lia.
    apply Z.mod_mul. lia.
  - intros Hn. rewrite Z.mod_small by lia. lia.
Qed.

Lemma intBits_pos (k : Kind) : 0 < intBits k.
Proof. destruct k; reflexivity. Qed.

Lemma intBits_le (k : Kind) : intBits k <= 64.
Proof. destruct k; simpl; lia. Qed.

(** X7. An integer field takes the low bits of the number in its cell:
    a number that parses as a 64-bit integer and does not fit the type
    of the field is stored wrapped around, with no error; a number that
    fits is stored as it is. *)
Theorem setFieldValue_wraps_integers (RT : GoRuntime) (k : Kind) (value : string) (n : Z) :
  isIntKind k = true ->
  value <> "" ->
  Strconv.ParseInt value = Ok n ->
  exists m,
    setFieldValue k value = Ok (IntV k m)
    /\ fits (intBits k) m
    /\ (m - n) mod 2 ^ intBits k = 0
    /\ (fits (intBits k) n -> m = n).
Proof.
  intros Hk Hne Hparse. exists (wrapInt (intBits k) n).
  split; [|apply wrapInt_spec, intBits_pos].
  apply String.eqb_neq in Hne.
  destruct k; try discriminate; simpl; rewrite Hne, Hparse; reflexivity.
Qed.

(** The cell [300] read into a field of type [int8]: the field holds
    44. *)
Lemma setFieldValue_wraps_integers_witness :
  isIntKind Int8 = true
  /\ "300" <> ""
  /\ Strconv.ParseInt "300" = Ok 300
  /\ setFieldValue (RT := RefRuntime) Int8 "300" = Ok (IntV Int8 44)
  /\ exists m,
       setFieldValue (RT := RefRuntime) Int8 "300" = Ok (IntV Int8 m)
       /\ fits (intBits Int8) m
       /\ (m - 300) mod 2 ^ intBits Int8 = 0
       /\ (fits (intBits Int8) 300 -> m = 300).
Proof.
  assert ("300" <> "") as Hne by discriminate.
  split; [reflexivity|]. split; [exact Hne|]. split; [reflexivity|].
  split; [reflexivity|].
  exact (setFieldValue_wraps_integers RefRuntime Int8 "300" 300 eq_refl Hne eq_refl).
Defined.

(** X8. What is written is read back: the string form of a string, of
    a boolean or of a signed integer within its type, set into a field
    of the kind of the value, gives the value. *)
Theorem setFieldValue_reads_back (RT : GoRuntime) (v : any) :
  readsBack v -> setFieldValue (kindOf v) (Sprint v) = Ok v.
Proof.
  destruct v as [|s|k n|k f|b|k form]; simpl; try contradiction.
  - reflexivity.
  - intros [Hk Hfits].
    assert (- 2 ^ 63 <= n < 2 ^ 63) as Hn.
    { unfold fits in Hfits. destruct k; try discriminate; simpl in Hfits; lia. }
    pose proof (DecimalFacts.FormatInt_nonempty n) as Hne. apply String.eqb_neq in Hne.
    pose proof (DecimalFacts.parseInt64_FormatInt "ParseInt" n Hn) as Hparse.
    destruct (wrapInt_spec (intBits k) n (intBits_pos k)) as (_ & _ & Hid).
    specialize (Hid Hfits). fold (Strconv.ParseInt (Strconv.FormatInt n)) in Hparse.
    destruct k; try discriminate; simpl in Hid |- *;
      rewrite Hne, Hparse, Hid; reflexivity.
  - intros _. destruct b; reflexivity.
Qed.

(** The integer [-128] in a field of type [int8]. *)
Lemma setFieldValue_reads_back_witness :
  readsBack (IntV Int8 (-128))
  /\ Sprint (RT := RefRuntime) (IntV Int8 (-128)) = "-128"
  /\ setFieldValue (RT := RefRuntime) (kindOf (IntV Int8 (-128)))
       (Sprint (RT := RefRuntime) (IntV Int8 (-128)))
     = Ok (IntV Int8 (-128)).
Proof.
  assert (readsBack (IntV Int8 (-128))) as H.
  { split; [reflexivity|]. unfold fits. simpl. lia. }
  split; [exact H|]. split; [reflexivity|].
  exact (setFieldValue_reads_back RefRuntime (IntV Int8 (-128)) H).
Defined.

(** ** What a write stores *)

Section Stores.
Variable fieldMap : gmap string nat.

Lemma storeFields_spec (fields : list StructField) :
  forall (values row row' : list any),
    length values = length fields ->
    storeFields fieldMap fields values row = Some row' ->
    length row' = length row
    /\ (forall j,
          (forall i field, fields !! i = Some field ->
                           fieldMap !! boundColumn field <> Some j) ->
          row' !! j = row !! j)
    /\ (forall i field v j,
          fields !! i = Some field -> values !! i = Some v ->
          fieldMap !! boundColumn field = Some j -> (j < length row)%nat ->
          (forall i' field', (i < i')%nat -> fields !! i' = Some field' ->
                             fieldMap !! boundColumn field' <> Some j) ->
          row' !! j = Some v).
Proof.
  induction fields as [|field rest IH]; intros [|v values] row row' Hlen H;
    try discriminate.
  - simpl in H. injection H as <-. split; [reflexivity|]. split; [reflexivity|].
    intros i ? ? ? Hi. discriminate.
  - simpl in Hlen. injection Hlen as Hlen. simpl in H.
    destruct (fieldMap !! boundColumn field) as [c|] eqn:Hc.
    + destruct (Exported field); [|discriminate].
      destruct (IH values (<[c := v]> row) row' Hlen H) as (Hl & Hframe & Hset).
      rewrite length_insert in Hl, Hset. split; [exact Hl|]. split.
      * intros j Hfree. rewrite Hframe.
        -- apply list_lookup_insert_ne. intros ->. apply (Hfree 0%nat field eq_refl Hc).
        -- intros i f Hi. apply (Hfree (S i) f Hi).
      * intros [|i] f v' j Hi Hv Hj Hlt Hlast; simpl in Hi, Hv.
        -- injection Hi as <-. injection Hv as <-. rewrite Hc in Hj. injection Hj as <-.
           rewrite Hframe.
           ++ apply list_lookup_insert_eq. exact Hlt.
           ++ intros i f Hi. apply (Hlast (S i) f); [lia | exact Hi].
        -- apply (Hset i f v' j Hi Hv Hj Hlt).
           intros i' f' Hlt' Hi'. apply (Hlast (S i') f'); [lia | exact Hi'].
    + destruct (IH values row row' Hlen H) as (Hl & Hframe & Hset).
      split; [exact Hl|]. split.
      * intros j Hfree. apply Hframe. intros i f Hi. apply (Hfree (S i) f Hi).
      * intros [|i] f v' j Hi Hv Hj Hlt Hlast; simpl in Hi, Hv.
        -- injection Hi as <-. congruence.
        -- apply (Hset i f v' j Hi Hv Hj Hlt).
           intros i' f' Hlt' Hi'. apply (Hlast (S i') f'); [lia | exact Hi'].
Qed.

Lemma storeFields_Some (fields : list StructField) (values row : list any) :
  Forall (fun field => Exported field = true) fields ->
  exists row', storeFields fieldMap fields values row = Some row'.
Proof.
  intros Hall. revert values row.
  induction Hall as [|field rest Hx Hall IH]; intros [|v values] row; simpl; eauto.
  destruct (fieldMap !! boundColumn field); [rewrite Hx|]; apply IH.
Qed.

Lemma storeFields_cells (fields : list StructField) :
  forall (values row row' : list any),
    storeFields fieldMap fields values row = Some row' ->
    forall j cell, row' !! j = Some cell -> row !! j = Some cell \/ In cell values.
Proof.
  induction fields as [|field rest IH]; intros [|v values] row row' H j cell Hj;
    simpl in H; try (injection H as <-; auto; fail).
  destruct (fieldMap !! boundColumn field) as [c|].
  - destruct (Exported field); [|discriminate].
    destruct (IH values _ row' H j cell Hj) as [Hc|Hin]; [|right; right; exact Hin].
    destruct (decide (j = c)) as [->|Hne].
    + apply list_lookup_insert_Some in Hc as [(_ & -> & _)|[Hcc _]]; [|congruence].
      right. left. reflexivity.
    + rewrite list_lookup_insert_ne in Hc by congruence. left. exact Hc.
  - destruct (IH values row row' H j cell Hj) as [Hc|Hin]; [left | right; right]; auto.
Qed.

End Stores.

Lemma copyRow_length (n : nat) (row : list any) : length (copyRow n row) = n.
Proof. unfold copyRow. rewrite length_app, length_take, length_replicate. lia. Qed.

Lemma copyRow_lookup (n : nat) (row : list any) (j : nat) :
  copyRow n row !! j
  = if (j <? n)%nat then Some (default Nil (row !! j)) else None.
Proof.
  unfold copyRow. destruct (Nat.ltb_spec j n) as [Hlt|Hge].
  - destruct (Nat.lt_ge_cases j (length row)) as [Hin|Hout].
    + rewrite lookup_app_l by (rewrite length_take; lia).
      rewrite lookup_take_lt by exact Hlt.
      destruct (lookup_lt_is_Some_2 row j Hin) as [x ->]. reflexivity.
    + rewrite lookup_app_r by (rewrite length_take; lia).
      rewrite length_take, (lookup_ge_None_2 row j Hout).
      apply lookup_replicate_2. lia.
  - apply lookup_ge_None_2. rewrite length_app, length_take, length_replicate. lia.
Qed.

(** X9. The row that a write builds from a row of the width of the
    header has that width, and under each header: when no field of the
    record is bound to the header, or a later column has the same
    header, the cell is as it was; otherwise the cell is the value of
    the last field bound to the header.  Nothing else changes, and the
    write fails on a bound field that is not exported. *)
Theorem storeFields_by_header (headers : list string) (fields : list StructField)
    (values row : list any) :
  length values = length fields ->
  length row = length headers ->
  match storeFields (headerMap headers) fields values row with
  | None =>
    exists field, In field fields /\ Exported field = false
                  /\ In (boundColumn field) headers
  | Some row' =>
    length row' = length headers
    /\ forall j name,
         headers !! j = Some name ->
         (unboundFrom 0 fields name -> row' !! j = row !! j)
         /\ ((exists j', (j < j')%nat /\ headers !! j' = Some name) -> row' !! j = row !! j)
         /\ (forall i field v,
               fields !! i = Some field -> values !! i = Some v ->
               boundColumn field = name -> unboundFrom (S i) fields name ->
               (forall j', headers !! j' = Some name -> (j' <= j)%nat) ->
               row' !! j = Some v)
  end.
Proof.
  intros Hlen Hrow.
  destruct (storeFields (headerMap headers) fields values row) as [row'|] eqn:H.
  - destruct (storeFields_spec _ fields values row row' Hlen H) as (Hl & Hframe & Hset).
    split; [congruence|]. intros j name Hj. split; [|split].
    + intros Hfree. apply Hframe. intros i f Hi Hb.
      apply headerMap_header in Hb. apply (Hfree i f ltac:(lia) Hi). congruence.
    + intros (j' & Hlt & Hj'). apply Hframe. intros i f Hi Hb.
      pose proof (headerMap_last_position headers (boundColumn f)) as Hlast.
      rewrite Hb in Hlast. destruct Hlast as [Hname Hmax].
      assert (boundColumn f = name) as E by congruence. rewrite E in Hmax.
      specialize (Hmax j' Hj'). lia.
    + intros i f v Hi Hv Hb Hfree Hmax.
      pose proof (headerMap_last_position headers name) as Hlast.
      destruct (headerMap headers !! name) as [k|] eqn:Hk; [|destruct (Hlast j Hj)].
      destruct Hlast as [Hkname Hkmax].
      assert (k = j) as -> by (specialize (Hmax k Hkname); specialize (Hkmax j Hj); lia).
      apply (Hset i f v j Hi Hv); [congruence | |].
      * rewrite Hrow. apply lookup_lt_Some in Hj. exact Hj.
      * intros i' f' Hlt Hi' Hb'. apply headerMap_header in Hb'.
        apply (Hfree i' f' ltac:(lia) Hi'). congruence.
  - clear Hrow. revert values row Hlen H.
    induction fields as [|field rest IH]; intros [|v values] row Hlen H; try discriminate.
    simpl in Hlen. injection Hlen as Hlen. simpl in H.
    destruct (headerMap headers !! boundColumn field) as [c|] eqn:Hc.
    + destruct (Exported field) eqn:Hx.
      * destruct (IH values _ Hlen H) as (f & Hin & Hf). exists f. split; [right|]; auto.
      * exists field. split; [left; reflexivity|]. split; [exact Hx|].
        apply headerMap_header in Hc. apply list_elem_of_In, list_elem_of_lookup. eauto.
    + destruct (IH values _ Hlen H) as (f & Hin & Hf). exists f. split; [right|]; auto.
Qed.

(** A record of two fields, both bound to the header [City], written
    over a row under the headers [City], [Name], [City]: the first
    column and the second keep their cells, the third holds the value
    of the second field. *)
Lemma storeFields_by_header_witness :
  let fields :=
    {| Name := "Home"; Tag := "City"; Exported := true; Zero := Str "" |}
    :: {| Name := "City"; Tag := ""; Exported := true; Zero := Str "" |} :: nil in
  let values := Str "LA" :: Str "Rome" :: nil in
  let row := Str "a" :: Str "b" :: Str "c" :: nil in
  length values = length fields
  /\ length row = length ("City" :: "Name" :: "City" :: nil)
  /\ storeFields (headerMap ("City" :: "Name" :: "City" :: nil)) fields values row
     = Some (Str "a" :: Str "b" :: Str "Rome" :: nil)
  /\ match storeFields (headerMap ("City" :: "Name" :: "City" :: nil)) fields values row with
     | None =>
       exists field, In field fields /\ Exported field = false
                     /\ In (boundColumn field) ("City" :: "Name" :: "City" :: nil)
     | Some row' =>
       length row' = length ("City" :: "Name" :: "City" :: nil)
       /\ forall j name,
            ("City" :: "Name" :: "City" :: nil) !! j = Some name ->
            (unboundFrom 0 fields name -> row' !! j = row !! j)
            /\ ((exists j', (j < j')%nat
                            /\ ("City" :: "Name" :: "City" :: nil) !! j' = Some name) ->
                row' !! j = row !! j)
            /\ (forall i field v,
                  fields !! i = Some field -> values !! i = Some v ->
                  boundColumn field = name -> unboundFrom (S i) fields name ->
                  (forall j', ("City" :: "Name" :: "City" :: nil) !! j' = Some name ->
                              (j' <= j)%nat) ->
                  row' !! j = Some v)
     end.
Proof.
  intros fields values row.
  split; [reflexivity|]. split; [reflexivity|]. split; [vm_compute; reflexivity|].
  exact (storeFields_by_header ("City" :: "Name" :: "City" :: nil) fields values row
           eq_refl eq_refl).
Defined.

(** ** A record written and read back *)

Section RoundTrip.
Context `{RT : GoRuntime}.

Lemma mapRowToStruct_reads (row : list any) (fieldMap : gmap string nat)
    (fields : list StructField) (values : list any) :
  Forall2 (fun field v =>
             Exported field = true
             /\ exists j cell,
                  fieldMap !! boundColumn field = Some j /\ row !! j = Some cell
                  /\ setFieldValue (fieldKind field) (Sprint cell) = Ok v)
    fields values ->
  forall dest, length dest = length fields ->
               mapRowToStruct row fieldMap fields dest = (values, None).
Proof.
  induction 1 as [|field v fields values (Hx & j & cell & Hj & Hcell & Hset) _ IH];
    intros [|old dest] Hlen; try discriminate; [reflexivity|].
  simpl in Hlen. injection Hlen as Hlen. simpl.
  rewrite Hx, Hj, Hcell, Hset, (IH dest Hlen). reflexivity.
Qed.

End RoundTrip.

(** X10. A record that is stored in an empty row and read back from
    that row is the same record: when every field is exported and bound
    to a header of its own, and holds a string, a boolean or a signed
    integer within its type, the binder gives from the row that the
    write built exactly the values that were written, with no error. *)
Theorem stored_record_reads_back (RT : GoRuntime) (headers : list string)
    (fields : list StructField) (values : list any) :
  Forall (fun field => Exported field = true /\ In (boundColumn field) headers) fields ->
  NoDup (map boundColumn fields) ->
  Forall2 (fun field v => readsBack v /\ kindOf v = fieldKind field) fields values ->
  exists row,
    storeFields (headerMap headers) fields values (replicate (length headers) Nil) = Some row
    /\ length row = length headers
    /\ mapRowToStruct row (headerMap headers) fields (zeroStruct fields) = (values, None).
Proof.
  intros Hfields Hnodup Hvalues.
  assert (length values = length fields) as Hlen
    by (symmetry; eapply Forall2_length; eassumption).
  destruct (storeFields_Some (headerMap headers) fields values
              (replicate (length headers) Nil)) as [row Hrow].
  { eapply Forall_impl; [exact Hfields|]. intros f [Hx _]. exact Hx. }
  destruct (storeFields_spec _ fields values _ row Hlen Hrow) as (Hl & _ & Hset).
  rewrite length_replicate in Hl, Hset.
  exists row. split; [exact Hrow|]. split; [exact Hl|].
  apply mapRowToStruct_reads; [|unfold zeroStruct; apply length_map].
  apply Forall2_same_length_lookup. split; [congruence|].
  intros i field v Hi Hv.
  pose proof (proj1 (Forall_lookup _ fields) Hfields i field Hi) as [Hx Hin].
  destruct (headerMap_present headers _ Hin) as [j Hj].
  destruct (proj2 (proj1 (Forall2_same_length_lookup _ fields values) Hvalues) i field v Hi Hv)
    as [Hread Hkind].
  split; [exact Hx|]. exists j, v. split; [exact Hj|]. split.
  - apply (Hset i field v j Hi Hv Hj); [apply (headerMap_bound headers _ _ Hj)|].
    intros i' field' Hlt Hi' Hj'.
    assert (boundColumn field' = boundColumn field) as E.
    { apply headerMap_header in Hj, Hj'. congruence. }
    assert (map boundColumn fields !! i = Some (boundColumn field)) as H1
      by (rewrite list_lookup_fmap, Hi; reflexivity).
    assert (map boundColumn fields !! i' = Some (boundColumn field)) as H2
      by (rewrite list_lookup_fmap, Hi', <- E; reflexivity).
    pose proof (NoDup_lookup _ i i' _ Hnodup H1 H2). lia.
  - rewrite <- Hkind. apply setFieldValue_reads_back. exact Hread.
Qed.

(** The record of the package's own test, with John's age a number,
    under headers in another order and one more column. *)
Lemma stored_record_reads_back_witness :
  let headers := "City" :: "Id" :: "Name" :: "Age" :: nil in
  let values := Str "John" :: IntV Int 25 :: Str "NYC" :: nil in
  Forall (fun field => Exported field = true /\ In (boundColumn field) headers) personRecord
  /\ NoDup (map boundColumn personRecord)
  /\ Forall2 (fun field v => readsBack v /\ kindOf v = fieldKind field) personRecord values
  /\ storeFields (headerMap headers) personRecord values (replicate (length headers) Nil)
     = Some (Str "NYC" :: Nil :: Str "John" :: IntV Int 25 :: nil)
  /\ exists row,
       storeFields (headerMap headers) personRecord values (replicate (length headers) Nil)
       = Some row
       /\ length row = length headers
       /\ mapRowToStruct (RT := RefRuntime) row (headerMap headers) personRecord
            (zeroStruct personRecord)
          = (values, None).
Proof.
  intros headers values.
  assert (Forall (fun field => Exported field = true /\ In (boundColumn field) headers)
            personRecord) as H1.
  { repeat constructor; simpl; tauto. }
  assert (NoDup (map boundColumn personRecord)) as H2.
  { apply NoDup_ListNoDup. repeat constructor; simpl; intuition discriminate. }
  assert (Forall2 (fun field v => readsBack v /\ kindOf v = fieldKind field)
            personRecord values) as H3.
  { repeat constructor; unfold fits; simpl; lia. }
  split; [exact H1|]. split; [exact H2|]. split; [exact H3|].
  split; [vm_compute; reflexivity|].
  exact (stored_record_reads_back RefRuntime headers personRecord values H1 H2 H3).
Defined.

(** ** The requests of a write *)

Lemma StronglySorted_snoc {A : Type} (R : A -> A -> Prop) (l : list A) (x : A) :
  StronglySorted R l -> Forall (fun y => R y x) l -> StronglySorted R (l ++ x :: nil)%list.
Proof.
  induction 1 as [|a l Hs IH Ha]; intros Hall; simpl.
  - repeat constructor.
  - inversion Hall as [|? ? Hax Hlx]; subst. constructor; [apply IH; exact Hlx|].
    apply Forall_app. split; [exact Ha | repeat constructor; exact Hax].
Qed.

Lemma StronglySorted_rev {A : Type} (R : A -> A -> Prop) (l : list A) :
  StronglySorted R l -> StronglySorted (fun x y => R y x) (List.rev l).
Proof.
  induction 1 as [|a l Hs IH Ha]; simpl; [constructor|].
  apply StronglySorted_snoc; [exact IH|].
  apply List.Forall_forall. intros x Hx. apply In_rev in Hx.
  rewrite List.Forall_forall in Ha. apply Ha. exact Hx.
Qed.

Section Requests.
Context `{RT : GoRuntime}.
Variables (q : Query) (header : list any) (sheets : list (string * Z)).

Let headers : list string := map Sprint header.
Let fieldMap : gmap string nat := headerMap headers.

(** The matching rows among [rows], which start at position [i]. *)
Let matchedFrom (i : nat) (rows : list (list any)) : list (nat * list any) :=
  List.filter (fun p => matchesWhere q (snd p) headers fieldMap)
    (combine (seq i (length rows)) rows).

Lemma Update_loop_requests (table : list (list any)) (fields : list StructField)
    (values : list any) :
  Forall (fun field => Exported field = true) fields ->
  forall (rows : list (list any)) (i : nat) (n : Z) (log : list request),
    Update_loop (recorder table sheets) q fields values headers fieldMap i rows n log
    = (Returns (Ok (n + Z.of_nat (length (matchedFrom i rows)))),
       (log ++ map (fun p => UpdateRequest (rowRange (sheetName q) (Z.of_nat (fst p) + 2))
                               (writtenRow header fields values (snd p) :: nil))
                 (matchedFrom i rows))%list).
Proof.
  intros Hx. induction rows as [|row rest IH]; intros i n log.
  - unfold matchedFrom. simpl. rewrite app_nil_r, Z.add_0_r. reflexivity.
  - unfold matchedFrom. simpl length. simpl seq. simpl combine. simpl List.filter.
    simpl Update_loop. destruct (matchesWhere q row headers fieldMap); simpl negb; cbv iota.
    + destruct (storeFields_Some fieldMap fields values
                  (copyRow (length headers) row) Hx) as [updatedRow Hstore].
      rewrite Hstore. simpl ValuesUpdate. cbv beta iota. rewrite IH.
      unfold matchedFrom. simpl map. unfold writtenRow at 2. fold headers. fold fieldMap.
      rewrite Hstore. simpl default. rewrite <- app_assoc. simpl app.
      f_equal. f_equal. f_equal. simpl length. lia.
    + apply IH.
Qed.

Lemma rowsToDelete_matched (rows : list (list any)) (i : nat) :
  rowsToDelete q headers fieldMap i rows
  = map (fun p => Z.of_nat (fst p) + 2) (matchedFrom i rows).
Proof.
  revert i. induction rows as [|row rest IH]; intros i; [reflexivity|].
  unfold matchedFrom. simpl. destruct (matchesWhere q row headers fieldMap); simpl;
    rewrite IH; reflexivity.
Qed.

Lemma Delete_loop_requests (table : list (list any)) (pending : list Z) :
  forall log : list request,
    Delete_loop (recorder table sheets) q pending log
    = (None,
       (log ++ map (fun rowIndex =>
                      DeleteRequest (fst (getSheetId (recorder table sheets) q nil))
                        (rowIndex - 1) rowIndex) pending)%list).
Proof.
  induction pending as [|rowIndex rest IH]; intros log.
  - simpl. rewrite app_nil_r. reflexivity.
  - simpl Delete_loop. unfold getSheetId at 1. simpl SpreadsheetsGet. cbv beta iota.
    assert (forall l, (match List.find (fun sheet => fst sheet ==? sheetName q) sheets with
                       | Some sheet => (snd sheet, l)
                       | None => (0, l)
                       end : Z * list request)
                      = (fst (getSheetId (recorder table sheets) q nil), l)) as E.
    { intros l. unfold getSheetId. simpl.
      destruct (List.find _ sheets); reflexivity. }
    rewrite E. simpl DeleteRows. cbv beta iota. rewrite IH.
    rewrite <- app_assoc. reflexivity.
Qed.

Lemma matchedFrom_positions (rows : list (list any)) (i : nat) :
  forall n row,
    In (n, row) (matchedFrom i rows)
    <-> (i <= n)%nat /\ rows !! (n - i)%nat = Some row
        /\ matchesWhere q row headers fieldMap = true.
Proof.
  revert i. induction rows as [|r rest IH]; intros i n row.
  - simpl. split; [intros [] | intros (_ & H & _); discriminate].
  - unfold matchedFrom. simpl length. simpl seq. simpl combine. simpl List.filter.
    fold (matchedFrom (S i) rest).
    assert (In (n, row) (matchedFrom (S i) rest)
            <-> (i < n)%nat /\ (r :: rest) !! (n - i)%nat = Some row
                /\ matchesWhere q row headers fieldMap = true) as Hrest.
    { rewrite IH. split.
      - intros (Hle & Hl & Hm). split; [lia|]. split; [|exact Hm].
        replace (n - i)%nat with (S (n - S i)) by lia. exact Hl.
      - intros (Hlt & Hl & Hm). split; [lia|]. split; [|exact Hm].
        replace (n - i)%nat with (S (n - S i)) in Hl by lia. exact Hl. }
    destruct (matchesWhere q r headers fieldMap) eqn:Hr.
    + simpl In. rewrite Hrest. split.
      * intros [[= <- <-]|(Hlt & Hl & Hm)].
        -- rewrite Nat.sub_diag. auto.
        -- split; [lia | auto].
      * intros (Hle & Hl & Hm). destruct (decide (n = i)) as [->|Hne].
        -- left. rewrite Nat.sub_diag in Hl. simpl in Hl. congruence.
        -- right. split; [lia | auto].
    + rewrite Hrest. split.
      * intros (Hlt & Hl & Hm). split; [lia | auto].
      * intros (Hle & Hl & Hm). destruct (decide (n = i)) as [->|Hne].
        -- rewrite Nat.sub_diag in Hl. simpl in Hl. congruence.
        -- split; [lia | auto].
Qed.

Lemma matchedFrom_increasing (rows : list (list any)) (i : nat) :
  StronglySorted (fun p p' => (fst p < fst p')%nat) (matchedFrom i rows)
  /\ Forall (fun p => (i <= fst p)%nat) (matchedFrom i rows).
Proof.
  revert i. induction rows as [|r rest IH]; intros i.
  - split; constructor.
  - unfold matchedFrom. simpl length. simpl seq. simpl combine. simpl List.filter.
    fold (matchedFrom (S i) rest). destruct (IH (S i)) as [Hs Hb].
    assert (Forall (fun p => (i <= fst p)%nat) (matchedFrom (S i) rest)) as Hb'.
    { eapply Forall_impl; [exact Hb|]. simpl. intros p Hp. lia. }
    destruct (matchesWhere q r headers fieldMap).
    + split.
      * constructor; [exact Hs|]. eapply Forall_impl; [exact Hb|]. simpl. intros p Hp. lia.
      * constructor; [simpl; lia | exact Hb'].
    + auto.
Qed.

End Requests.

(** X11. [Update] on a sheet that accepts every write asks for one
    write for each data row that matches, in the order of the sheet and
    for no other row: the row at position [n] among the data rows is
    written at the sheet row [n + 2], with the cells that the record
    does not cover copied from it.  A record with an unexported field
    apart, it returns nil when a row matched and the error "no rows
    matched" when none did. *)
Theorem Update_requests (RT : GoRuntime) (q : Query) (header : list any)
    (rows : list (list any)) (sheets : list (string * Z)) (fields : list StructField)
    (values : list any) (log : list request) :
  Forall (fun field => Exported field = true) fields ->
  Update (recorder (header :: rows) sheets) q (StructData fields values) log
  = (Returns (if matchedAt q header rows is nil then Some ErrNoRowsMatched else None),
     (log ++ map (fun p => UpdateRequest (rowRange (sheetName q) (Z.of_nat (fst p) + 2))
                             (writtenRow header fields values (snd p) :: nil))
               (matchedAt q header rows))%list).
Proof.
  intros Hx. unfold Update. simpl ValuesGet. cbv beta iota.
  rewrite (Update_loop_requests q header sheets (header :: rows) fields values Hx rows 0 0 log).
  fold (matchedAt q header rows).
  destruct (matchedAt q header rows) as [|p l]; [reflexivity|].
  destruct (Z.eqb_spec (0 + Z.of_nat (length (p :: l))) 0) as [E|E]; [simpl in E; lia|].
  reflexivity.
Qed.

(** The people in NYC are renamed: five writes, at the rows 2, 4, 6, 8
    and 10. *)
Lemma Update_requests_witness :
  Forall (fun field => Exported field = true) person
  /\ map (fun p => Z.of_nat (fst p) + 2)
       (matchedAt (RT := RefRuntime) inNYC (Str "Name" :: Str "City" :: nil) peopleRows)
     = 2 :: 4 :: 6 :: 8 :: 10 :: nil
  /\ Update (RT := RefRuntime) (recorder peopleTable (("People", 7) :: nil)) inNYC
       (StructData person (Str "Ann" :: nil)) nil
     = (Returns (if matchedAt (RT := RefRuntime) inNYC (Str "Name" :: Str "City" :: nil)
                      peopleRows is nil
                 then Some ErrNoRowsMatched else None),
        (nil ++ map (fun p => UpdateRequest (rowRange (sheetName inNYC) (Z.of_nat (fst p) + 2))
                                (writtenRow (RT := RefRuntime)
                                   (Str "Name" :: Str "City" :: nil) person
                                   (Str "Ann" :: nil) (snd p) :: nil))
                  (matchedAt (RT := RefRuntime) inNYC (Str "Name" :: Str "City" :: nil)
                     peopleRows))%list).
Proof.
  assert (Forall (fun field => Exported field = true) person) as H
    by (repeat constructor).
  split; [exact H|]. split; [vm_compute; reflexivity|].
  exact (Update_requests RefRuntime inNYC (Str "Name" :: Str "City" :: nil) peopleRows
           (("People", 7) :: nil) person (Str "Ann" :: nil) nil H).
Defined.

(** X12. [Delete] on a sheet that accepts every deletion asks for one
    deletion for each data row that matches and for no other row, the
    last matching row first: the row at position [n] among the data
    rows is deleted as the rows [n + 1, n + 2) of the sheet, counted
    from 0, so that a deletion never moves a row that is still to be
    deleted.  It returns nil when a row matched and the error "no rows
    matched" when none did. *)
Theorem Delete_requests (RT : GoRuntime) (q : Query) (header : list any)
    (rows : list (list any)) (sheets : list (string * Z)) (log : list request) :
  let sheetId := fst (getSheetId (recorder (header :: rows) sheets) q nil) in
  let matched := matchedAt q header rows in
  Delete (recorder (header :: rows) sheets) q log
  = (if matched is nil then Some ErrNoRowsMatched else None,
     (log ++ map (fun p => DeleteRequest sheetId (Z.of_nat (fst p) + 1) (Z.of_nat (fst p) + 2))
               (List.rev matched))%list)
  /\ StronglySorted (fun p p' => (fst p' < fst p)%nat) (List.rev matched)
  /\ forall n row,
       In (n, row) matched
       <-> rows !! n = Some row
           /\ matchesWhere q row (map Sprint header) (headerMap (map Sprint header)) = true.
Proof.
  intros sheetId matched. split; [|split].
  - unfold Delete. simpl ValuesGet. cbv beta iota.
    rewrite (rowsToDelete_matched q header rows 0). fold (matchedAt q header rows).
    fold matched. rewrite length_map.
    destruct matched as [|p l] eqn:E.
    + simpl. rewrite app_nil_r. reflexivity.
    + rewrite <- E. replace (Nat.eqb (length matched) 0) with false
        by (rewrite E; reflexivity).
      rewrite Delete_loop_requests. fold sheetId. f_equal. f_equal.
      rewrite <- map_rev, map_map. apply map_ext. intros p'. f_equal; lia.
  - destruct (matchedFrom_increasing q header rows 0) as [Hs _].
    fold (matchedAt q header rows) in Hs. fold matched in Hs.
    apply (StronglySorted_rev _ _ Hs).
  - intros n row. unfold matched, matchedAt.
    rewrite (matchedFrom_positions q header rows 0 n row), Nat.sub_0_r.
    split; [intros (_ & H); exact H | intros H; split; [lia | exact H]].
Qed.

(** X13. [getSheetId] is the id of the first sheet that has the title
    of the query; it is 0 when no sheet has the title and when the
    sheets cannot be read, so that a deletion then goes to the sheet
    whose id is 0. *)
Theorem getSheetId_first_title (RT : GoRuntime) (W : Type) (service : Service W)
    (q : Query) (w : W) :
  let sheetId := fst (getSheetId service q w) in
  match fst (SpreadsheetsGet service w) with
  | Err _ => sheetId = 0
  | Ok sheets =>
    (exists before after,
       sheets = (before ++ (sheetName q, sheetId) :: after)%list
       /\ Forall (fun sheet => fst sheet <> sheetName q) before)
    \/ (sheetId = 0 /\ Forall (fun sheet => fst sheet <> sheetName q) sheets)
  end.
Proof.
  unfold getSheetId. destruct (SpreadsheetsGet service w) as [[sheets|err] w1]; simpl;
    [|reflexivity].
  induction sheets as [|[title id] rest IH]; simpl.
  - right. split; [reflexivity | constructor].
  - destruct (String.eqb_spec title (sheetName q)) as [->|Hne]; simpl.
    + left. exists nil, rest. split; [reflexivity | constructor].
    + destruct IH as [(before & after & E & Hb)|[E Hall]].
      * left. exists ((title, id) :: before), after. split; [|constructor; assumption].
        simpl. f_equal. exact E.
      * right. split; [exact E | constructor; assumption].
Qed.

(** ** [Insert] *)

Lemma storeFields_length (fieldMap : gmap string nat) (fields : list StructField) :
  forall values row row',
    storeFields fieldMap fields values row = Some row' -> length row' = length row.
Proof.
  induction fields as [|field rest IH]; intros [|v values] row row' H; simpl in H;
    try (injection H as <-; reflexivity).
  destruct (fieldMap !! boundColumn field) as [c|].
  - destruct (Exported field); [|discriminate].
    rewrite (IH _ _ _ H). apply length_insert.
  - apply (IH _ _ _ H).
Qed.

(** X14. [Insert] reads the first row of the sheet and, when there is
    one, appends a single row to the sheet: a row with one cell for
    each header, every cell nil or a value of the record; what the
    append returns is what [Insert] returns.  When the read fails or
    gives no row, [Insert] returns its error and appends nothing. *)
Theorem Insert_appends_one_row (RT : GoRuntime) (W : Type) (service : Service W)
    (ValuesAppend : string -> list (list any) -> W -> option error * W)
    (q : Query) (fields : list StructField) (values : list any) (w : W) :
  Forall (fun field => Exported field = true) fields ->
  let read := ValuesGet service (sheetName q ++ "!1:1") w in
  match fst read with
  | Err err =>
    Insert service ValuesAppend q (StructData fields values) w
    = (Returns (Some (ErrReadHeaders err)), snd read)
  | Ok nil =>
    Insert service ValuesAppend q (StructData fields values) w
    = (Returns (Some ErrNoHeaders), snd read)
  | Ok (header :: _) =>
    exists row,
      storeFields (headerMap (map Sprint header)) fields values
        (replicate (length header) Nil) = Some row
      /\ length row = length header
      /\ (forall j cell, row !! j = Some cell -> cell = Nil \/ In cell values)
      /\ let written := ValuesAppend (sheetName q ++ "!A:Z") (row :: nil) (snd read) in
         Insert service ValuesAppend q (StructData fields values) w
         = (Returns (option_map ErrInsertRow (fst written)), snd written)
  end.
Proof.
  intros Hx read. unfold Insert. fold read.
  destruct read as [[[|header rest]|err] w1]; simpl fst; simpl snd; try reflexivity.
  destruct (storeFields_Some (headerMap (map Sprint header)) fields values
              (replicate (length (map Sprint header)) Nil) Hx) as [row Hrow].
  rewrite Hrow. rewrite length_map in Hrow. exists row. split; [exact Hrow|]. split.
  { rewrite (storeFields_length _ _ _ _ _ Hrow). apply length_replicate. }
  split.
  { intros j cell Hj.
    destruct (storeFields_cells _ _ _ _ _ Hrow j cell Hj) as [Hc|Hin]; [left | right; exact Hin].
    apply lookup_replicate in Hc as [-> _]. reflexivity. }
  simpl. destruct (ValuesAppend (sheetName q ++ "!A:Z") (row :: nil) w1) as [[err|] w2];
    reflexivity.
Qed.

(** A person is inserted into the sheet of the nine people: the row
    has the name under [Name] and nil under [City].  The appender of
    the example records the append as a write to the range. *)
Lemma Insert_appends_one_row_witness :
  Forall (fun field => Exported field = true) person
  /\ Insert (RT := RefRuntime) peopleService
       (fun range values log => (None, (log ++ UpdateRequest range values :: nil)%list))
       (From "People") (StructData person (Str "Ann" :: nil)) nil
     = (Returns None, UpdateRequest "People!A:Z" ((Str "Ann" :: Nil :: nil) :: nil) :: nil)
  /\ match fst (ValuesGet peopleService (sheetName (From "People") ++ "!1:1") nil) with
     | Err err =>
       Insert (RT := RefRuntime) peopleService
         (fun range values log => (None, (log ++ UpdateRequest range values :: nil)%list))
         (From "People") (StructData person (Str "Ann" :: nil)) nil
       = (Returns (Some (ErrReadHeaders err)),
          snd (ValuesGet peopleService (sheetName (From "People") ++ "!1:1") nil))
     | Ok nil =>
       Insert (RT := RefRuntime) peopleService
         (fun range values log => (None, (log ++ UpdateRequest range values :: nil)%list))
         (From "People") (StructData person (Str "Ann" :: nil)) nil
       = (Returns (Some ErrNoHeaders),
          snd (ValuesGet peopleService (sheetName (From "People") ++ "!1:1") nil))
     | Ok (header :: _) =>
       exists row,
         storeFields (headerMap (map (Sprint (RT := RefRuntime)) header)) person
           (Str "Ann" :: nil) (replicate (length header) Nil) = Some row
         /\ length row = length header
         /\ (forall j cell, row !! j = Some cell -> cell = Nil \/ In cell (Str "Ann" :: nil))
         /\ let written :=
              (fun range values log =>
                 (@None error, (log ++ UpdateRequest range values :: nil)%list))
                (sheetName (From "People") ++ "!A:Z") (row :: nil)
                (snd (ValuesGet peopleService (sheetName (From "People") ++ "!1:1") nil)) in
            Insert (RT := RefRuntime) peopleService
              (fun range values log =>
                 (None, (log ++ UpdateRequest range values :: nil)%list))
              (From "People") (StructData person (Str "Ann" :: nil)) nil
            = (Returns (option_map ErrInsertRow (fst written)), snd written)
     end.
Proof.
  assert (Forall (fun field => Exported field = true) person) as H
    by (repeat constructor).
  split; [exact H|]. split; [vm_compute; reflexivity|].
  exact (Insert_appends_one_row RefRuntime _ peopleService
           (fun range values log => (None, (log ++ UpdateRequest range values :: nil)%list))
           (From "People") person (Str "Ann" :: nil) nil H).
Defined.

(** ** Runes *)

Module Utf8Facts.
Import Bytes Utf8.
Local Open Scope N_scope.

Lemma land_low (x n q : N) :
  q * 2 ^ n <= x < (q + 1) * 2 ^ n -> N.land x (N.ones n) = x - q * 2 ^ n.
Proof.
  intros H. rewrite N.land_ones. symmetry. apply N.mod_unique with (q := q); lia.
Qed.

Lemma lor_shiftl (a b n : N) : b < 2 ^ n -> N.lor (N.shiftl a n) b = a * 2 ^ n + b.
Proof.
  intros Hb. assert (N.land (N.shiftl a n) b = 0) as Hland.
  { apply N.bits_inj. intros m. rewrite N.land_spec, N.bits_0.
    destruct (N.lt_ge_cases m n) as [Hlt|Hge].
    - rewrite N.shiftl_spec_low by exact Hlt. reflexivity.
    - destruct (N.eq_dec b 0) as [->|Hnz]; [rewrite N.bits_0; apply andb_false_r|].
      rewrite (N.bits_above_log2 b m), andb_false_r; [reflexivity|].
      apply N.log2_lt_pow2; [lia|]. eapply N.lt_le_trans; [exact Hb|].
      apply N.pow_le_mono_r; lia. }
  rewrite <- N.lxor_lor, <- N.add_nocarry_lxor by exact Hland.
  rewrite N.shiftl_mul_pow2. reflexivity.
Qed.

Lemma between_spec (lo hi : N) (c : ascii) :
  between lo hi c = true <-> lo <= code c <= hi.
Proof. unfold between. rewrite andb_true_iff, !N.leb_le. tauto. Qed.

Lemma land_31 (x : N) : 194 <= x <= 223 -> N.land x 31 = x - 192.
Proof. intros H. apply (land_low x 5 6). simpl. lia. Qed.

Lemma land_15 (x : N) : 224 <= x <= 239 -> N.land x 15 = x - 224.
Proof. intros H. apply (land_low x 4 14). simpl. lia. Qed.

Lemma land_7 (x : N) : 240 <= x <= 244 -> N.land x 7 = x - 240.
Proof. intros H. apply (land_low x 3 30). simpl. lia. Qed.

Lemma low6_continuation (c : ascii) :
  128 <= code c <= 191 -> low6 c = code c - 128.
Proof. intros H. unfold low6. apply (land_low (code c) 6 2). simpl. lia. Qed.

(** The table [first], range by range. *)
Lemma first_spec (s0 : ascii) (sz : nat) (lo hi : N) :
  first s0 = (sz, lo, hi) ->
  sz = 1%nat
  \/ (sz = 2%nat /\ 194 <= code s0 <= 223 /\ lo = 128 /\ hi = 191)
  \/ (sz = 3%nat /\ 224 <= code s0 <= 239 /\ 128 <= lo /\ hi <= 191
      /\ (code s0 = 224 -> 160 <= lo))
  \/ (sz = 4%nat /\ 240 <= code s0 <= 244 /\ 128 <= lo /\ hi <= 191
      /\ (code s0 = 240 -> 144 <= lo)).
Proof.
  unfold first.
  destruct (between 194 223 s0) eqn:B1.
  { apply between_spec in B1. intros [= <- <- <-]. right. left. repeat split; lia. }
  destruct (N.eqb_spec (code s0) 224) as [E2|N2].
  { intros [= <- <- <-]. right. right. left. repeat split; lia. }
  destruct (between 225 236 s0 || between 238 239 s0) eqn:B3.
  { apply orb_true_iff in B3 as [B3|B3]; apply between_spec in B3;
      intros [= <- <- <-]; right; right; left; repeat split; lia. }
  destruct (N.eqb_spec (code s0) 237) as [E4|N4].
  { intros [= <- <- <-]. right. right. left. repeat split; lia. }
  destruct (N.eqb_spec (code s0) 240) as [E5|N5].
  { intros [= <- <- <-]. right. right. right. repeat split; lia. }
  destruct (between 241 243 s0) eqn:B6.
  { apply between_spec in B6. intros [= <- <- <-]. right. right. right. repeat split; lia. }
  destruct (N.eqb_spec (code s0) 244) as [E7|N7].
  { intros [= <- <- <-]. right. right. right. repeat split; lia. }
  intros [= <- <- <-]. left. reflexivity.
Qed.


Lemma DecodeRuneInString_decoded (s : string) :
  decoded s (fst (DecodeRuneInString s)) (snd (DecodeRuneInString s)).
Proof.
  destruct s as [|s0 rest]; [apply decoded_empty; reflexivity|].
  unfold DecodeRuneInString.
  destruct (N.ltb_spec (code s0) 128) as [Hascii|Hhigh].
  { simpl. eapply decoded_ascii; [reflexivity | exact Hascii | reflexivity]. }
  assert (decoded (String s0 rest) RuneError 1) as Herr
    by (eapply decoded_error; [reflexivity | exact Hhigh | reflexivity]).
  destruct (first s0) as [[sz lo] hi] eqn:Hfirst.
  apply first_spec in Hfirst.
  destruct (Nat.eqb_spec sz 1) as [->|Hsz]; [exact Herr|].
  destruct (String.length (String s0 rest) <? sz)%nat; [exact Herr|].
  destruct rest as [|s1 rest1]; [exact Herr|].
  destruct (between lo hi s1) eqn:B1; simpl negb; cbv iota; [|exact Herr].
  apply between_spec in B1.
  destruct Hfirst as [->|[(-> & H0 & -> & ->)|[(-> & H0 & Hlo & Hhi & H224)
                                               |(-> & H0 & Hlo & Hhi & H240)]]];
    [congruence| | |].
  - (* two bytes *)
    cbn [fst snd Nat.leb]. eapply decoded_two; [reflexivity | exact H0 | exact B1 |].
    rewrite land_31 by exact H0.
    rewrite low6_continuation by exact B1.
    rewrite lor_shiftl by (simpl; lia). reflexivity.
  - (* three bytes *)
    change (3 <=? 2)%nat with false. cbv iota.
    destruct rest1 as [|s2 rest2]; [exact Herr|].
    destruct (between 128 191 s2) eqn:B2; simpl negb; cbv iota; [|exact Herr].
    apply between_spec in B2. cbn [fst snd Nat.leb].
    assert (128 <= code s1 <= 191) as B1' by lia.
    rewrite land_15 by exact H0.
    rewrite !low6_continuation by assumption.
    rewrite (lor_shiftl (code s1 - 128) _ 6) by (simpl; lia).
    rewrite lor_shiftl by (simpl; lia).
    eapply decoded_three; [reflexivity | exact H0 | exact B1' | exact B2 | |].
    + simpl. lia.
    + simpl. destruct (N.eq_dec (code s0) 224) as [E|E]; [specialize (H224 E)|]; lia.
  - (* four bytes *)
    change (4 <=? 2)%nat with false. cbv iota.
    destruct rest1 as [|s2 rest2]; [exact Herr|].
    destruct (between 128 191 s2) eqn:B2; simpl negb; cbv iota; [|exact Herr].
    apply between_spec in B2.
    change (4 <=? 3)%nat with false. cbv iota.
    destruct rest2 as [|s3 rest3]; [exact Herr|].
    destruct (between 128 191 s3) eqn:B3; simpl negb; cbv iota; [|exact Herr].
    apply between_spec in B3. cbn [fst snd].
    assert (128 <= code s1 <= 191) as B1' by lia.
    rewrite land_7 by exact H0.
    rewrite !low6_continuation by assumption.
    rewrite (lor_shiftl (code s2 - 128) _ 6) by (simpl; lia).
    rewrite (lor_shiftl (code s1 - 128) _ 12) by (simpl; lia).
    rewrite lor_shiftl by (simpl; lia).
    eapply decoded_four; [reflexivity | exact H0 | exact B1' | exact B2 | exact B3 | |].
    + simpl. lia.
    + simpl. destruct (N.eq_dec (code s0) 240) as [E|E]; [specialize (H240 E)|]; lia.
Qed.

End Utf8Facts.

(** ** The matcher of [parseSQL] *)

Module BacktrackFacts.
Import Bytes Backtrack Utf8Facts.

Lemma drop_append (m rest : string) : drop (String.length m) (m ++ rest) = rest.
Proof. induction m as [|c m IH]; simpl; [destruct rest; reflexivity | exact IH]. Qed.

(** A step reads a rune of the class. *)
Lemma step_decoded (c : class) (s rest : string) :
  step c s = Some rest ->
  exists r w, decoded s r (S w) /\ c r = true /\ rest = drop (S w) s.
Proof.
  unfold step. pose proof (DecodeRuneInString_decoded s) as Hd.
  destruct (Utf8.DecodeRuneInString s) as [r w]. simpl in Hd.
  destruct w as [|w]; [discriminate|]. simpl.
  destruct (c r) eqn:Hc; [|discriminate]. intros [= <-]. eauto.
Qed.

Lemma code_inj (a b : ascii) : code a = code b -> a = b.
Proof.
  intros H. rewrite <- (ascii_N_embedding a), <- (ascii_N_embedding b).
  unfold code in H. rewrite H. reflexivity.
Qed.

(** A step on a class of ASCII runes reads one byte. *)
Lemma step_ascii (c : class) (s rest : string) :
  (forall r, c r = true -> (r < 128)%N) ->
  step c s = Some rest -> exists ch, s = String ch rest /\ c (code ch) = true.
Proof.
  intros Hascii H. apply step_decoded in H as (r & w & Hd & Hc & ->).
  specialize (Hascii r Hc).
  inversion Hd as [|ch rest' -> Hlt ->|ch rest' -> Hge ->|b0 b1 rest' -> H0 H1 ->
                   |b0 b1 b2 rest' -> H0 H1 H2 -> Hr|b0 b1 b2 b3 rest' -> H0 H1 H2 H3 -> Hr];
    subst; try (unfold Utf8.RuneError in *; lia).
  exists ch. split; [destruct rest'; reflexivity | exact Hc].
Qed.

Lemma space_ascii (r : N) : space r = true -> (r < 128)%N.
Proof.
  unfold space. rewrite !orb_true_iff, !N.eqb_eq. lia.
Qed.

Lemma digit_ascii (r : N) : digit r = true -> (r < 128)%N.
Proof. unfold digit. rewrite andb_true_iff, !N.leb_le. lia. Qed.

Lemma step_space (s rest : string) :
  step space s = Some rest -> exists ch, s = String ch rest /\ isSpace ch = true.
Proof. apply step_ascii, space_ascii. Qed.

Lemma step_digit (s rest : string) :
  step digit s = Some rest -> exists ch, s = String ch rest /\ isDigit ch = true.
Proof. apply step_ascii, digit_ascii. Qed.

Lemma notNewline_high (c : ascii) : (128 <= code c)%N -> notNewline c = true.
Proof. intros H. unfold notNewline. apply negb_true_iff, N.eqb_neq. lia. Qed.

(** A step on [.] reads the bytes of a rune, none of them a line
    feed. *)
Lemma step_any (s rest : string) :
  step anyCharNotNL s = Some rest ->
  exists m, s = m ++ rest /\ m <> "" /\ all notNewline m = true.
Proof.
  intros H. apply step_decoded in H as (r & w & Hd & Hc & ->).
  inversion Hd as [|ch rest' -> Hlt ->|ch rest' -> Hge ->|b0 b1 rest' -> H0 H1 ->
                   |b0 b1 b2 rest' -> H0 H1 H2 -> Hr|b0 b1 b2 b3 rest' -> H0 H1 H2 H3 -> Hr];
    subst.
  - exists (String ch ""). split; [destruct rest'; reflexivity|]. split; [discriminate|].
    simpl. rewrite andb_true_r. exact Hc.
  - exists (String ch ""). split; [destruct rest'; reflexivity|]. split; [discriminate|].
    simpl. rewrite notNewline_high by exact Hge. reflexivity.
  - exists (String b0 (String b1 "")). split; [destruct rest'; reflexivity|].
    split; [discriminate|]. simpl. rewrite !notNewline_high by lia. reflexivity.
  - exists (String b0 (String b1 (String b2 ""))). split; [destruct rest'; reflexivity|].
    split; [discriminate|]. simpl. rewrite !notNewline_high by lia. reflexivity.
  - exists (String b0 (String b1 (String b2 (String b3 "")))).
    split; [destruct rest'; reflexivity|].
    split; [discriminate|]. simpl. rewrite !notNewline_high by lia. reflexivity.
Qed.

(** The two runes beyond ASCII that the folded classes hold. *)
Lemma decoded_383 (s : string) (w : nat) :
  decoded s 383%N (S w) -> exists rest, s = longS ++ rest /\ w = 1%nat.
Proof.
  intros Hd.
  inversion Hd as [|ch rest' -> Hlt E|ch rest' -> Hge E|b0 b1 rest' -> H0 H1 E
                   |b0 b1 b2 rest' -> H0 H1 H2 E Hr|b0 b1 b2 b3 rest' -> H0 H1 H2 H3 E Hr];
    subst; try (pose proof (N_ascii_bounded ch); unfold code, Utf8.RuneError in *; lia);
    try lia.
  exists rest'. split; [|reflexivity].
  assert (b0 = ascii_of_N 197) as -> by (apply code_inj; unfold code; simpl; unfold code in *; lia).
  assert (b1 = ascii_of_N 191) as -> by (apply code_inj; unfold code; simpl; unfold code in *; lia).
  reflexivity.
Qed.

Lemma decoded_8490 (s : string) (w : nat) :
  decoded s 8490%N (S w) -> exists rest, s = kelvin ++ rest /\ w = 2%nat.
Proof.
  intros Hd.
  inversion Hd as [|ch rest' -> Hlt E|ch rest' -> Hge E|b0 b1 rest' -> H0 H1 E
                   |b0 b1 b2 rest' -> H0 H1 H2 E Hr|b0 b1 b2 b3 rest' -> H0 H1 H2 H3 E Hr];
    subst; try (pose proof (N_ascii_bounded ch); unfold code, Utf8.RuneError in *; lia);
    try lia.
  exists rest'. split; [|reflexivity].
  assert (b0 = ascii_of_N 226) as -> by (apply code_inj; unfold code; simpl; unfold code in *; lia).
  assert (b1 = ascii_of_N 132) as -> by (apply code_inj; unfold code; simpl; unfold code in *; lia).
  assert (b2 = ascii_of_N 170) as -> by (apply code_inj; unfold code; simpl; unfold code in *; lia).
  reflexivity.
Qed.

(** A rune below 256 is read from one byte of ASCII. *)
Lemma decoded_small (s : string) (r : N) (w : nat) :
  decoded s r (S w) -> (r < 128)%N ->
  exists ch rest, s = String ch rest /\ r = code ch /\ w = 0%nat.
Proof.
  intros Hd Hr.
  inversion Hd as [|ch rest' -> Hlt E|ch rest' -> Hge E|b0 b1 rest' -> H0 H1 E
                   |b0 b1 b2 rest' -> H0 H1 H2 E Hr'|b0 b1 b2 b3 rest' -> H0 H1 H2 H3 E Hr'];
    subst; try (unfold Utf8.RuneError in *; lia).
  eauto.
Qed.


Lemma isWord_small (ch : ascii) :
  wordFold (code ch) = true -> isWord ch = true.
Proof.
  unfold wordFold, isWord, digit, isDigit, isUpper, isLower, between.
  pose proof (N_ascii_bounded ch) as Hb. unfold code.
  rewrite !orb_true_iff, !andb_true_iff, !N.leb_le, !N.eqb_eq. lia.
Qed.

(** A step on the folded class [\w] reads a rune of a name. *)
Lemma step_word (s rest : string) :
  step wordFold s = Some rest -> exists m, s = m ++ rest /\ nameRune m.
Proof.
  intros H. apply step_decoded in H as (r & w & Hd & Hc & ->).
  destruct (N.eq_dec r 383%N) as [->|N1].
  { apply decoded_383 in Hd as (rest & -> & ->). exists longS. split; [reflexivity|].
    right. left. reflexivity. }
  destruct (N.eq_dec r 8490%N) as [->|N2].
  { apply decoded_8490 in Hd as (rest & -> & ->). exists kelvin. split; [reflexivity|].
    right. right. reflexivity. }
  assert (r < 128)%N as Hr.
  { unfold wordFold, digit in Hc.
    rewrite !orb_true_iff, !andb_true_iff, !N.leb_le, !N.eqb_eq in Hc. lia. }
  destruct (decoded_small s r w Hd Hr) as (ch & rest & -> & -> & ->).
  exists (String ch ""). split; [destruct rest; reflexivity|].
  left. exists ch. split; [reflexivity | apply isWord_small; exact Hc].
Qed.

Lemma lower_upper (a : ascii) :
  isUpper a = true -> lower a = ascii_of_N (code a + 32).
Proof. intros H. unfold lower. rewrite H. reflexivity. Qed.

Lemma lower_not_upper (a : ascii) : isUpper a = false -> lower a = a.
Proof. intros H. unfold lower. rewrite H. reflexivity. Qed.

(** A step on a capital letter under the flag [i] reads the letter as
    it may be written. *)
Lemma step_fold (a : ascii) (s rest : string) :
  isUpper a = true ->
  step (foldOf a) s = Some rest -> exists m, s = m ++ rest /\ letterAs a m.
Proof.
  intros Ha H. apply step_decoded in H as (r & w & Hd & Hc & ->).
  pose proof Ha as Hrange. unfold isUpper in Hrange. apply between_spec in Hrange.
  assert (isLower a = false) as Hl.
  { unfold isLower, between. apply andb_false_iff. left. apply N.leb_gt. lia. }
  unfold foldOf in Hc. rewrite Ha, Hl in Hc. simpl in Hc.
  rewrite orb_false_r in Hc.
  destruct (Ascii.eqb (lower a) "s" && (r =? 383)%N) eqn:Es.
  { apply andb_true_iff in Es as [Es Er]. apply N.eqb_eq in Er. subst r.
    apply decoded_383 in Hd as (rest & -> & ->). exists longS. split; [reflexivity|].
    right. left. auto. }
  destruct (Ascii.eqb (lower a) "k" && (r =? 8490)%N) eqn:Ek.
  { apply andb_true_iff in Ek as [Ek Er]. apply N.eqb_eq in Er. subst r.
    apply decoded_8490 in Hd as (rest & -> & ->). exists kelvin. split; [reflexivity|].
    right. right. auto. }
  rewrite !orb_false_r in Hc. apply orb_true_iff in Hc.
  assert (r < 128)%N as Hr by (rewrite !N.eqb_eq in Hc; lia).
  destruct (decoded_small s r w Hd Hr) as (ch & rest & -> & -> & ->).
  exists (String ch ""). split; [destruct rest; reflexivity|].
  left. exists ch. split; [reflexivity|]. unfold Regexp.eqFold.
  rewrite !N.eqb_eq in Hc. destruct Hc as [E|E].
  - apply code_inj in E. subst ch. apply Ascii.eqb_refl.
  - assert (ch = ascii_of_N (code a + 32)) as ->.
    { apply code_inj. rewrite E. unfold code. symmetry. apply N_ascii_embedding.
      unfold code in *. lia. }
    rewrite lower_upper by exact Ha. rewrite lower_not_upper; [apply Ascii.eqb_refl|].
    unfold isUpper, between. apply andb_false_iff. right. apply N.leb_gt.
    unfold code. rewrite N_ascii_embedding by (unfold code in *; lia). unfold code in *. lia.
Qed.

Lemma stripFold_keyword (lit s rest : string) :
  all isUpper lit = true ->
  stripFold lit s = Some rest -> exists kw, s = kw ++ rest /\ keywordAs lit kw.
Proof.
  revert s. induction lit as [|a lit IH]; intros s Hup H; simpl in H.
  - injection H as <-. exists "". split; reflexivity.
  - simpl in Hup. apply andb_true_iff in Hup as [Ha Hup].
    destruct (step (foldOf a) s) as [mid|] eqn:Hstep; [|discriminate].
    apply (step_fold a s mid Ha) in Hstep as (m & -> & Hm).
    destruct (IH mid Hup H) as (kw & -> & Hkw).
    exists (m ++ kw). split; [symmetry; apply append_assoc|].
    simpl. exists m, kw. auto.
Qed.

(** What a repetition reads. *)
Lemma all_of_append (p : ascii -> bool) (a b : string) :
  all p (a ++ b) = all p a && all p b.
Proof. induction a as [|c a IH]; simpl; [reflexivity|]. rewrite IH, andb_assoc. reflexivity. Qed.

Lemma Runs_bytes (c : class) (p : ascii -> bool) :
  (forall s rest, step c s = Some rest ->
                  exists m, s = m ++ rest /\ m <> "" /\ all p m = true) ->
  forall s rest, Runs c s rest -> exists m, s = m ++ rest /\ m <> "" /\ all p m = true.
Proof.
  intros Hstep s rest H. induction H as [s rest H|s mid rest H _ IH].
  - apply Hstep. exact H.
  - destruct (Hstep s mid H) as (m1 & -> & Hne & Hall).
    destruct IH as (m2 & -> & _ & Hall2).
    exists (m1 ++ m2). split; [symmetry; apply append_assoc|].
    split; [destruct m1; [contradiction | discriminate]|].
    rewrite all_of_append, Hall, Hall2. reflexivity.
Qed.

Lemma Runs_blank (s rest : string) :
  Runs space s rest -> exists ws, s = ws ++ rest /\ isBlank ws.
Proof.
  apply (Runs_bytes space isSpace). clear. intros s rest H.
  apply step_space in H as (ch & -> & Hch). exists (String ch "").
  split; [reflexivity|]. split; [discriminate|]. simpl. rewrite Hch. reflexivity.
Qed.

Lemma Runs_digits (s rest : string) :
  Runs digit s rest -> exists ds, s = ds ++ rest /\ isDigits ds.
Proof.
  apply (Runs_bytes digit isDigit). clear. intros s rest H.
  apply step_digit in H as (ch & -> & Hch). exists (String ch "").
  split; [reflexivity|]. split; [discriminate|]. simpl. rewrite Hch. reflexivity.
Qed.

Lemma Runs_text (s rest : string) :
  Runs anyCharNotNL s rest -> exists t, s = t ++ rest /\ isText t.
Proof. apply (Runs_bytes anyCharNotNL notNewline). exact step_any. Qed.

Lemma Runs_name (s rest : string) :
  Runs wordFold s rest -> exists name, s = name ++ rest /\ isName name.
Proof.
  intros H. induction H as [s rest H|s mid rest H _ IH].
  - apply step_word in H as (m & -> & Hm). exists m. split; [reflexivity|].
    apply name_one. exact Hm.
  - apply step_word in H as (m & -> & Hm). destruct IH as (name & -> & Hname).
    exists (m ++ name). split; [symmetry; apply append_assoc|].
    apply name_more; assumption.
Qed.

(** The matcher finds matches only. *)
Section Sound.
Context {R : Type}.

Lemma plusLoop_sound (c : class) (fuel : nat) :
  forall (s : string) (k : string -> option R) (x : R),
    plusLoop fuel c s k = Some x -> exists rest, Runs c s rest /\ k rest = Some x.
Proof.
  induction fuel as [|fuel IH]; intros s k x; simpl;
    destruct (step c s) as [mid|] eqn:Hstep; try discriminate.
  - intros H. exists mid. split; [apply Runs_one; exact Hstep | exact H].
  - destruct (plusLoop fuel c mid k) as [y|] eqn:Hloop.
    + intros [= ->]. destruct (IH mid k x Hloop) as (rest & Hruns & Hk).
      exists rest. split; [eapply Runs_more; eassumption | exact Hk].
    + intros H. exists mid. split; [apply Runs_one; exact Hstep | exact H].
Qed.

Lemma lazyLoop_sound (c : class) (fuel : nat) :
  forall (s : string) (k : string -> option R) (x : R),
    lazyLoop fuel c s k = Some x -> exists rest, Runs c s rest /\ k rest = Some x.
Proof.
  induction fuel as [|fuel IH]; intros s k x; simpl;
    destruct (step c s) as [mid|] eqn:Hstep; try discriminate;
    destruct (k mid) as [y|] eqn:Hk; try discriminate.
  - intros [= ->]. exists mid. split; [apply Runs_one; exact Hstep | exact Hk].
  - intros [= ->]. exists mid. split; [apply Runs_one; exact Hstep | exact Hk].
  - intros H. destruct (IH mid k x H) as (rest & Hruns & Hk').
    exists rest. split; [eapply Runs_more; eassumption | exact Hk'].
Qed.

Lemma exec_Parses (text : string) (r : re) :
  forall (s : string) (caps : list string) (k : string -> list string -> option R) (x : R),
    exec text r s caps k = Some x ->
    exists rest caps', Parses text r s rest caps caps' /\ k rest caps' = Some x.
Proof.
  induction r as [| |lit|c|c|r1 IH1 r2 IH2|r IH|i r IH]; intros s caps k x; simpl.
  - destruct (Nat.eqb_spec (String.length s) (String.length text)) as [E|E]; [|discriminate].
    intros H. exists s, caps. split; [apply P_Begin; exact E | exact H].
  - destruct s; [|discriminate]. intros H. exists "", caps. split; [apply P_End | exact H].
  - destruct (stripFold lit s) as [rest|] eqn:E; [|discriminate].
    intros H. exists rest, caps. split; [apply P_Fold; exact E | exact H].
  - intros H. apply plusLoop_sound in H as (rest & Hruns & Hk).
    exists rest, caps. split; [apply P_Plus; exact Hruns | exact Hk].
  - intros H. apply lazyLoop_sound in H as (rest & Hruns & Hk).
    exists rest, caps. split; [apply P_Lazy; exact Hruns | exact Hk].
  - intros H. apply IH1 in H as (mid & c1 & P1 & H).
    apply IH2 in H as (rest & c2 & P2 & H).
    exists rest, c2. split; [eapply P_Seq; eassumption | exact H].
  - destruct (exec text r s caps k) as [y|] eqn:E.
    + intros [= ->]. apply IH in E as (rest & c1 & P & H).
      exists rest, c1. split; [apply P_Some; exact P | exact H].
    + intros H. exists s, caps. split; [apply P_None | exact H].
  - intros H. apply IH in H as (rest & c1 & P & H).
    exists rest, (<[i := Regexp.consumed s rest]> c1). split; [apply P_Group; exact P | exact H].
Qed.

End Sound.

(** An expression that starts with [^] matches at the start of the
    text only. *)
Lemma length_drop_le (n : nat) (s : string) :
  (String.length (drop n s) <= String.length s - n)%nat.
Proof.
  revert s. induction n as [|n IH]; intros s; simpl; [lia|].
  destruct s as [|c s]; simpl; [lia | apply IH].
Qed.

Lemma matchAt_anchored (text : string) (r : re) (s : string) :
  String.length s <> String.length text -> matchAt text (Seq BeginText r) s = None.
Proof.
  intros H. unfold matchAt. simpl. apply Nat.eqb_neq in H. rewrite H. reflexivity.
Qed.

Lemma findLoop_anchored (text : string) (r : re) (fuel : nat) :
  forall s, (String.length s < String.length text)%nat ->
            findLoop text (Seq BeginText r) fuel s = nil.
Proof.
  induction fuel as [|fuel IH]; intros s Hs; simpl;
    rewrite matchAt_anchored by lia; [reflexivity|].
  destruct s as [|c s]; [reflexivity|]. apply IH.
  unfold next. pose proof (length_drop_le
    (Nat.max 1 (snd (Utf8.DecodeRuneInString (String c s)))) (String c s)). lia.
Qed.

Lemma FindStringSubmatch_anchored (text : string) (r : re) :
  FindStringSubmatch (Seq BeginText r) text
  = match matchAt text (Seq BeginText r) text with
    | Some (caps, _) => caps
    | None => nil
    end.
Proof.
  unfold FindStringSubmatch. destruct (String.length text) as [|fuel] eqn:E; simpl.
  - destruct (matchAt text (Seq BeginText r) text) as [[caps rest]|]; reflexivity.
  - destruct (matchAt text (Seq BeginText r) text) as [[caps rest]|]; [reflexivity|].
    destruct text as [|c text]; [reflexivity|]. apply findLoop_anchored.
    unfold next. pose proof (length_drop_le
      (Nat.max 1 (snd (Utf8.DecodeRuneInString (String c text)))) (String c text)). lia.
Qed.

End BacktrackFacts.

(** ** The statements that [selectRegex] matches *)

Module StatementFacts.
Import Bytes Backtrack Statement BacktrackFacts.


Lemma Parses_Begin_inv (text s rest : string) (c0 c1 : list string) :
  Parses text BeginText s rest c0 c1 -> rest = s /\ c1 = c0.
Proof. inversion 1; subst. auto. Qed.

Lemma Parses_End_inv (text s rest : string) (c0 c1 : list string) :
  Parses text EndText s rest c0 c1 -> s = "" /\ rest = "" /\ c1 = c0.
Proof. inversion 1; subst. auto. Qed.

(** An optional part [(?:\s+KEYWORD\s+(value))?]. *)
Lemma Parses_optional (text keyword : string) (i : nat) (inner : re)
    (isValue : string -> Prop) (s rest : string) (c0 c1 : list string) :
  all isUpper keyword = true ->
  (forall s rest c0 c1,
     Parses text inner s rest c0 c1 ->
     c1 = c0 /\ exists value, s = value ++ rest /\ isValue value) ->
  Parses text (Opt (Seq (Plus space) (Seq (Fold keyword) (Seq (Plus space) (Group i inner)))))
    s rest c0 c1 ->
  exists part value,
    s = part ++ rest
    /\ optionalPart keyword isValue part value
    /\ ((c1 = c0 /\ value = "") \/ c1 = <[i := value]> c0).
Proof.
  intros Hup Hinner H. inversion H as [| | | | | |? ? ? ? ? P|? ? ?|]; subst.
  - inv_seq P as P1 P2.
    inv_seq P2 as P3 P4.
    inv_seq P4 as P5 P6.
    inv_plus P1 as Hr1.
    inv_fold P3 as Hf.
    inv_plus P5 as Hr2.
    inv_group P6 as P7.
    apply Runs_blank in Hr1 as (ws1 & -> & Hws1).
    apply stripFold_keyword in Hf as (kw & -> & Hkw); [|exact Hup].
    apply Runs_blank in Hr2 as (ws2 & -> & Hws2).
    destruct (Hinner _ _ _ _ P7) as (-> & value & -> & Hvalue).
    rewrite RegexpFacts.consumed_append.
    exists (ws1 ++ kw ++ ws2 ++ value), value.
    split; [rewrite !append_assoc; reflexivity|].
    split; [|right; reflexivity].
    right. exists ws1, kw, ws2. auto.
  - exists "", "". split; [reflexivity|]. split; [left; auto | left; auto].
Qed.

Lemma Parses_lazy_text (text : string) (s rest : string) (c0 c1 : list string) :
  Parses text (LazyPlus anyCharNotNL) s rest c0 c1 ->
  c1 = c0 /\ exists value, s = value ++ rest /\ isText value.
Proof.
  intros H. inversion H; subst. split; [reflexivity|]. apply Runs_text. assumption.
Qed.

Lemma Parses_digits (text : string) (s rest : string) (c0 c1 : list string) :
  Parses text (Plus digit) s rest c0 c1 ->
  c1 = c0 /\ exists value, s = value ++ rest /\ isDigits value.
Proof.
  intros H. inversion H; subst. split; [reflexivity|]. apply Runs_digits. assumption.
Qed.

(** What [FindStringSubmatch] returns on [selectRegex]: nothing, or the
    six submatches of a statement of the shape. *)
Lemma selectRegex_submatches (text : string) :
  FindStringSubmatch selectRegex text = nil
  \/ exists columns table whereClause limitDigits offsetDigits,
       FindStringSubmatch selectRegex text
       = text :: columns :: table :: whereClause :: limitDigits :: offsetDigits :: nil
       /\ selectShape text columns table whereClause limitDigits offsetDigits.
Proof.
  unfold selectRegex. rewrite FindStringSubmatch_anchored.
  match goal with
  | |- context [matchAt text ?r text] =>
    destruct (matchAt text r text) as [[caps rest]|] eqn:Hm; [|left; reflexivity]
  end.
  right. unfold matchAt in Hm. apply exec_Parses in Hm as (rest' & caps' & P & [= <- <-]).
  inv_group P as P0.
  inv_seq P0 as PB P1.
  inv_seq P1 as PSel P2.
  inv_seq P2 as PW1 P3.
  inv_seq P3 as PCols P4.
  inv_seq P4 as PW2 P5.
  inv_seq P5 as PFrom P6.
  inv_seq P6 as PW3 P7.
  inv_seq P7 as PTable P8.
  inv_seq P8 as PWhere P9.
  inv_seq P9 as PLimit P10.
  inv_seq P10 as POffset PEnd.
  apply Parses_Begin_inv in PB as [-> ->].
  apply Parses_End_inv in PEnd as (-> & -> & ->).
  inv_fold PSel as Hsel.
  inv_plus PW1 as Hw1.
  inv_group PCols as PCols'.
  inv_plus PW2 as Hw2.
  inv_fold PFrom as Hfrom.
  inv_plus PW3 as Hw3.
  inv_group PTable as PTable'.
  inv_plus PTable' as Htable.
  apply Parses_lazy_text in PCols' as (-> & columns & -> & Hcols).
  apply Runs_name in Htable as (table & -> & Htable).
  apply (Parses_optional _ "WHERE" 3 _ isText) in PWhere
    as (partWhere & whereClause & -> & HWhere & Hc3);
    [|reflexivity | apply Parses_lazy_text].
  apply (Parses_optional _ "LIMIT" 4 _ isDigits) in PLimit
    as (partLimit & limitDigits & -> & HLimit & Hc4);
    [|reflexivity | apply Parses_digits].
  apply (Parses_optional _ "OFFSET" 5 _ isDigits) in POffset
    as (partOffset & offsetDigits & E & HOffset & Hc5);
    [|reflexivity | apply Parses_digits].
  rewrite append_nil_r in E. rewrite E in *. clear E.
  apply stripFold_keyword in Hfrom as (from & -> & Hfromkw); [|reflexivity].
  apply Runs_blank in Hw1 as (ws1 & -> & Hws1).
  apply Runs_blank in Hw2 as (ws2 & -> & Hws2).
  apply Runs_blank in Hw3 as (ws3 & -> & Hws3).
  apply stripFold_keyword in Hsel as (kw & Etext & Hkw); [|reflexivity].
  rewrite !RegexpFacts.consumed_append in Hc3. cbn [groups Nat.add replicate] in Hc3.
  exists columns, table, whereClause, limitDigits, offsetDigits. split.
  - assert (Regexp.consumed text "" = text) as ->.
    { rewrite <- (append_nil_r text) at 1. apply RegexpFacts.consumed_append. }
    destruct Hc3 as [[-> ->]| ->], Hc4 as [[-> ->]| ->], Hc5 as [[-> ->]| ->];
      reflexivity.
  - exists kw, ws1, ws2, from, ws3, partWhere, partLimit, partOffset.
    split; [exact Etext|]. auto 12.
Qed.

End StatementFacts.

(** ** [parseSQL] *)

Module AtoiFacts.
Import Bytes Strconv.

Lemma digitVal_range (c : ascii) : isDigit c = true -> 0 <= digitVal c < 10.
Proof.
  unfold isDigit, between, digitVal. rewrite andb_true_iff, !N.leb_le. lia.
Qed.

(** On digits, the loop of [ParseUint] ends with a number or leaves the
    range. *)
Lemma parseUintLoop_digits (s : string) :
  forall a : Z,
    all isDigit s = true -> 0 <= a <= maxUint64 ->
    (exists n, parseUintLoop a s = inr n /\ 0 <= n <= maxUint64)
    \/ parseUintLoop a s = inl ErrRange.
Proof.
  induction s as [|c s IH]; intros a Hall Ha.
  - left. exists a. split; [reflexivity | exact Ha].
  - simpl in Hall. apply andb_true_iff in Hall as [Hc Hall]. simpl. rewrite Hc. simpl.
    destruct (maxUint64 / 10 + 1 <=? a); [right; reflexivity|].
    destruct (Z.ltb_spec maxUint64 (a * 10 + digitVal c)) as [Hover|Hin];
      [right; reflexivity|].
    apply IH; [exact Hall|]. pose proof (digitVal_range c Hc). lia.
Qed.

(** [Atoi] on digits gives a number that is not negative, or a range
    error: never a syntax error. *)
Lemma Atoi_digits (ds : string) :
  isDigits ds ->
  (exists n, Atoi ds = Ok n /\ 0 <= n < 2 ^ 63)
  \/ Atoi ds = Err (NumError "Atoi" ds ErrRange).
Proof.
  intros [Hne Hall]. destruct ds as [|c ds]; [contradiction|].
  unfold Atoi, parseInt64.
  assert (isDigit c = true) as Hc by (simpl in Hall; apply andb_true_iff in Hall; tauto).
  unfold splitSign. destruct (DecimalFacts.isDigit_not_sign c Hc) as [-> ->].
  unfold ParseUint.
  destruct (parseUintLoop_digits (String c ds) 0 Hall ltac:(unfold maxUint64; lia))
    as [(n & -> & Hn)| ->]; [|right; reflexivity].
  cbn [negb andb]. destruct (Z.leb_spec (2 ^ 63) n) as [Hbig|Hsmall].
  - right. reflexivity.
  - left. exists n. split; [reflexivity | lia].
Qed.

End AtoiFacts.

Section ParseSQL.
Context `{RT : GoRuntime}.

Lemma setNumber_cases (set : Query -> Z -> Query) (wrap : error -> failure)
    (digits : string) (query : Query) :
  digits = "" \/ isDigits digits ->
  (exists n, SQLParser.setNumber set wrap digits query
             = Success (if digits ==? "" then query else set query n)
             /\ numberOf digits n /\ 0 <= n < 2 ^ 63)
  \/ (isDigits digits
      /\ SQLParser.setNumber set wrap digits query
         = Failure (wrap (NumError "Atoi" digits ErrRange))).
Proof.
  intros [->|Hd].
  - left. exists 0. split; [reflexivity|]. split; [left; auto | lia].
  - unfold SQLParser.setNumber. assert ((digits ==? "") = false) as ->.
    { apply String.eqb_neq. apply Hd. }
    simpl. destruct (AtoiFacts.Atoi_digits digits Hd) as [(n & E & Hn)|E]; rewrite E.
    + left. exists n. split; [reflexivity|]. split; [right; exact E | exact Hn].
    + right. auto.
Qed.

Lemma optionalPart_value (keyword : string) (isValue : string -> Prop)
    (part value : string) :
  optionalPart keyword isValue part value -> value = "" \/ isValue value.
Proof. intros [[_ ->]|(ws1 & kw & ws2 & _ & _ & _ & _ & H)]; auto. Qed.

(** [parseSQL], case by case. *)
Lemma parseSQL_cases (sql : string) :
  SQLParser.parseSQL sql = Failure (Engine ErrInvalidSQL)
  \/ exists columns table whereClause limitDigits offsetDigits,
       selectShape (SQLParser.normalize sql) columns table whereClause limitDigits offsetDigits
       /\ ((exists condition,
              whereClause <> ""
              /\ snd (parseWhere (From table) whereClause)
                 = Some (ErrInvalidWhere condition)
              /\ SQLParser.parseSQL sql = Failure (Engine (ErrParseWhere (ErrInvalidWhere condition))))
           \/ exists clauses,
                clausesOf table whereClause clauses
                /\ ((isDigits limitDigits
                     /\ SQLParser.parseSQL sql
                        = Failure (ErrInvalidLimit (NumError "Atoi" limitDigits ErrRange)))
                    \/ exists n,
                         numberOf limitDigits n /\ 0 <= n < 2 ^ 63
                         /\ ((isDigits offsetDigits
                              /\ SQLParser.parseSQL sql
                                 = Failure (ErrInvalidOffset
                                              (NumError "Atoi" offsetDigits ErrRange)))
                             \/ exists m,
                                  numberOf offsetDigits m /\ 0 <= m < 2 ^ 63
                                  /\ SQLParser.parseSQL sql
                                     = Success {| sheetName := table; where_ := clauses;
                                                  limit := n; offset := m |}))).
Proof.
  unfold SQLParser.parseSQL.
  destruct (StatementFacts.selectRegex_submatches (SQLParser.normalize sql))
    as [->|(columns & table & whereClause & limitDigits & offsetDigits & -> & Hshape)];
    [left; reflexivity|].
  right. exists columns, table, whereClause, limitDigits, offsetDigits.
  split; [exact Hshape|].
  destruct Hshape as (kw & ws1 & ws2 & from & ws3 & pW & pL & pO & _ & _ & _ & _ & _ & _
                      & _ & _ & HW & HL & HO).
  apply optionalPart_value in HL, HO. simpl length. simpl Nat.eqb. cbv iota.
  simpl nth.
  assert (exists clauses,
            (if negb (whereClause ==? "") then parseWhere (From table) whereClause
             else (From table, None))
            = ({| sheetName := table; where_ := clauses; limit := 0; offset := 0 |},
               snd (if negb (whereClause ==? "") then parseWhere (From table) whereClause
                    else (From table, None)))
            /\ (snd (if negb (whereClause ==? "") then parseWhere (From table) whereClause
                     else (From table, None)) = None ->
                clausesOf table whereClause clauses)) as (clauses & Eq & Hclauses).
  { destruct (String.eqb_spec whereClause "") as [->|Hne]; simpl negb; cbv iota.
    - exists nil. split; [reflexivity|]. intros _. left. auto.
    - destruct (parseWhere_appends RT (From table) whereClause) as (added & E & _).
      exists added. simpl in E. split.
      + rewrite <- E. destruct (parseWhere (From table) whereClause). reflexivity.
      + intros Hnone. right. split; [exact Hnone|]. rewrite E. reflexivity. }
  rewrite Eq.
  destruct (snd (if negb (whereClause ==? "") then parseWhere (From table) whereClause
                 else (From table, None))) as [err|] eqn:Herr.
  - left. destruct (String.eqb_spec whereClause "") as [->|Hne]; [discriminate|].
    simpl in Herr.
    destruct (proj2 (parseConditions_spec (From table)
                       (Regexp.Split Patterns.andRegex whereClause)) err Herr)
      as (before & c & after & _ & _ & _ & ->).
    exists (GoStrings.TrimSpace c). repeat split; auto.
  - right. exists clauses. split; [apply Hclauses; reflexivity|].
    destruct (setNumber_cases Limit ErrInvalidLimit limitDigits
                {| sheetName := table; where_ := clauses; limit := 0; offset := 0 |} HL)
      as [(n & -> & Hn & Hrange)|[Hd ->]]; [|left; auto].
    right. exists n. split; [exact Hn|]. split; [exact Hrange|].
    destruct (setNumber_cases Offset ErrInvalidOffset offsetDigits
                (if limitDigits ==? ""
                 then {| sheetName := table; where_ := clauses; limit := 0; offset := 0 |}
                 else Limit {| sheetName := table; where_ := clauses; limit := 0;
                               offset := 0 |} n) HO)
      as [(m & -> & Hm & Hmrange)|[Hd ->]]; [|left; auto].
    right. exists m. split; [exact Hm|]. split; [exact Hmrange|]. f_equal.
    assert (forall ds k, Strconv.Atoi ds = Ok k -> (ds ==? "") = false) as Hnonempty.
    { intros ds k H. destruct ds; [discriminate | reflexivity]. }
    destruct Hn as [[-> ->]|Hn], Hm as [[-> ->]|Hm];
      rewrite ?(Hnonempty _ _ Hn), ?(Hnonempty _ _ Hm); reflexivity.
Qed.

End ParseSQL.

(** X15. A statement that [parseSQL] accepts is a SELECT statement:
    trimmed and with every run of white space a single blank, it is the
    word SELECT (in letters of either case), columns, FROM and the name
    of a sheet, then, each optional and in this order, WHERE with a
    clause, LIMIT with digits and OFFSET with digits, and nothing else.
    The query is on that sheet, with the clauses that [parseWhere]
    reads from the WHERE clause (none without it), and with the numbers
    that the digits spell as limit and offset (0 without them), neither
    of them negative. *)
Theorem parseSQL_reads_a_select (RT : GoRuntime) (sql : string) (q : Query) :
  SQLParser.parseSQL sql = Success q ->
  exists columns whereClause limitDigits offsetDigits,
    selectShape (SQLParser.normalize sql) columns (sheetName q) whereClause
      limitDigits offsetDigits
    /\ clausesOf (sheetName q) whereClause (where_ q)
    /\ numberOf limitDigits (limit q) /\ 0 <= limit q < 2 ^ 63
    /\ numberOf offsetDigits (offset q) /\ 0 <= offset q < 2 ^ 63.
Proof.
  intros H.
  destruct (parseSQL_cases sql) as [E|(columns & table & whereClause & limitDigits
                                       & offsetDigits & Hshape & Hcases)];
    [congruence|].
  destruct Hcases as [(condition & _ & _ & E)|(clauses & Hclauses & Hcases)];
    [congruence|].
  destruct Hcases as [[_ E]|(n & Hn & Hnrange & Hcases)]; [congruence|].
  destruct Hcases as [[_ E]|(m & Hm & Hmrange & E)]; [congruence|].
  rewrite E in H. injection H as <-. simpl.
  exists columns, whereClause, limitDigits, offsetDigits. auto 8.
Qed.

(** A statement on two lines, in lower case. *)
Lemma parseSQL_reads_a_select_witness :
  SQLParser.parseSQL (RT := RefRuntime)
    (String.concat (String (ascii_of_N 10) "")
       ("  select Name, Age from Users" :: "  where Age >= 18 limit 10  " :: nil))
  = Success (Limit (Where (From "Users") "Age" ">=" (IntV Int 18)) 10)
  /\ exists columns whereClause limitDigits offsetDigits,
       selectShape
         (SQLParser.normalize
            (String.concat (String (ascii_of_N 10) "")
               ("  select Name, Age from Users" :: "  where Age >= 18 limit 10  " :: nil)))
         columns
         (sheetName (Limit (Where (From "Users") "Age" ">=" (IntV Int 18)) 10))
         whereClause limitDigits offsetDigits
       /\ clausesOf (RT := RefRuntime)
            (sheetName (Limit (Where (From "Users") "Age" ">=" (IntV Int 18)) 10))
            whereClause
            (where_ (Limit (Where (From "Users") "Age" ">=" (IntV Int 18)) 10))
       /\ numberOf limitDigits
            (limit (Limit (Where (From "Users") "Age" ">=" (IntV Int 18)) 10))
       /\ 0 <= limit (Limit (Where (From "Users") "Age" ">=" (IntV Int 18)) 10) < 2 ^ 63
       /\ numberOf offsetDigits
            (offset (Limit (Where (From "Users") "Age" ">=" (IntV Int 18)) 10))
       /\ 0 <= offset (Limit (Where (From "Users") "Age" ">=" (IntV Int 18)) 10) < 2 ^ 63.
Proof.
  assert (SQLParser.parseSQL (RT := RefRuntime)
            (String.concat (String (ascii_of_N 10) "")
               ("  select Name, Age from Users" :: "  where Age >= 18 limit 10  " :: nil))
          = Success (Limit (Where (From "Users") "Age" ">=" (IntV Int 18)) 10)) as H
    by (vm_compute; reflexivity).
  split; [exact H|].
  exact (parseSQL_reads_a_select RefRuntime _ _ H).
Defined.

(** X16. [parseSQL] fails in four ways only: on a statement that is no
    SELECT statement, with "invalid SQL syntax"; on a condition of the
    WHERE clause that [parseWhere] rejects, with its error; and on the
    digits of a LIMIT or of an OFFSET that spell a number of 2^63 or
    more, with the range error of [Atoi].  A limit or an offset that is
    not written in digits is no error of its own: the statement is no
    SELECT statement.  [Query] then returns the error, wrapped, without
    a call to the sheet. *)
Theorem parseSQL_errors (RT : GoRuntime) (W : Type) (service : Service W) (sql : string)
    (e : failure) (dest : Dest) (w : W) :
  SQLParser.parseSQL sql = Failure e ->
  (e = Engine ErrInvalidSQL
   \/ (exists condition, e = Engine (ErrParseWhere (ErrInvalidWhere condition)))
   \/ (exists digits,
         isDigits digits /\ e = ErrInvalidLimit (NumError "Atoi" digits ErrRange))
   \/ (exists digits,
         isDigits digits /\ e = ErrInvalidOffset (NumError "Atoi" digits ErrRange)))
  /\ SQLParser.Query service sql dest w = ((dest, Some (ErrParseSQL e)), w).
Proof.
  intros H. split; [|unfold SQLParser.Query; rewrite H; reflexivity].
  destruct (parseSQL_cases sql) as [E|(columns & table & whereClause & limitDigits
                                       & offsetDigits & Hshape & Hcases)].
  { left. congruence. }
  destruct Hcases as [(condition & _ & _ & E)|(clauses & Hclauses & Hcases)].
  { right. left. exists condition. congruence. }
  destruct Hcases as [[Hd E]|(n & Hn & Hnrange & Hcases)].
  { right. right. left. exists limitDigits. split; [exact Hd | congruence]. }
  destruct Hcases as [[Hd E]|(m & Hm & Hmrange & E)]; [|congruence].
  right. right. right. exists offsetDigits. split; [exact Hd | congruence].
Qed.

(** A limit of twenty digits. *)
Lemma parseSQL_errors_witness :
  SQLParser.parseSQL (RT := RefRuntime) "SELECT * FROM Users LIMIT 99999999999999999999"
  = Failure (ErrInvalidLimit (NumError "Atoi" "99999999999999999999" ErrRange))
  /\ SQLParser.parseSQL (RT := RefRuntime) "SELECT * FROM Users LIMIT ten"
     = Failure (Engine ErrInvalidSQL)
  /\ SQLParser.Query (RT := RefRuntime) peopleService
       "SELECT * FROM Users LIMIT 99999999999999999999" (SlicePtr person nil) nil
     = ((SlicePtr person nil,
         Some (ErrParseSQL (ErrInvalidLimit
                              (NumError "Atoi" "99999999999999999999" ErrRange)))), nil).
Proof.
  assert (SQLParser.parseSQL (RT := RefRuntime)
            "SELECT * FROM Users LIMIT 99999999999999999999"
          = Failure (ErrInvalidLimit (NumError "Atoi" "99999999999999999999" ErrRange)))
    as H by (vm_compute; reflexivity).
  split; [exact H|]. split; [vm_compute; reflexivity|].
  exact (proj2 (parseSQL_errors RefRuntime _ peopleService _ _ (SlicePtr person nil) nil H)).
Defined.

(** ** White space in a statement *)

Module SpaceFacts.
Import Bytes Backtrack BacktrackFacts Utf8Facts.

Lemma step_byte (c : class) (ch : ascii) (rest : string) :
  (code ch < 128)%N ->
  step c (String ch rest) = if c (code ch) then Some rest else None.
Proof.
  intros H. unfold step, Utf8.DecodeRuneInString. apply N.ltb_lt in H. rewrite H.
  simpl. destruct (c (code ch)); [destruct rest|]; reflexivity.
Qed.

Lemma isSpace_ascii (ch : ascii) : isSpace ch = true -> (code ch < 128)%N.
Proof. apply space_ascii. Qed.

Lemma step_space_iff (ch : ascii) (rest : string) :
  step space (String ch rest) = if isSpace ch then Some rest else None.
Proof.
  destruct (isSpace ch) eqn:E.
  - rewrite step_byte by (apply isSpace_ascii; exact E).
    change (space (code ch)) with (isSpace ch). rewrite E. reflexivity.
  - destruct (step space (String ch rest)) as [r|] eqn:H; [|reflexivity].
    apply step_space in H as (ch' & [= <- <-] & H). congruence.
Qed.

(** [\s+] takes the whole of a run of white space when what follows it
    accepts whatever is left. *)
Lemma plusLoop_space_greedy {R : Type} (k : string -> option R) :
  (forall rest, k rest <> None) ->
  forall (s : string) (fuel : nat),
    (String.length s <= S fuel)%nat ->
    plusLoop fuel space s k
    = match s with
      | String ch rest => if isSpace ch then k (dropWhile isSpace rest) else None
      | EmptyString => None
      end.
Proof.
  intros Hk. induction s as [|ch rest IH]; intros fuel Hfuel.
  - destruct fuel; reflexivity.
  - destruct fuel as [|fuel]; simpl plusLoop; rewrite step_space_iff;
      destruct (isSpace ch) eqn:E; try reflexivity.
    + simpl in Hfuel. destruct rest; [reflexivity | simpl in Hfuel; lia].
    + rewrite IH by (simpl in Hfuel; lia).
      destruct rest as [|ch' rest']; [reflexivity|]. simpl dropWhile.
      destruct (isSpace ch'); [|reflexivity].
      destruct (k (dropWhile isSpace rest')) eqn:Ek; [reflexivity|].
      destruct (Hk _ Ek).
Qed.

Lemma matchAt_spaces (text s : string) :
  matchAt text Statement.spaces s
  = match s with
    | String ch rest =>
      if isSpace ch
      then Some (Regexp.consumed s (dropWhile isSpace rest) :: nil, dropWhile isSpace rest)
      else None
    | EmptyString => None
    end.
Proof.
  unfold matchAt, Statement.spaces. simpl.
  rewrite plusLoop_space_greedy by (try discriminate; lia).
  destruct s as [|ch rest]; [reflexivity|]. destruct (isSpace ch); reflexivity.
Qed.

Lemma squeeze_true (s : string) : squeeze true s = squeeze false (dropWhile isSpace s).
Proof.
  induction s as [|c s IH]; simpl; [reflexivity|].
  destruct (isSpace c) eqn:E; [exact IH|]. simpl. rewrite E. reflexivity.
Qed.

Lemma length_dropWhile (p : ascii -> bool) (s : string) :
  (String.length (dropWhile p s) <= String.length s)%nat.
Proof.
  induction s as [|c s IH]; simpl; [lia|]. destruct (p c); simpl; lia.
Qed.

Lemma take_S (n : nat) (c : ascii) (s : string) : take (S n) (String c s) = String c (take n s).
Proof. reflexivity. Qed.

Lemma consumed_drop (n : nat) (s : string) :
  (n <= String.length s)%nat -> Regexp.consumed s (drop n s) = take n s.
Proof.
  intros Hn. unfold Regexp.consumed. f_equal.
  revert s Hn. induction n as [|n IH]; intros s Hn; simpl; [lia|].
  destruct s as [|c s]; simpl in *; [lia|]. specialize (IH s ltac:(lia)).
  pose proof (length_drop_le n s). lia.
Qed.

Lemma take_drop (n : nat) (s : string) : take n s ++ drop n s = s.
Proof.
  revert s. induction n as [|n IH]; intros s.
  - unfold take. simpl. destruct s; reflexivity.
  - destruct s as [|c s]; [reflexivity|]. rewrite take_S. simpl. rewrite IH. reflexivity.
Qed.

(** The bytes of a rune that is no white space are no white space. *)
Lemma squeeze_rune (s : string) :
  match s with
  | String ch _ => isSpace ch = false
  | EmptyString => False
  end ->
  let n := Nat.max 1 (snd (Utf8.DecodeRuneInString s)) in
  (n <= String.length s)%nat
  /\ squeeze false s = take n s ++ squeeze false (drop n s).
Proof.
  intros Hs n. subst n. pose proof (DecodeRuneInString_decoded s) as Hd.
  destruct (Utf8.DecodeRuneInString s) as [r w]. simpl in Hd. simpl snd.
  assert (forall c, (128 <= code c)%N -> isSpace c = false) as Hhigh.
  { intros c Hc. destruct (isSpace c) eqn:E; [|reflexivity].
    apply isSpace_ascii in E. lia. }
  inversion Hd as [-> _|ch rest' -> Hlt _|ch rest' -> Hge _|b0 b1 rest' -> H0 H1 _
                   |b0 b1 b2 rest' -> H0 H1 H2 _ _|b0 b1 b2 b3 rest' -> H0 H1 H2 H3 _ _];
    subst; try contradiction.
  - split; [simpl; lia|]. simpl. rewrite Hs. destruct rest'; reflexivity.
  - split; [simpl; lia|]. simpl. rewrite Hs. destruct rest'; reflexivity.
  - split; [simpl; lia|]. simpl. rewrite Hs, (Hhigh b1) by lia. destruct rest'; reflexivity.
  - split; [simpl; lia|]. simpl. rewrite Hs, (Hhigh b1), (Hhigh b2) by lia.
    destruct rest'; reflexivity.
  - split; [simpl; lia|]. simpl. rewrite Hs, (Hhigh b1), (Hhigh b2), (Hhigh b3) by lia.
    destruct rest'; reflexivity.
Qed.

(** [ReplaceAllString] on [\s+] and a blank: every run of white space
    becomes one blank, every other byte is copied. *)
Lemma replaceLoop_squeeze (text : string) (fuel : nat) :
  forall s, (String.length s < fuel)%nat ->
            replaceLoop text Statement.spaces " " fuel s = squeeze false s.
Proof.
  induction fuel as [|fuel IH]; intros s Hfuel; [lia|].
  simpl replaceLoop. rewrite matchAt_spaces.
  destruct s as [|ch rest]; [reflexivity|].
  destruct (isSpace ch) eqn:E.
  - simpl. rewrite E, squeeze_true. rewrite IH; [reflexivity|].
    pose proof (length_dropWhile isSpace rest). simpl in Hfuel. lia.
  - destruct (squeeze_rune (String ch rest) E) as [Hn Hsq].
    unfold next. rewrite Hsq, consumed_drop by exact Hn. f_equal.
    apply IH.
    pose proof (length_drop_le
      (Nat.max 1 (snd (Utf8.DecodeRuneInString (String ch rest)))) (String ch rest)).
    lia.
Qed.

Lemma ReplaceAllString_squeeze (s : string) :
  ReplaceAllString Statement.spaces s " " = squeeze false s.
Proof. apply replaceLoop_squeeze. lia. Qed.

(** Runs of white space are interchangeable. *)
Lemma squeeze_blank (ws rest : string) (inRun : bool) :
  isBlank ws ->
  squeeze inRun (ws ++ rest) = (if inRun then "" else " ") ++ squeeze true rest.
Proof.
  intros [Hne Hall]. revert inRun. induction ws as [|c ws IH]; intros inRun;
    [contradiction|].
  simpl in Hall. apply andb_true_iff in Hall as [Hc Hall]. simpl. rewrite Hc.
  destruct ws as [|c' ws'].
  - simpl. destruct inRun; reflexivity.
  - rewrite (IH ltac:(discriminate) Hall true). destruct inRun; reflexivity.
Qed.

Lemma squeeze_interchange (a ws ws' b : string) (inRun : bool) :
  isBlank ws -> isBlank ws' ->
  squeeze inRun (a ++ ws ++ b) = squeeze inRun (a ++ ws' ++ b).
Proof.
  intros Hws Hws'. revert inRun. induction a as [|c a IH]; intros inRun.
  - simpl. rewrite !squeeze_blank by assumption. reflexivity.
  - simpl. destruct (isSpace c), inRun; rewrite IH; reflexivity.
Qed.

(** [TrimSpace] leaves a string that starts and ends with ink. *)
Lemma isInk_spec (c : ascii) :
  isInk c = true -> (code c < 128)%N /\ GoStrings.asciiSpace c = false.
Proof.
  unfold isInk. rewrite andb_true_iff, negb_true_iff, N.ltb_lt. tauto.
Qed.

Lemma trimLeftSpace_ink (c : ascii) (s : string) :
  isInk c = true -> GoStrings.trimLeftSpace (String c s) = String c s.
Proof.
  intros H. apply isInk_spec in H as [Hc Hs]. simpl. rewrite Hs.
  assert (forall c2, GoStrings.space2 c c2 = false) as H2.
  { intros c2. unfold GoStrings.space2. apply andb_false_iff. left. apply N.eqb_neq. lia. }
  assert (forall c2 c3, GoStrings.space3 c c2 c3 = false) as H3.
  { intros c2 c3. unfold GoStrings.space3.
    repeat match goal with
           | |- (_ || _) = false => apply orb_false_iff; split
           | |- (_ && _) = false => apply andb_false_iff; left
           end; apply N.eqb_neq; lia. }
  destruct s as [|c2 s]; [reflexivity|]. rewrite H2.
  destruct s as [|c3 s]; [reflexivity|]. rewrite H3. reflexivity.
Qed.

Lemma trimLeftSpaceRev_ink (c : ascii) (s : string) :
  isInk c = true -> GoStrings.trimLeftSpaceRev (String c s) = String c s.
Proof.
  intros H. apply isInk_spec in H as [Hc Hs]. simpl. rewrite Hs.
  assert (forall c2, GoStrings.space2 c2 c = false) as H2.
  { intros c2. unfold GoStrings.space2. apply andb_false_iff. right.
    apply orb_false_iff. split; apply N.eqb_neq; lia. }
  assert (forall c2 c3, GoStrings.space3 c3 c2 c = false) as H3.
  { intros c2 c3. unfold GoStrings.space3, between.
    repeat match goal with
           | |- (_ || _) = false => apply orb_false_iff; split
           end;
      repeat match goal with
             | |- (_ && _) = false => apply andb_false_iff; right
             end;
      try (apply N.eqb_neq; lia);
      try (apply orb_false_iff; split);
      try (apply orb_false_iff; split);
      try (apply N.eqb_neq; lia);
      apply andb_false_iff; left; apply N.leb_gt; lia. }
  destruct s as [|c2 s]; [reflexivity|]. rewrite H2.
  destruct s as [|c3 s]; [reflexivity|]. rewrite H3. reflexivity.
Qed.

Lemma TrimSpace_ink (c d : ascii) (s : string) :
  isInk c = true -> isInk d = true ->
  GoStrings.TrimSpace (String c (s ++ String d "")) = String c (s ++ String d "").
Proof.
  intros Hc Hd. unfold GoStrings.TrimSpace. rewrite trimLeftSpace_ink by exact Hc.
  assert (rev (String c (s ++ String d "")) = String d (rev (String c s))) as E.
  { change (String c (s ++ String d "")) with (String c s ++ String d "").
    rewrite TrimFacts.rev_append. reflexivity. }
  rewrite E, trimLeftSpaceRev_ink by exact Hd. rewrite <- E.
  apply TrimFacts.rev_involutive.
Qed.

End SpaceFacts.

(** X17. White space inside a statement is read as one blank: in a
    statement that starts and ends with a byte of ASCII that is no
    white space, a run of blanks, tabs and line breaks can be changed
    for any other and [parseSQL] returns the same. *)
Theorem parseSQL_white_space (RT : GoRuntime) (c d : ascii) (a ws ws' b : string) :
  isInk c = true -> isInk d = true -> isBlank ws -> isBlank ws' ->
  SQLParser.parseSQL (String c (a ++ ws ++ b ++ String d ""))
  = SQLParser.parseSQL (String c (a ++ ws' ++ b ++ String d "")).
Proof.
  intros Hc Hd Hws Hws'.
  assert (forall w, isBlank w ->
            SQLParser.normalize (String c (a ++ w ++ b ++ String d ""))
            = String c (squeeze false (a ++ w ++ b ++ String d ""))) as Hnorm.
  { intros w Hw. unfold SQLParser.normalize.
    replace (String c (a ++ w ++ b ++ String d ""))
      with (String c ((a ++ w ++ b) ++ String d ""))
      by (rewrite !append_assoc; reflexivity).
    rewrite SpaceFacts.TrimSpace_ink by assumption.
    rewrite SpaceFacts.ReplaceAllString_squeeze. simpl.
    destruct (SpaceFacts.isInk_spec c Hc) as [_ Hs].
    assert (Bytes.isSpace c = false) as ->.
    { destruct (Bytes.isSpace c) eqn:E; [|reflexivity].
      unfold GoStrings.asciiSpace, Bytes.between in Hs. unfold Bytes.isSpace in E.
      apply orb_false_iff in Hs as [Hs1 Hs2]. apply andb_false_iff in Hs1.
      rewrite !orb_true_iff, !N.eqb_eq in E. rewrite N.eqb_neq in Hs2.
      rewrite !N.leb_gt in Hs1. lia. }
    rewrite !append_assoc. reflexivity. }
  unfold SQLParser.parseSQL. rewrite (Hnorm ws Hws), (Hnorm ws' Hws').
  rewrite (SpaceFacts.squeeze_interchange a ws ws' (b ++ String d "") false Hws Hws').
  reflexivity.
Qed.

(** A statement on two lines reads as the statement on one line. *)
Lemma parseSQL_white_space_witness :
  isInk "S" = true /\ isInk "s" = true
  /\ isBlank (String (ascii_of_N 10) (String (ascii_of_N 9) "")) /\ isBlank " "
  /\ SQLParser.parseSQL (RT := RefRuntime)
       (String "S" ("ELECT *" ++ String (ascii_of_N 10) (String (ascii_of_N 9) "")
                    ++ "FROM User" ++ String "s" ""))
     = SQLParser.parseSQL (RT := RefRuntime)
         (String "S" ("ELECT *" ++ " " ++ "FROM User" ++ String "s" "")).
Proof.
  assert (isBlank (String (ascii_of_N 10) (String (ascii_of_N 9) ""))) as H1
    by (split; [discriminate | reflexivity]).
  assert (isBlank " ") as H2 by (split; [discriminate | reflexivity]).
  split; [reflexivity|]. split; [reflexivity|]. split; [exact H1|]. split; [exact H2|].
  exact (parseSQL_white_space RefRuntime "S" "s" "ELECT *" _ " " "FROM User"
           eq_refl eq_refl H1 H2).
Defined.

(** ** The statements of the documentation *)

Module CanonicalFacts.
Import Bytes Backtrack BacktrackFacts SpaceFacts.

Section Loops.
Context {R : Type}.

Lemma step_empty (c : class) : step c "" = None.
Proof. reflexivity. Qed.

Lemma plusLoop_stuck (c : class) (s : string) (fuel : nat) (k : string -> option R) :
  step c s = None -> plusLoop fuel c s k = None.
Proof. intros H. destruct fuel; simpl; rewrite H; reflexivity. Qed.

Lemma plusLoop_one (c : class) (s r : string) (fuel : nat) (k : string -> option R) :
  step c s = Some r -> step c r = None -> plusLoop fuel c s k = k r.
Proof.
  intros H1 H2. destruct fuel; simpl; rewrite H1; [reflexivity|].
  rewrite plusLoop_stuck by exact H2. reflexivity.
Qed.

Lemma lazyLoop_first (c : class) (s r : string) (fuel : nat) (k : string -> option R)
    (x : R) :
  step c s = Some r -> k r = Some x -> lazyLoop fuel c s k = Some x.
Proof. intros H1 H2. destruct fuel; simpl; rewrite H1, H2; reflexivity. Qed.

Lemma plusLoop_S (c : class) (s : string) (fuel : nat) (k : string -> option R) :
  plusLoop (S fuel) c s k
  = match step c s with
    | None => None
    | Some rest =>
      match plusLoop fuel c rest k with
      | Some x => Some x
      | None => k rest
      end
    end.
Proof. reflexivity. Qed.

(** A greedy repetition takes the whole of a run of bytes of its class
    when what follows accepts the rest. *)
Lemma plusLoop_run (c : class) (p : ascii -> bool) :
  (forall ch, p ch = true -> (code ch < 128)%N /\ c (code ch) = true) ->
  forall (t r : string) (fuel : nat) (k : string -> option R) (x : R),
    t <> "" -> all p t = true -> step c r = None ->
    (String.length t <= S fuel)%nat -> k r = Some x ->
    plusLoop fuel c (t ++ r) k = Some x.
Proof.
  intros Hp. induction t as [|ch t IH]; intros r fuel k x Hne Hall Hr Hfuel Hk;
    [contradiction|].
  simpl in Hall. apply andb_true_iff in Hall as [Hch Hall].
  destruct (Hp ch Hch) as [Hascii Hc].
  assert (step c (String ch (t ++ r)) = Some (t ++ r)) as Hstep
    by (rewrite step_byte by exact Hascii; rewrite Hc; reflexivity).
  destruct t as [|ch' t'].
  - simpl append. rewrite (plusLoop_one c _ r) by assumption. exact Hk.
  - destruct fuel as [|fuel]; [simpl in Hfuel; lia|].
    change (String ch (String ch' t') ++ r) with (String ch (String ch' t' ++ r)).
    rewrite plusLoop_S, Hstep.
    rewrite (IH r fuel k x); [reflexivity | discriminate | exact Hall | exact Hr | | exact Hk].
    simpl in *. lia.
Qed.

End Loops.

Lemma isWord_class (ch : ascii) :
  isWord ch = true -> (code ch < 128)%N /\ wordFold (code ch) = true.
Proof.
  unfold isWord, wordFold, digit, isDigit, isUpper, isLower, between.
  rewrite !orb_true_iff, !andb_true_iff, !N.leb_le, !N.eqb_eq. lia.
Qed.

Lemma isDigit_class (ch : ascii) :
  isDigit ch = true -> (code ch < 128)%N /\ digit (code ch) = true.
Proof.
  unfold digit, isDigit, between. rewrite !andb_true_iff, !N.leb_le. lia.
Qed.

Lemma squeeze_solid (p : ascii -> bool) :
  (forall ch, p ch = true -> isSpace ch = false) ->
  forall (t rest : string) (inRun : bool),
    t <> "" -> all p t = true -> squeeze inRun (t ++ rest) = t ++ squeeze false rest.
Proof.
  intros Hp. induction t as [|ch t IH]; intros rest inRun Hne Hall; [contradiction|].
  simpl in Hall. apply andb_true_iff in Hall as [Hch Hall].
  simpl. rewrite (Hp ch Hch). f_equal.
  destruct t as [|ch' t']; [reflexivity|]. apply IH; [discriminate | exact Hall].
Qed.

Lemma isWord_solid (ch : ascii) : isWord ch = true -> isSpace ch = false.
Proof.
  intros H. apply isWord_class in H as [_ H]. destruct (isSpace ch) eqn:E; [|reflexivity].
  exfalso. revert H E. unfold wordFold, digit, isSpace.
  rewrite !orb_true_iff, !andb_true_iff, !N.leb_le, !N.eqb_eq.
  pose proof (N_ascii_bounded ch). unfold code. lia.
Qed.

Lemma isDigit_solid (ch : ascii) : isDigit ch = true -> isSpace ch = false.
Proof.
  intros H. destruct (isSpace ch) eqn:E; [|reflexivity].
  exfalso. revert H E. unfold isDigit, between, isSpace.
  rewrite !orb_true_iff, !andb_true_iff, !N.leb_le, !N.eqb_eq. lia.
Qed.

Lemma last_byte (p : ascii -> bool) (s : string) :
  s <> "" -> all p s = true -> exists init d, s = init ++ String d "" /\ p d = true.
Proof.
  induction s as [|c s IH]; intros Hne Hall; [contradiction|].
  simpl in Hall. apply andb_true_iff in Hall as [Hc Hall].
  destruct s as [|c' s'].
  - exists "", c. auto.
  - destruct (IH ltac:(discriminate) Hall) as (init & d & -> & Hd).
    exists (String c init), d. auto.
Qed.

(** The digits of a number that is not negative. *)
Lemma digitsOf_digits (fuel : nat) :
  forall (n : Z) (acc : string),
    0 <= n -> all isDigit acc = true ->
    all isDigit (Strconv.digitsOf fuel n acc) = true.
Proof.
  induction fuel as [|fuel IH]; intros n acc Hn Hacc; [exact Hacc|].
  simpl. pose proof (Z.mod_pos_bound n 10 ltac:(lia)).
  assert (all isDigit (String (ascii_of_N (Z.to_N (48 + n mod 10))) acc) = true) as H'.
  { simpl. rewrite DecimalFacts.isDigit_digit by lia. exact Hacc. }
  destruct (n <? 10); [exact H'|]. apply IH; [apply Z.div_pos; lia | exact H'].
Qed.

Lemma FormatInt_digits (n : Z) : 0 <= n -> isDigits (Strconv.FormatInt n).
Proof.
  intros Hn. split; [apply DecimalFacts.FormatInt_nonempty|].
  unfold Strconv.FormatInt. assert ((n <? 0) = false) as -> by (apply Z.ltb_ge; lia).
  apply digitsOf_digits; [exact Hn | reflexivity].
Qed.

End CanonicalFacts.

Module FirstFacts.
Import Bytes Backtrack BacktrackFacts SpaceFacts CanonicalFacts.

Section Outcomes.
Variable text : string.

Lemma Only_First (r : re) (s rest : string) (c0 c1 : list string) :
  Only text r s c0 rest c1 -> First text r s c0 rest c1.
Proof. intros H R k x Hk. rewrite H. exact Hk. Qed.

Lemma First_Seq (r1 r2 : re) (s mid rest : string) (c0 c1 c2 : list string) :
  First text r1 s c0 mid c1 -> First text r2 mid c1 rest c2 ->
  First text (Seq r1 r2) s c0 rest c2.
Proof. intros H1 H2 R k x Hk. simpl. apply H1. apply H2. exact Hk. Qed.

Lemma Stuck_Seq (r1 r2 : re) (s : string) (c0 : list string) :
  Stuck text r1 s c0 -> Stuck text (Seq r1 r2) s c0.
Proof. intros H R k. simpl. apply H. Qed.

Lemma Stuck_after (r1 r2 : re) (s mid : string) (c0 c1 : list string) :
  Only text r1 s c0 mid c1 -> Stuck text r2 mid c1 -> Stuck text (Seq r1 r2) s c0.
Proof. intros H1 H2 R k. simpl. rewrite H1. apply H2. Qed.

Lemma First_Group (i : nat) (r : re) (s rest : string) (c0 c1 : list string) :
  First text r s c0 rest c1 ->
  First text (Group i r) s c0 rest (<[i := Regexp.consumed s rest]> c1).
Proof. intros H R k x Hk. simpl. apply H. exact Hk. Qed.

Lemma First_Opt (r : re) (s rest : string) (c0 c1 : list string) :
  First text r s c0 rest c1 -> First text (Opt r) s c0 rest c1.
Proof. intros H R k x Hk. simpl. rewrite (H R k x Hk). reflexivity. Qed.

Lemma First_skip (r : re) (s : string) (c0 : list string) :
  Stuck text r s c0 -> First text (Opt r) s c0 s c0.
Proof. intros H R k x Hk. simpl. rewrite H. exact Hk. Qed.

Lemma First_Fold (lit s rest : string) (c0 : list string) :
  stripFold lit s = Some rest -> First text (Fold lit) s c0 rest c0.
Proof. intros H R k x Hk. simpl. rewrite H. exact Hk. Qed.

Lemma Stuck_Fold (lit s : string) (c0 : list string) :
  stripFold lit s = None -> Stuck text (Fold lit) s c0.
Proof. intros H R k. simpl. rewrite H. reflexivity. Qed.

Lemma Stuck_Plus (c : class) (s : string) (c0 : list string) :
  step c s = None -> Stuck text (Plus c) s c0.
Proof. intros H R k. simpl. apply plusLoop_stuck. exact H. Qed.

Lemma Only_Plus (c : class) (s rest : string) (c0 : list string) :
  step c s = Some rest -> step c rest = None -> Only text (Plus c) s c0 rest c0.
Proof.
  intros H1 H2 R k. simpl.
  apply (plusLoop_one c s rest _ (fun rest0 => k rest0 c0)); assumption.
Qed.

Lemma First_Lazy (c : class) (s rest : string) (c0 : list string) :
  step c s = Some rest -> First text (LazyPlus c) s c0 rest c0.
Proof.
  intros H R k x Hk. simpl.
  apply (lazyLoop_first c s rest _ (fun rest0 => k rest0 c0) x); assumption.
Qed.

Lemma First_run (c : class) (p : ascii -> bool) (t rest : string) (c0 : list string) :
  (forall ch, p ch = true -> (code ch < 128)%N /\ c (code ch) = true) ->
  t <> "" -> all p t = true -> step c rest = None ->
  First text (Plus c) (t ++ rest) c0 rest c0.
Proof.
  intros Hp Hne Hall Hrest R k x Hk. simpl.
  apply (plusLoop_run c p Hp t rest _ (fun rest0 => k rest0 c0) x); try assumption.
  rewrite length_append. lia.
Qed.

Lemma First_Begin (c0 : list string) : First text BeginText text c0 text c0.
Proof. intros R k x Hk. simpl. rewrite Nat.eqb_refl. exact Hk. Qed.

Lemma First_End (c0 : list string) : First text EndText "" c0 "" c0.
Proof. intros R k x Hk. exact Hk. Qed.

(** An optional part of a statement whose keyword is not the one that
    follows the white space. *)
Lemma Stuck_keyword (keyword : string) (r : re) (c : ascii) (rest : string)
    (c0 : list string) :
  isSpace c = false ->
  stripFold keyword (String c rest) = None ->
  Stuck text (Seq (Plus space) (Seq (Fold keyword) r)) (String " " (String c rest)) c0.
Proof.
  intros Hc Hk. apply (Stuck_after _ _ _ (String c rest) c0 c0).
  - apply Only_Plus; [reflexivity|]. rewrite step_space_iff, Hc. reflexivity.
  - apply Stuck_Seq, Stuck_Fold. exact Hk.
Qed.

Lemma Stuck_end (r : re) (c0 : list string) : Stuck text (Seq (Plus space) r) "" c0.
Proof. apply Stuck_Seq, Stuck_Plus. reflexivity. Qed.

(** An optional part [ LIMIT digits] or [ OFFSET digits], written with
    single blanks. *)
Lemma First_number (keyword : string) (i : nat) (digits rest : string) (c0 : list string) :
  stripFold keyword (keyword ++ " " ++ digits ++ rest) = Some (" " ++ digits ++ rest) ->
  match keyword with String c _ => isSpace c = false | EmptyString => False end ->
  isDigits digits -> step digit rest = None ->
  First text (Opt (Seq (Plus space) (Seq (Fold keyword) (Seq (Plus space) (Group i (Plus digit))))))
    (" " ++ keyword ++ " " ++ digits ++ rest) c0 rest (<[i := digits]> c0).
Proof.
  intros Hkw Hhead [Hne Hall] Hrest. apply First_Opt.
  destruct keyword as [|c kw]; [contradiction|].
  destruct digits as [|d ds]; [contradiction|].
  assert (isSpace d = false) as Hd.
  { apply isDigit_solid. simpl in Hall. apply andb_true_iff in Hall. tauto. }
  eapply First_Seq.
  { apply Only_First. apply (Only_Plus space _ (String c kw ++ " " ++ String d ds ++ rest)).
    - reflexivity.
    - simpl append. rewrite step_space_iff, Hhead. reflexivity. }
  eapply First_Seq; [apply First_Fold; exact Hkw|].
  eapply First_Seq.
  { apply Only_First. apply (Only_Plus space _ (String d ds ++ rest)).
    - reflexivity.
    - simpl append. rewrite step_space_iff, Hd. reflexivity. }
  rewrite <- (RegexpFacts.consumed_append (String d ds) rest) at 2.
  apply First_Group. apply (First_run digit isDigit); [apply isDigit_class | assumption..].
Qed.

End Outcomes.

End FirstFacts.

Module SelectFacts.
Import Bytes Backtrack BacktrackFacts SpaceFacts CanonicalFacts FirstFacts Statement.

Lemma isWord_ink (c : ascii) : isWord c = true -> isInk c = true.
Proof.
  unfold isWord, isInk, isDigit, isUpper, isLower, GoStrings.asciiSpace, between.
  rewrite !orb_true_iff, !andb_true_iff, negb_true_iff, orb_false_iff, andb_false_iff,
    !N.leb_le, N.ltb_lt, !N.leb_gt, !N.eqb_eq, N.eqb_neq.
  lia.
Qed.

Lemma isDigit_ink (c : ascii) : isDigit c = true -> isInk c = true.
Proof.
  intros H. apply isWord_ink. unfold isWord. rewrite H. reflexivity.
Qed.

(** The statement up to the name of the sheet: [SELECT * FROM t]. *)
Lemma First_head (text t tail rest : string) (c0 cN : list string) (r : re) :
  text = "SELECT * FROM " ++ t ++ tail ->
  t <> "" -> all isWord t = true -> step wordFold tail = None ->
  First text r tail (<[2%nat := t]> (<[1%nat := "*"]> c0)) rest cN ->
  First text
    (Seq BeginText (Seq (Fold "SELECT") (Seq (Plus space)
       (Seq (Group 1 (LazyPlus anyCharNotNL)) (Seq (Plus space) (Seq (Fold "FROM")
          (Seq (Plus space) (Seq (Group 2 (Plus wordFold)) r))))))))
    text c0 rest cN.
Proof.
  intros Etext Hne Hword Htail Hr.
  destruct t as [|ch t']; [contradiction|].
  assert (isSpace ch = false) as Hch.
  { apply isWord_solid. simpl in Hword. apply andb_true_iff in Hword. tauto. }
  eapply First_Seq; [apply First_Begin|].
  eapply First_Seq.
  { apply First_Fold. rewrite Etext. reflexivity. }
  eapply First_Seq.
  { apply Only_First. apply (Only_Plus text space _ ("* FROM " ++ String ch t' ++ tail));
      reflexivity. }
  eapply First_Seq.
  { apply (First_Group text 1 _ _ (" FROM " ++ String ch t' ++ tail)).
    apply First_Lazy. reflexivity. }
  change (Regexp.consumed ("* FROM " ++ String ch t' ++ tail)
            (" FROM " ++ String ch t' ++ tail))
    with (Regexp.consumed ("*" ++ " FROM " ++ String ch t' ++ tail)
            (" FROM " ++ String ch t' ++ tail)).
  rewrite RegexpFacts.consumed_append.
  eapply First_Seq.
  { apply Only_First. apply (Only_Plus text space _ ("FROM " ++ String ch t' ++ tail));
      reflexivity. }
  eapply First_Seq; [apply First_Fold; reflexivity|].
  eapply First_Seq.
  { apply Only_First. apply (Only_Plus text space _ (String ch t' ++ tail)).
    - reflexivity.
    - simpl append. rewrite step_space_iff, Hch. reflexivity. }
  eapply First_Seq.
  { apply (First_Group text 2 _ _ tail).
    apply (First_run text wordFold isWord); [apply isWord_class | assumption..]. }
  rewrite RegexpFacts.consumed_append. exact Hr.
Qed.

Lemma consumed_all (text : string) : Regexp.consumed text "" = text.
Proof. rewrite <- (append_nil_r text) at 1. apply RegexpFacts.consumed_append. Qed.

Lemma First_matchAt (text : string) (r : re) (caps : list string) :
  First text r text (replicate (S (groups r)) "") "" caps ->
  matchAt text r text = Some (<[0%nat := text]> caps, "").
Proof.
  intros H. unfold matchAt. simpl. rewrite <- (consumed_all text) at 3.
  apply (H _ (fun rest caps1 => Some (<[0%nat := Regexp.consumed text rest]> caps1, rest))).
  reflexivity.
Qed.

(** The submatches of [SELECT * FROM t]. *)
Lemma selectAll_submatches (t : string) :
  t <> "" -> all isWord t = true ->
  FindStringSubmatch selectRegex (selectAll t)
  = selectAll t :: "*" :: t :: "" :: "" :: "" :: nil.
Proof.
  intros Hne Hword. unfold selectRegex. rewrite FindStringSubmatch_anchored.
  rewrite (First_matchAt (selectAll t) _
             (<[2%nat := t]> (<[1%nat := "*"]> (replicate 6 "")))); [reflexivity|].
  apply (First_head (selectAll t) t "" "").
  - unfold selectAll. rewrite append_nil_r. reflexivity.
  - exact Hne.
  - exact Hword.
  - reflexivity.
  - eapply First_Seq; [apply First_skip, Stuck_end|].
    eapply First_Seq; [apply First_skip, Stuck_end|].
    eapply First_Seq; [apply First_skip, Stuck_end|].
    apply First_End.
Qed.

(** The submatches of [SELECT * FROM t LIMIT n OFFSET m]. *)
Lemma selectPage_submatches (t limitDigits offsetDigits : string) :
  t <> "" -> all isWord t = true -> isDigits limitDigits -> isDigits offsetDigits ->
  let text := "SELECT * FROM " ++ t ++ " LIMIT " ++ limitDigits
              ++ " OFFSET " ++ offsetDigits in
  FindStringSubmatch selectRegex text
  = text :: "*" :: t :: "" :: limitDigits :: offsetDigits :: nil.
Proof.
  intros Hne Hword Hl Ho text. unfold selectRegex. rewrite FindStringSubmatch_anchored.
  rewrite (First_matchAt text _
             (<[5%nat := offsetDigits]> (<[4%nat := limitDigits]>
                (<[2%nat := t]> (<[1%nat := "*"]> (replicate 6 ""))))));
    [reflexivity|].
  apply (First_head text t (" LIMIT " ++ limitDigits ++ " OFFSET " ++ offsetDigits) "").
  - reflexivity.
  - exact Hne.
  - exact Hword.
  - reflexivity.
  - eapply First_Seq.
    { apply First_skip.
      apply (Stuck_keyword text "WHERE" _ "L"
               ("IMIT " ++ limitDigits ++ " OFFSET " ++ offsetDigits)); reflexivity. }
    eapply First_Seq.
    { apply (First_number text "LIMIT" 4 limitDigits (" OFFSET " ++ offsetDigits));
        [reflexivity | reflexivity | exact Hl | reflexivity]. }
    eapply First_Seq.
    { pose proof (First_number text "OFFSET" 5 offsetDigits ""
                    (<[4%nat := limitDigits]>
                       (<[2%nat := t]> (<[1%nat := "*"]> (replicate 6 ""))))) as H.
      rewrite append_nil_r in H. apply H; [reflexivity | reflexivity | exact Ho | reflexivity]. }
    apply First_End.
Qed.

End SelectFacts.

Section Agreement.
Context `{RT : GoRuntime}.
Import Bytes.

Lemma all_impl (p p' : ascii -> bool) (s : string) :
  (forall c, p c = true -> p' c = true) -> all p s = true -> all p' s = true.
Proof.
  intros Himpl. induction s as [|c s IH]; simpl; [reflexivity|].
  intros H. apply andb_true_iff in H as [Hc H]. rewrite (Himpl c Hc), (IH H). reflexivity.
Qed.

Lemma TrimSpace_ends (c : ascii) (a b : string) :
  isInk c = true -> b <> "" -> all isInk b = true ->
  GoStrings.TrimSpace (String c (a ++ b)) = String c (a ++ b).
Proof.
  intros Hc Hne Hall.
  destruct (CanonicalFacts.last_byte isInk b Hne Hall) as (init & d & -> & Hd).
  rewrite <- append_assoc. apply SpaceFacts.TrimSpace_ink; assumption.
Qed.

Lemma normalize_selectAll (t : string) :
  t <> "" -> all isWord t = true -> SQLParser.normalize (selectAll t) = selectAll t.
Proof.
  intros Hne Hword. unfold SQLParser.normalize, selectAll.
  change ("SELECT * FROM " ++ t) with (String "S" ("ELECT * FROM " ++ t)).
  rewrite TrimSpace_ends;
    [|reflexivity | exact Hne | apply (all_impl isWord); [apply SelectFacts.isWord_ink|exact Hword]].
  rewrite SpaceFacts.ReplaceAllString_squeeze. simpl.
  rewrite <- (append_nil_r t) at 1.
  rewrite (CanonicalFacts.squeeze_solid isWord CanonicalFacts.isWord_solid t "" true Hne Hword).
  simpl. rewrite append_nil_r. reflexivity.
Qed.

Lemma normalize_selectPage (t limitDigits offsetDigits : string) :
  t <> "" -> all isWord t = true -> isDigits limitDigits -> isDigits offsetDigits ->
  let text := "SELECT * FROM " ++ t ++ " LIMIT " ++ limitDigits
              ++ " OFFSET " ++ offsetDigits in
  SQLParser.normalize text = text.
Proof.
  intros Hne Hword [Hlne Hl] [Hone Ho] text. unfold SQLParser.normalize. subst text.
  change ("SELECT * FROM " ++ t ++ " LIMIT " ++ limitDigits ++ " OFFSET " ++ offsetDigits)
    with (String "S" ("ELECT * FROM " ++ t ++ " LIMIT " ++ limitDigits ++ " OFFSET "
                      ++ offsetDigits)).
  replace ("ELECT * FROM " ++ t ++ " LIMIT " ++ limitDigits ++ " OFFSET " ++ offsetDigits)
    with (("ELECT * FROM " ++ t ++ " LIMIT " ++ limitDigits ++ " OFFSET ") ++ offsetDigits)
    by (rewrite !append_assoc; reflexivity).
  rewrite TrimSpace_ends;
    [|reflexivity | exact Hone
     | apply (all_impl isDigit); [apply SelectFacts.isDigit_ink | exact Ho]].
  rewrite SpaceFacts.ReplaceAllString_squeeze.
  rewrite !append_assoc. simpl.
  rewrite (CanonicalFacts.squeeze_solid isWord CanonicalFacts.isWord_solid t _ true Hne Hword).
  simpl.
  rewrite (CanonicalFacts.squeeze_solid isDigit CanonicalFacts.isDigit_solid limitDigits _
             true Hlne Hl).
  simpl. rewrite <- (append_nil_r offsetDigits) at 1.
  rewrite (CanonicalFacts.squeeze_solid isDigit CanonicalFacts.isDigit_solid offsetDigits ""
             true Hone Ho).
  simpl. rewrite append_nil_r. reflexivity.
Qed.

End Agreement.

(** X18. The SQL front end and the builder agree on the statements
    without WHERE: for a sheet whose name is a run of word characters,
    [SELECT * FROM t] is the query [From t], and with a limit and an
    offset that are not negative, written in decimal,
    [SELECT * FROM t LIMIT n OFFSET m] is [From t] with that limit and
    that offset; [SQLParser.Query] on the statement is [Get] on the
    query. *)
Theorem SQL_and_builder_agree (RT : GoRuntime) (W : Type) (service : Service W)
    (t : string) (n m : Z) (dest : Dest) (w : W) :
  t <> "" -> Bytes.all Bytes.isWord t = true ->
  0 <= n < 2 ^ 63 -> 0 <= m < 2 ^ 63 ->
  SQLParser.parseSQL (selectAll t) = Success (From t)
  /\ SQLParser.parseSQL (selectPage t n m) = Success (Offset (Limit (From t) n) m)
  /\ SQLParser.Query service (selectPage t n m) dest w
     = (let '((dest', err), w1) := Get service (Offset (Limit (From t) n) m) dest w in
        ((dest', option_map Engine err), w1)).
Proof.
  intros Hne Hword Hn Hm.
  assert (SQLParser.parseSQL (selectPage t n m) = Success (Offset (Limit (From t) n) m))
    as Hpage.
  { pose proof (CanonicalFacts.FormatInt_digits n ltac:(lia)) as Hld.
    pose proof (CanonicalFacts.FormatInt_digits m ltac:(lia)) as Hod.
    unfold SQLParser.parseSQL, selectPage.
    rewrite (normalize_selectPage t _ _ Hne Hword Hld Hod).
    rewrite (SelectFacts.selectPage_submatches t _ _ Hne Hword Hld Hod).
    simpl length. simpl Nat.eqb. cbv iota. simpl nth.
    change (negb ("" ==? "")) with false. cbv iota.
    unfold SQLParser.setNumber.
    assert (forall k, (Strconv.FormatInt k ==? "") = false) as Hnonempty.
    { intros k. apply String.eqb_neq, DecimalFacts.FormatInt_nonempty. }
    rewrite !Hnonempty. simpl negb. cbv iota.
    unfold Strconv.Atoi. rewrite !DecimalFacts.parseInt64_FormatInt by lia.
    reflexivity. }
  split; [|split; [exact Hpage|]].
  - unfold SQLParser.parseSQL.
    rewrite (normalize_selectAll t Hne Hword).
    rewrite (SelectFacts.selectAll_submatches t Hne Hword). reflexivity.
  - unfold SQLParser.Query. rewrite Hpage. reflexivity.
Qed.

(** The second page of two of the sheet of the nine people. *)
Lemma SQL_and_builder_agree_witness :
  "People" <> "" /\ Bytes.all Bytes.isWord "People" = true
  /\ 0 <= 2 < 2 ^ 63
  /\ selectPage "People" 2 2 = "SELECT * FROM People LIMIT 2 OFFSET 2"
  /\ SQLParser.Query (RT := RefRuntime) peopleService "SELECT * FROM People LIMIT 2 OFFSET 2"
       (SlicePtr person nil) nil
     = ((SlicePtr person ((Str "p2" :: nil) :: (Str "p3" :: nil) :: nil), None), nil)
  /\ SQLParser.parseSQL (RT := RefRuntime) (selectAll "People") = Success (From "People")
  /\ SQLParser.parseSQL (RT := RefRuntime) (selectPage "People" 2 2)
     = Success (Offset (Limit (From "People") 2) 2)
  /\ SQLParser.Query (RT := RefRuntime) peopleService (selectPage "People" 2 2)
       (SlicePtr person nil) nil
     = (let '((dest', err), w1) :=
          Get (RT := RefRuntime) peopleService (Offset (Limit (From "People") 2) 2)
            (SlicePtr person nil) nil in
        ((dest', option_map Engine err), w1)).
Proof.
  assert ("People" <> "") as H1 by discriminate.
  assert (0 <= 2 < 2 ^ 63) as H2 by lia.
  split; [exact H1|]. split; [reflexivity|]. split; [exact H2|].
  split; [vm_compute; reflexivity|]. split; [vm_compute; reflexivity|].
  exact (SQL_and_builder_agree RefRuntime _ peopleService "People" 2 2
           (SlicePtr person nil) nil H1 eq_refl H2 H2).
Defined.
